(** * Real-time speech translator: session loop, caches and retry logic

    A shallow embedding of [src/app.py] (class [RealTimeTranslator] and the
    part of [main] that drives it).

    - Python's control flow with exceptions is a small state-and-exception
      monad [M]; [try]/[except]/[finally] are combinators on it.
    - Every call that leaves the program (recogniser, translator, gTTS,
      playsound, the file system, the clock, [time.sleep]) is answered by an
      environment [Env].  The answer may depend on the whole history through
      the number of events logged so far, so the theorems hold for every
      deterministic behaviour of the outside world.
    - Every such call, and every [print], is appended to an event log; the
      statements about "how many times" something is invoked count events.
    - [translation_cache] is a Python [dict]: an association list in
      insertion order.  The cache directory is a finite map from file name
      to modification time.
    - Times are integers (seconds for the clock and [st_mtime], which are
      floats in the source; milliseconds for [time.sleep]).
    - [KeyboardInterrupt] (Ctrl-C) reaches the program during a call into
      the outside world; [time.sleep] and [print] raise nothing else.
    - [hashlib.md5(text.encode()).hexdigest()] is the total function
      [env_md5].  The recogniser object and its thresholds (lines 24,
      30-32) have no part in what is proved and are left out, as are the
      language prompts of [main]. *)

From stdpp Require Import base list gmap strings.
From Stdlib Require Import ZArith Lia.

Local Open Scope Z_scope.
Local Open Scope string_scope.
Local Open Scope list_scope.

(** ** Exceptions *)

(** The exception classes the program distinguishes.  [OtherException]
    stands for every other subclass of [Exception]; [KeyboardInterrupt]
    is the only one that is not an [Exception]. *)
Inductive exn : Type :=
| WaitTimeoutError
| UnknownValueError
| RequestError (msg : string)
| ValueError (cause : exn)
| StopIteration
| KeyError (key : string)
| FileNotFoundError (name : string)
| OtherException (msg : string)
| KeyboardInterrupt.

(** [isinstance(e, Exception)] *)
Definition is_Exception (e : exn) : bool :=
  match e with
  | KeyboardInterrupt => false
  | _ => true
  end.

Definition is_KeyboardInterrupt (e : exn) : bool :=
  match e with
  | KeyboardInterrupt => true
  | _ => false
  end.

(** What a call into the outside world gives back. *)
Inductive outcome (A : Type) : Type :=
| Ok (a : A)
| Raise (e : exn).
Arguments Ok {A} a.
Arguments Raise {A} e.

(** [gTTS(text, lang).save(path)]: the artifact is written, or the call
    raises; a failed call may already have created the file. *)
Inductive save_result : Type :=
| Saved
| SaveFailed (e : exn) (file_left : bool).

Definition audio := string.

(** ** Console output *)

Inductive message : Type :=
| MsgInitializing
| MsgInitComplete
| MsgAdjusting
| MsgCalibrating (pass : Z)
| MsgAdjustComplete
| MsgAdjustWarning (e : exn)
| MsgListening (lang : string)
| MsgPressCtrlC
| MsgProcessing
| MsgYouSaid (text : string)
| MsgCached (translation : string)
| MsgTranslating
| MsgTranslation (translation : string)
| MsgDot
| MsgNotUnderstood
| MsgRecognitionError (e : exn)
| MsgUnexpected (e : exn)
| MsgStopped
| MsgGenerating
| MsgTtsFailed (max_retries : Z) (e : exn)
| MsgRetrying (attempt max_retries : Z)
| MsgMainError (e : exn)
| MsgCheckLanguages.

(** ** Events *)

Inductive event : Type :=
| EvTranslatorNew (source target : string) (o : outcome unit)
| EvTranslate (text : string) (o : outcome string)
| EvMkdir (o : outcome unit)
| EvMicOpen (o : outcome unit)
| EvMicClose
| EvAdjust (duration : Z) (o : outcome unit)
| EvListen (timeout phrase_time_limit : Z) (o : outcome audio)
| EvRecognize (a : audio) (lang : string) (o : outcome string)
| EvSleep (ms : Z) (o : outcome unit)
| EvExists (path : string) (b : bool)
| EvSave (text lang path : string) (r : save_result)
| EvPlay (path : string) (o : outcome unit)
| EvTime (t : Z)
| EvGlob (found : list string)
| EvUnlink (path : string) (o : outcome unit)
| EvPrint (m : message).

(** ** The outside world *)

(** Each field answers one kind of call; the first argument is the number
    of events logged before the call. *)
Record Env : Type := {
  env_translator_new : nat -> string -> string -> outcome unit;
  env_translate : nat -> string -> outcome string;
  env_mkdir : nat -> outcome unit;
  env_mic_open : nat -> outcome unit;
  env_adjust : nat -> outcome unit;
  env_listen : nat -> outcome audio;
  env_recognize : nat -> audio -> string -> outcome string;
  env_sleep_interrupted : nat -> bool;
  env_save : nat -> string -> string -> string -> save_result;
  env_play : nat -> string -> outcome unit;
  env_time : nat -> Z;
  env_unlink : nat -> string -> outcome unit;
  env_md5 : string -> string
}.

(** ** Python dictionaries (insertion ordered) *)

Definition dict := list (string * string).

(** [k in d] *)
Definition dict_contains (k : string) (d : dict) : bool :=
  bool_decide (k ∈ d.*1).

(** [d[k]] *)
Fixpoint dict_get (k : string) (d : dict) : option string :=
  match d with
  | [] => None
  | (k', v) :: r => if decide (k = k') then Some v else dict_get k r
  end.

(** [d[k] = v]: an existing key keeps its position, a new key goes last. *)
Fixpoint dict_set (k v : string) (d : dict) : dict :=
  match d with
  | [] => [(k, v)]
  | (k', v') :: r =>
      if decide (k = k') then (k, v) :: r else (k', v') :: dict_set k v r
  end.

(** [d.pop(k)]: the value and the remaining dictionary, [None] for
    [KeyError]. *)
Fixpoint dict_pop (k : string) (d : dict) : option (string * dict) :=
  match d with
  | [] => None
  | (k', v) :: r =>
      if decide (k = k') then Some (v, r)
      else match dict_pop k r with
           | Some (x, r') => Some (x, (k', v) :: r')
           | None => None
           end
  end.

(** [next(iter(d))] *)
Definition dict_first_key (d : dict) : option string :=
  match d with
  | [] => None
  | (k, _) :: _ => Some k
  end.

(** ** Program state *)

Record State : Type := {
  translation_cache : dict;
  cache_dir_files : gmap string Z;
  log : list event
}.

Definition set_cache (c : dict) (st : State) : State :=
  {| translation_cache := c;
     cache_dir_files := cache_dir_files st;
     log := log st |}.

Definition set_files (f : gmap string Z) (st : State) : State :=
  {| translation_cache := translation_cache st;
     cache_dir_files := f;
     log := log st |}.

Definition emit (e : event) (st : State) : State :=
  {| translation_cache := translation_cache st;
     cache_dir_files := cache_dir_files st;
     log := log st ++ [e] |}.

(** The number of events so far: the index the environment is asked at. *)
Definition tick (st : State) : nat := length (log st).

(** ** The monad *)

(** [Running] is the result of a computation that is still inside
    [while True] when the observation ends; no handler and no [finally]
    sees it. *)
Inductive Res (A : Type) : Type :=
| Val (a : A)
| Exn (e : exn)
| Running.
Arguments Val {A} a.
Arguments Exn {A} e.
Arguments Running {A}.

Definition M (A : Type) : Type := State -> Res A * State.

Definition ret {A} (a : A) : M A := fun st => (Val a, st).

Definition raise {A} (e : exn) : M A := fun st => (Exn e, st).

Definition running {A} : M A := fun st => (Running, st).

Definition bind {A B} (m : M A) (f : A -> M B) : M B :=
  fun st =>
    match m st with
    | (Val a, st') => f a st'
    | (Exn e, st') => (Exn e, st')
    | (Running, st') => (Running, st')
    end.

Notation "x <- m ;; k" := (bind m (fun x => k))
  (at level 100, m at next level, right associativity).
Notation "m ;; k" := (bind m (fun _ => k))
  (at level 100, right associativity).

(** [try: m  except <classes matched by h>: h e] *)
Definition try_except {A} (m : M A) (h : exn -> option (M A)) : M A :=
  fun st =>
    match m st with
    | (Exn e, st') =>
        match h e with
        | Some k => k st'
        | None => (Exn e, st')
        end
    | r => r
    end.

(** [try: m  finally: f] *)
Definition finally {A} (m : M A) (f : M unit) : M A :=
  fun st =>
    match m st with
    | (Running, st') => (Running, st')
    | (r, st') =>
        match f st' with
        | (Val _, st'') => (r, st'')
        | (Exn e, st'') => (Exn e, st'')
        | (Running, st'') => (Running, st'')
        end
    end.

(** [except Exception:] *)
Definition on_Exception {A} (k : exn -> M A) (e : exn) : option (M A) :=
  if is_Exception e then Some (k e) else None.

Definition get_state : M State := fun st => (Val st, st).

Definition print (m : message) : M unit :=
  fun st => (Val tt, emit (EvPrint m) st).

(** A call answered by the environment. *)
Definition call {A} (answer : nat -> outcome A) (ev : outcome A -> event)
  : M A :=
  fun st =>
    let o := answer (tick st) in
    match o with
    | Ok a => (Val a, emit (ev o) st)
    | Raise e => (Exn e, emit (ev o) st)
    end.

(** [time.sleep] returns, or is cut short by Ctrl-C. *)
Definition sleep_outcome (interrupted : bool) : outcome unit :=
  if interrupted then Raise KeyboardInterrupt else Ok tt.

(** [range(n)] *)
Definition range (n : Z) : list Z := Z.of_nat <$> seq 0 (Z.to_nat n).

(** [int(n * 0.2)]: truncation towards zero of a fifth of [n] (the
    double product [n * 0.2] truncates to the same integer for every [n]
    a cache size can take). *)
Definition int_mul_0_2 (n : Z) : Z := Z.quot n 5.

(** [len(d)] *)
Definition len {A} (l : list A) : Z := Z.of_nat (length l).

(** [for x in l: body x] *)
Fixpoint for_each {A} (l : list A) (body : A -> M unit) : M unit :=
  match l with
  | [] => ret tt
  | x :: rest => body x ;; for_each rest body
  end.

(** [name.endswith(suffix)]; the pattern ["*.mp3"] of [glob] selects the
    names for which this holds with the suffix [".mp3"]. *)
Definition ends_with (suffix name : string) : bool :=
  let n := String.length name in
  let k := String.length suffix in
  bool_decide (k <= n)%nat &&
  bool_decide (String.substring (n - k) k name = suffix).

(** ** class RealTimeTranslator *)

Section RealTimeTranslator.

Variable env : Env.
Variables source_lang target_lang : string.

(** [self.cache_dir]; every path the program handles is a file of this
    directory and is represented by its file name. *)
Definition cache_dir : string := "translation_cache".

(** *** __init__ *)

Definition init : M unit :=
  print MsgInitializing ;;
  try_except
    (call (fun n => env_translator_new env n source_lang target_lang)
          (EvTranslatorNew source_lang target_lang) ;;
     call (fun n => env_translate env n "test") (EvTranslate "test") ;;
     ret tt)
    (on_Exception (fun e => raise (ValueError e))) ;;
  call (env_mkdir env) EvMkdir ;;
  (fun st => (Val tt, set_cache [] st)) ;;
  print MsgInitComplete.

(** *** get_audio_filename *)

Definition get_audio_filename (text : string) : string :=
  "audio_" +:+ target_lang +:+ "_" +:+ env_md5 env text +:+ ".mp3".

(** *** text_to_speech *)

(** [audio_file.exists()] *)
Definition file_exists (path : string) : M bool :=
  fun st =>
    let b := bool_decide (is_Some (cache_dir_files st !! path)) in
    (Val b, emit (EvExists path b) st).

(** [tts = gTTS(text=text, lang=self.target_lang); tts.save(path)] *)
Definition gtts_save (text path : string) : M unit :=
  fun st =>
    let r := env_save env (tick st) text target_lang path in
    let written :=
      set_files (<[path := env_time env (tick st)]> (cache_dir_files st))
                (emit (EvSave text target_lang path r) st) in
    match r with
    | Saved => (Val tt, written)
    | SaveFailed e true => (Exn e, written)
    | SaveFailed e false => (Exn e, emit (EvSave text target_lang path r) st)
    end.

Definition playsound (path : string) : M unit :=
  call (fun n => env_play env n path) (EvPlay path).

Definition sleep (ms : Z) : M unit :=
  call (fun n => sleep_outcome (env_sleep_interrupted env n)) (EvSleep ms).

(** The body of the [try] of one attempt, up to its [return]. *)
Definition tts_attempt (text : string) : M unit :=
  let audio_file := get_audio_filename text in
  present <- file_exists audio_file ;;
  (if negb present
   then print MsgGenerating ;; gtts_save text audio_file
   else ret tt) ;;
  playsound audio_file.

(** How one pass of the [for] loop ends: by [return], or by going on to
    the next attempt. *)
Inductive flow : Type := Return | Next.

Fixpoint text_to_speech_for (text : string) (max_retries : Z)
    (attempts : list Z) : M unit :=
  match attempts with
  | [] => ret tt
  | attempt :: rest =>
      f <- try_except
             (tts_attempt text ;; ret Return)
             (on_Exception (fun e =>
                (if decide (attempt = max_retries - 1)
                 then print (MsgTtsFailed max_retries e)
                 else print (MsgRetrying (attempt + 2) max_retries) ;;
                      sleep 1000) ;;
                ret Next)) ;;
      match f with
      | Return => ret tt
      | Next => text_to_speech_for text max_retries rest
      end
  end.

Definition text_to_speech (text : string) (max_retries : Z) : M unit :=
  text_to_speech_for text max_retries (range max_retries).

(** *** cleanup *)

(** [time.time()] *)
Definition time_time : M Z :=
  fun st =>
    let t := env_time env (tick st) in (Val t, emit (EvTime t) st).

(** [self.cache_dir.glob("*.mp3")] *)
Definition glob_mp3 : M (list string) :=
  fun st =>
    let found :=
      filter (fun name => ends_with ".mp3" name = true)
             (map_to_list (cache_dir_files st)).*1 in
    (Val found, emit (EvGlob found) st).

(** [file.stat().st_mtime] *)
Definition stat_mtime (file : string) : M Z :=
  fun st =>
    match cache_dir_files st !! file with
    | Some t => (Val t, st)
    | None => (Exn (FileNotFoundError file), st)
    end.

(** [file.unlink()] *)
Definition unlink (file : string) : M unit :=
  fun st =>
    let o := env_unlink env (tick st) file in
    let st1 := emit (EvUnlink file o) st in
    match o with
    | Ok _ => (Val tt, set_files (delete file (cache_dir_files st)) st1)
    | Raise e => (Exn e, st1)
    end.

Definition cleanup_file (current_time : Z) (file : string) : M unit :=
  mtime <- stat_mtime file ;;
  if current_time - mtime >? 86400
  then try_except (unlink file) (on_Exception (fun _ => ret tt))
  else ret tt.

Definition cleanup : M unit :=
  current_time <- time_time ;;
  files <- glob_mp3 ;;
  for_each files (cleanup_file current_time).

(** *** adjust_for_ambient_noise *)

Definition adjust_for_ambient_noise : M unit :=
  print MsgAdjusting ;;
  try_except
    (for_each (range 3) (fun i =>
       call (env_adjust env) (EvAdjust 1) ;;
       print (MsgCalibrating (i + 1))) ;;
     print MsgAdjustComplete)
    (on_Exception (fun e => print (MsgAdjustWarning e))).

(** *** manage_cache *)

(** [self.translation_cache.pop(next(iter(self.translation_cache)))] *)
Definition pop_oldest : M unit :=
  fun st =>
    match dict_first_key (translation_cache st) with
    | None => (Exn StopIteration, st)
    | Some k =>
        match dict_pop k (translation_cache st) with
        | None => (Exn (KeyError k), st)
        | Some (_, d) => (Val tt, set_cache d st)
        end
    end.

Definition manage_cache (max_cache_size : Z) : M unit :=
  st <- get_state ;;
  if len (translation_cache st) >? max_cache_size
  then
    let items_to_remove := int_mul_0_2 max_cache_size in
    for_each (range items_to_remove) (fun _ => pop_oldest)
  else ret tt.

(** *** listen_and_translate *)

(** Lines 63-70: the cached translation, or a call of the translator
    whose result is stored under [text]. *)
Definition lookup_or_translate (text : string) : M string :=
  st <- get_state ;;
  if dict_contains text (translation_cache st)
  then
    match dict_get text (translation_cache st) with
    | Some translation => print (MsgCached translation) ;; ret translation
    | None => raise (KeyError text)
    end
  else
    print MsgTranslating ;;
    translation <- call (fun n => env_translate env n text)
                        (EvTranslate text) ;;
    (fun st => (Val tt,
                set_cache (dict_set text translation (translation_cache st))
                          st)) ;;
    print (MsgTranslation translation) ;;
    ret translation.

(** The [try] block of the loop body. *)
Definition iteration_body : M unit :=
  a <- call (env_listen env) (EvListen 5 10) ;;
  print MsgProcessing ;;
  text <- call (fun n => env_recognize env n a source_lang)
               (EvRecognize a source_lang) ;;
  print (MsgYouSaid text) ;;
  sleep 500 ;;
  translation <- lookup_or_translate text ;;
  text_to_speech translation 3.

(** The [except] clauses of the loop body, tried in order. *)
Definition iteration_handler (e : exn) : option (M unit) :=
  match e with
  | WaitTimeoutError => Some (print MsgDot)
  | UnknownValueError => Some (print MsgNotUnderstood)
  | RequestError _ => Some (print (MsgRecognitionError e))
  | KeyboardInterrupt => None
  | _ => Some (print (MsgUnexpected e) ;; sleep 1000)
  end.

Definition iteration : M unit := try_except iteration_body iteration_handler.

(** [while True:], observed for [fuel] passes. *)
Fixpoint loop (fuel : nat) : M unit :=
  match fuel with
  | O => running
  | S n => iteration ;; loop n
  end.

(** [with sr.Microphone() as source: body] *)
Definition with_microphone {A} (body : M A) : M A :=
  call (env_mic_open env) EvMicOpen ;;
  finally body (fun st => (Val tt, emit EvMicClose st)).

Definition listen_and_translate (fuel : nat) : M unit :=
  finally
    (try_except
       (with_microphone
          (adjust_for_ambient_noise ;;
           print (MsgListening source_lang) ;;
           print MsgPressCtrlC ;;
           loop fuel))
       (fun e => if is_KeyboardInterrupt e
                 then Some (print MsgStopped) else None))
    cleanup.

(** *** main, after the language prompts *)

Definition main (fuel : nat) : M unit :=
  try_except
    (init ;; listen_and_translate fuel)
    (on_Exception (fun e => print (MsgMainError e) ;; print MsgCheckLanguages)).

End RealTimeTranslator.

(** * Auxiliary definitions for the statements *)

(** Entries written one after the other, as the loop does. *)
Definition dict_insert_all (entries : list (string * string)) (d : dict)
  : dict :=
  foldl (fun acc kv => dict_set kv.1 kv.2 acc) d entries.


(** A state that holds the given translation cache and nothing else. *)
Definition state_of_cache (d : dict) : State :=
  {| translation_cache := d; cache_dir_files := ∅; log := [] |}.

(** [n] entries with the distinct keys ["A"], ["B"], ... in this order. *)
Definition letter_entries (n : nat) : dict :=
  (fun i => (String (Ascii.ascii_of_nat (65 + i)) EmptyString, "x"))
    <$> seq 0 n.

(** "Removes the oldest 20% of entries", read as a fifth of the entries
    that are in the cache when the call is made. *)
Definition evict_fifth_of_entries (max_cache_size : Z) (d : dict) : dict :=
  if len d >? max_cache_size
  then drop (Z.to_nat (len d * 20 / 100)) d
  else d.

(** ** Statements about computations *)

(** [effect m R]: running [m] relates the state before to the state after
    by [R], whatever the result.  For a preorder [R] this passes through
    sequencing, handlers and loops. *)
Definition effect {A} (m : M A) (R : relation State) : Prop :=
  forall st, R st (m st).2.

(** [halts m]: [m] is not left inside [while True]. *)
Definition halts {A} (m : M A) : Prop :=
  forall st, (m st).1 <> Running.

(** [raises_only m C]: every exception that leaves [m] satisfies [C]. *)
Definition raises_only {A} (m : M A) (C : exn -> Prop) : Prop :=
  forall st e, (m st).1 = Exn e -> C e.

(** The events a computation adds: those of [st'] after those of [st]. *)
Definition new_events (st st' : State) : list event :=
  drop (length (log st)) (log st').

(** [emits P]: the log grows, by events that satisfy [P]. *)
Definition emits (P : event -> Prop) : relation State :=
  fun st st' => exists l, log st' = log st ++ l /\ Forall P l.

(** The translation cache is left as it is. *)
Definition same_cache : relation State :=
  fun st st' => translation_cache st' = translation_cache st.

(** The cache directory is left as it is. *)
Definition same_files : relation State :=
  fun st st' => cache_dir_files st' = cache_dir_files st.


(** ** Counting events *)

Fixpoint count_events (f : event -> bool) (l : list event) : nat :=
  match l with
  | [] => 0
  | e :: r => (if f e then 1 else 0) + count_events f r
  end.

(** An attempt of [text_to_speech] starts with the one [exists()] test of
    its [try] block. *)
Definition is_exists (e : event) : bool :=
  match e with EvExists _ _ => true | _ => false end.

Definition is_sleep (e : event) : bool :=
  match e with EvSleep _ _ => true | _ => false end.

Definition is_tts_failed (e : event) : bool :=
  match e with EvPrint (MsgTtsFailed _ _) => true | _ => false end.

Definition attempts_in (l : list event) : nat := count_events is_exists l.

Definition sleeps_in (l : list event) : nat := count_events is_sleep l.

(** The state after the notice and the one-second pause that follow a
    failed attempt which is not the last one. *)
Definition retry_notice (attempt max_retries : Z) (st : State) : State :=
  emit (EvSleep 1000 (Ok tt))
       (emit (EvPrint (MsgRetrying (attempt + 2) max_retries)) st).

(** The state after the report that follows the last failed attempt. *)
Definition failure_report (max_retries : Z) (e : exn) (st : State) : State :=
  emit (EvPrint (MsgTtsFailed max_retries e)) st.

Definition empty_state : State :=
  {| translation_cache := []; cache_dir_files := ∅; log := [] |}.

(** An outside world in which every call succeeds: the recogniser hears
    ["hello"], the translator answers ["bonjour"], Ctrl-C is never
    pressed.  The environments of the examples below change one answer of
    this one. *)
Definition calm_env : Env :=
  {| env_translator_new := fun _ _ _ => Ok tt;
     env_translate := fun _ _ => Ok "bonjour";
     env_mkdir := fun _ => Ok tt;
     env_mic_open := fun _ => Ok tt;
     env_adjust := fun _ => Ok tt;
     env_listen := fun _ => Ok "wave";
     env_recognize := fun _ _ _ => Ok "hello";
     env_sleep_interrupted := fun _ => false;
     env_save := fun _ _ _ _ => Saved;
     env_play := fun _ _ => Ok tt;
     env_time := fun n => Z.of_nat n;
     env_unlink := fun _ _ => Ok tt;
     env_md5 := fun text => text |}.

Definition with_play (play : nat -> string -> outcome unit) (env : Env)
  : Env :=
  {| env_translator_new := env_translator_new env;
     env_translate := env_translate env;
     env_mkdir := env_mkdir env;
     env_mic_open := env_mic_open env;
     env_adjust := env_adjust env;
     env_listen := env_listen env;
     env_recognize := env_recognize env;
     env_sleep_interrupted := env_sleep_interrupted env;
     env_save := env_save env;
     env_play := play;
     env_time := env_time env;
     env_unlink := env_unlink env;
     env_md5 := env_md5 env |}.

(** Playback fails until the log holds [n] events, and works afterwards. *)
Definition play_fails_before (n : nat) : Env :=
  with_play (fun k _ => if (k <? n)%nat
                        then Raise (OtherException "playback failed")
                        else Ok tt)
            calm_env.

(** Playback always fails. *)
Definition play_always_fails : Env :=
  with_play (fun _ _ => Raise (OtherException "playback failed")) calm_env.

(** A pause of exactly one second. *)
Definition is_one_second_sleep (e : event) : bool :=
  match e with EvSleep ms _ => bool_decide (ms = 1000) | _ => false end.

(** [tts_attempt] fails in every state, with an exception that the
    handler of [text_to_speech] catches. *)
Definition always_fails (env : Env) (target_lang text : string) : Prop :=
  forall st, exists e s1,
    tts_attempt env target_lang text st = (Exn e, s1) /\
    is_Exception e = true.

(** A sampling pass of the calibration. *)
Definition is_adjust (e : event) : bool :=
  match e with EvAdjust _ _ => true | _ => false end.

(** A sampling pass of one second. *)
Definition is_one_second_adjust (e : event) : bool :=
  match e with EvAdjust d _ => bool_decide (d = 1) | _ => false end.

Definition is_listen (e : event) : bool :=
  match e with EvListen _ _ _ => true | _ => false end.

(** The start of a cleanup sweep: the scan of the cache directory. *)
Definition is_glob (e : event) : bool :=
  match e with EvGlob _ => true | _ => false end.

(** The events of the loop body. *)
Definition loop_event (e : event) : Prop :=
  match e with
  | EvListen _ _ _ | EvRecognize _ _ _ | EvSleep _ _ | EvTranslate _ _
  | EvExists _ _ | EvSave _ _ _ _ | EvPlay _ _ | EvPrint _ => True
  | _ => False
  end.

(** The events of [text_to_speech]. *)
Definition tts_event (e : event) : Prop :=
  match e with
  | EvSleep _ _ | EvExists _ _ | EvSave _ _ _ _ | EvPlay _ _ | EvPrint _ =>
      True
  | _ => False
  end.

(** The events of [cleanup]. *)
Definition sweep_event (e : event) : Prop :=
  match e with
  | EvTime _ | EvGlob _ | EvUnlink _ _ => True
  | _ => False
  end.

(** The events of [adjust_for_ambient_noise]. *)
Definition calibration_event (e : event) : Prop :=
  match e with
  | EvAdjust _ _ | EvPrint _ => True
  | _ => False
  end.

(** The events of the session once the microphone is open and
    calibrated. *)
Definition session_event (e : event) : Prop :=
  loop_event e \/ sweep_event e \/ e = EvMicClose.

Definition with_adjust (adjust : nat -> outcome unit) (env : Env) : Env :=
  {| env_translator_new := env_translator_new env;
     env_translate := env_translate env;
     env_mkdir := env_mkdir env;
     env_mic_open := env_mic_open env;
     env_adjust := adjust;
     env_listen := env_listen env;
     env_recognize := env_recognize env;
     env_sleep_interrupted := env_sleep_interrupted env;
     env_save := env_save env;
     env_play := env_play env;
     env_time := env_time env;
     env_unlink := env_unlink env;
     env_md5 := env_md5 env |}.

Definition with_listen (listen : nat -> outcome audio) (env : Env) : Env :=
  {| env_translator_new := env_translator_new env;
     env_translate := env_translate env;
     env_mkdir := env_mkdir env;
     env_mic_open := env_mic_open env;
     env_adjust := env_adjust env;
     env_listen := listen;
     env_recognize := env_recognize env;
     env_sleep_interrupted := env_sleep_interrupted env;
     env_save := env_save env;
     env_play := env_play env;
     env_time := env_time env;
     env_unlink := env_unlink env;
     env_md5 := env_md5 env |}.

(** The audio source fails from the second sampling pass on. *)
Definition noisy_microphone : Env :=
  with_adjust (fun n => if (n <? 3)%nat then Ok tt
                        else Raise (OtherException "audio source failed"))
              calm_env.

(** Ctrl-C is pressed once the log holds [n] events. *)
Definition interrupted_after (n : nat) (env : Env) : Env :=
  with_listen (fun k => if (k <? n)%nat then env_listen env k
                        else Raise KeyboardInterrupt)
              env.

Definition with_time (time : nat -> Z) (env : Env) : Env :=
  {| env_translator_new := env_translator_new env;
     env_translate := env_translate env;
     env_mkdir := env_mkdir env;
     env_mic_open := env_mic_open env;
     env_adjust := env_adjust env;
     env_listen := env_listen env;
     env_recognize := env_recognize env;
     env_sleep_interrupted := env_sleep_interrupted env;
     env_save := env_save env;
     env_play := env_play env;
     env_time := time;
     env_unlink := env_unlink env;
     env_md5 := env_md5 env |}.

(** The clock stands at 1 000 000 seconds. *)
Definition noon_env : Env := with_time (fun _ => 1000000) calm_env.

(** A cache directory with an artifact written 25 hours before the
    clock of [noon_env], and one written 1 hour before it. *)
Definition two_artifacts : State :=
  {| translation_cache := [];
     cache_dir_files :=
       {[ "audio_fr_old.mp3" := 1000000 - 25 * 3600;
          "audio_fr_new.mp3" := 1000000 - 3600 ]};
     log := [] |}.

(** The events of one pass of the loop after its [listen]. *)
Definition after_listen_event (e : event) : Prop :=
  match e with
  | EvRecognize _ _ _ | EvSleep _ _ | EvTranslate _ _
  | EvExists _ _ | EvSave _ _ _ _ | EvPlay _ _ | EvPrint _ => True
  | _ => False
  end.

(** The exceptions that reach the last [except] clause of the loop. *)
Definition unclassified (e : exn) : bool :=
  match e with
  | WaitTimeoutError | UnknownValueError | RequestError _
  | KeyboardInterrupt => false
  | _ => true
  end.

Definition with_recognize
    (recognize : nat -> audio -> string -> outcome string) (env : Env) : Env :=
  {| env_translator_new := env_translator_new env;
     env_translate := env_translate env;
     env_mkdir := env_mkdir env;
     env_mic_open := env_mic_open env;
     env_adjust := env_adjust env;
     env_listen := env_listen env;
     env_recognize := recognize;
     env_sleep_interrupted := env_sleep_interrupted env;
     env_save := env_save env;
     env_play := env_play env;
     env_time := env_time env;
     env_unlink := env_unlink env;
     env_md5 := env_md5 env |}.

(** Nobody speaks: every [listen] times out. *)
Definition silence : Env :=
  with_listen (fun _ => Raise WaitTimeoutError) calm_env.

(** The recogniser always fails with the exception [e]. *)
Definition recogniser_raises (e : exn) : Env :=
  with_recognize (fun _ _ _ => Raise e) calm_env.

(** A call of [unlink]. *)
Definition unlink_event (e : event) : Prop :=
  match e with EvUnlink _ _ => True | _ => False end.

(** The events of [__init__] and of the error report of [main]. *)
Definition init_event (e : event) : Prop :=
  match e with
  | EvPrint _ | EvTranslatorNew _ _ _ | EvTranslate _ _ | EvMkdir _ => True
  | _ => False
  end.

(** The session starts by opening the microphone. *)
Definition is_mic_open (e : event) : bool :=
  match e with EvMicOpen _ => true | _ => false end.

Definition with_mkdir (mkdir : nat -> outcome unit) (env : Env) : Env :=
  {| env_translator_new := env_translator_new env;
     env_translate := env_translate env;
     env_mkdir := mkdir;
     env_mic_open := env_mic_open env;
     env_adjust := env_adjust env;
     env_listen := env_listen env;
     env_recognize := env_recognize env;
     env_sleep_interrupted := env_sleep_interrupted env;
     env_save := env_save env;
     env_play := env_play env;
     env_time := env_time env;
     env_unlink := env_unlink env;
     env_md5 := env_md5 env |}.

Definition with_translate (translate : nat -> string -> outcome string)
    (env : Env) : Env :=
  {| env_translator_new := env_translator_new env;
     env_translate := translate;
     env_mkdir := env_mkdir env;
     env_mic_open := env_mic_open env;
     env_adjust := env_adjust env;
     env_listen := env_listen env;
     env_recognize := env_recognize env;
     env_sleep_interrupted := env_sleep_interrupted env;
     env_save := env_save env;
     env_play := env_play env;
     env_time := env_time env;
     env_unlink := env_unlink env;
     env_md5 := env_md5 env |}.

(** [translation_cache] exists as a regular file: [mkdir] raises
    [FileExistsError]; the translator works. *)
Definition cache_dir_blocked : Env :=
  with_mkdir (fun _ => Raise (OtherException "FileExistsError")) calm_env.

(** The language pair is not supported: the probe translation fails. *)
Definition unsupported_pair : Env :=
  with_translate (fun _ _ => Raise (OtherException "LanguageNotSupported"))
                 calm_env.

(** ** The translation cache during a session *)

(** A call of the translation engine for [text]. *)
Definition is_translate_of (text : string) (e : event) : bool :=
  match e with
  | EvTranslate t _ => bool_decide (t = text)
  | _ => false
  end.

(** A call of the translation engine for [text] that returns a
    translation. *)
Definition is_translation_of (text : string) (e : event) : bool :=
  match e with
  | EvTranslate t (Ok _) => bool_decide (t = text)
  | _ => false
  end.

(** An invocation of the synthesis engine for the file [path]. *)
Definition is_save_at (path : string) (e : event) : bool :=
  match e with
  | EvSave _ _ p _ => bool_decide (p = path)
  | _ => false
  end.

(** An invocation of the synthesis engine that writes the file [path]. *)
Definition is_saved_at (path : string) (e : event) : bool :=
  match e with
  | EvSave _ _ p Saved => bool_decide (p = path)
  | _ => false
  end.

(** [keeps I]: a property of the state that holds before holds after. *)
Definition keeps (I : State -> Prop) : relation State :=
  fun st st' => I st -> I st'.

(** What holds of the translations between the state [st0] in which the
    session starts and a later state [st]: no key of the cache is lost;
    the engine was not called for a text that was cached at the start; it
    has returned a translation at most once for any text, and never for a
    text that is not in the cache. *)
Definition translations_inv (st0 st : State) : Prop :=
  exists l,
    log st = log st0 ++ l /\
    (forall t, t ∈ (translation_cache st0).*1 ->
               t ∈ (translation_cache st).*1) /\
    forall t,
      (t ∈ (translation_cache st0).*1 ->
       count_events (is_translate_of t) l = 0%nat) /\
      (t ∉ (translation_cache st).*1 ->
       count_events (is_translation_of t) l = 0%nat) /\
      (count_events (is_translation_of t) l <= 1)%nat.

(** The same for the synthesized files, while no file is deleted. *)
Definition syntheses_inv (st0 st : State) : Prop :=
  exists l,
    log st = log st0 ++ l /\
    (forall p, is_Some (cache_dir_files st0 !! p) ->
               is_Some (cache_dir_files st !! p)) /\
    forall p,
      (is_Some (cache_dir_files st0 !! p) ->
       count_events (is_save_at p) l = 0%nat) /\
      (cache_dir_files st !! p = None ->
       count_events (is_saved_at p) l = 0%nat) /\
      (count_events (is_saved_at p) l <= 1)%nat.

(** What remains of it once files may have been deleted. *)
Definition syntheses_ok (st0 st : State) : Prop :=
  exists l,
    log st = log st0 ++ l /\
    forall p,
      (is_Some (cache_dir_files st0 !! p) ->
       count_events (is_save_at p) l = 0%nat) /\
      (count_events (is_saved_at p) l <= 1)%nat.

(** The translator fails until the log holds [n] events. *)
Definition translator_fails_before (n : nat) : Env :=
  with_translate (fun k _ => if (k <? n)%nat
                             then Raise (OtherException "timed out")
                             else Ok "bonjour")
                 calm_env.

Definition with_save
    (save : nat -> string -> string -> string -> save_result) (env : Env)
  : Env :=
  {| env_translator_new := env_translator_new env;
     env_translate := env_translate env;
     env_mkdir := env_mkdir env;
     env_mic_open := env_mic_open env;
     env_adjust := env_adjust env;
     env_listen := env_listen env;
     env_recognize := env_recognize env;
     env_sleep_interrupted := env_sleep_interrupted env;
     env_save := save;
     env_play := env_play env;
     env_time := env_time env;
     env_unlink := env_unlink env;
     env_md5 := env_md5 env |}.

(** The synthesis fails, leaving no file, until the log holds [n]
    events. *)
Definition synthesis_fails_before (n : nat) : Env :=
  with_save (fun k _ _ _ => if (k <? n)%nat
                            then SaveFailed (OtherException "tts error") false
                            else Saved)
            calm_env.

(** A session that has already translated ["hello"]. *)
Definition hello_cached : State :=
  {| translation_cache := [("hello", "bonjour")];
     cache_dir_files := ∅;
     log := [] |}.

(** A cache directory that holds the artifact of ["bonjour"] from an
    earlier run. *)
Definition bonjour_on_disk : State :=
  {| translation_cache := [];
     cache_dir_files := {[ "audio_fr_bonjour.mp3" := 12345 ]};
     log := [] |}.

(** [n] letters: a different phrase for every [n]. *)
Fixpoint phrase (n : nat) : string :=
  match n with
  | O => EmptyString
  | S k => String (Ascii.ascii_of_nat 97) (phrase k)
  end.

(** A speaker who never says the same phrase twice: the recogniser
    returns a new text in every pass; everything works. *)
Definition chatty : Env :=
  with_recognize (fun n _ _ => Ok (phrase n)) calm_env.

(** Every key of the cache is a phrase that was recognised earlier. *)
Definition keys_are_older_phrases (st : State) : Prop :=
  forall k, k ∈ (translation_cache st).*1 ->
            exists j, (j < tick st)%nat /\ k = phrase j.

(** * main: the language prompts *)

(** The table [languages] of [main], in the order it is written. *)
Definition languages : dict :=
  [("en", "English (English)");
   ("fr", "French (Français)");
   ("es", "Spanish (Español)");
   ("de", "German (Deutsch)");
   ("it", "Italian (Italiano)");
   ("pt", "Portuguese (Português)");
   ("ru", "Russian (Русский)");
   ("ja", "Japanese (日本語)");
   ("ko", "Korean (한국어)");
   ("zh", "Chinese (中文)")].

(** What is known of a prompt after the lines typed so far: a code was
    accepted, or the prompt is still asking.  [rejected] lists the codes
    that were turned down, one "Invalid language code" message each;
    [rest] is what remains of the typed lines. *)
Inductive prompt_result : Type :=
| Chosen (lang : string) (rejected : list string) (rest : list string)
| Prompting (rejected : list string).

Section Prompts.

(** [str.lower] *)
Variable lower : string -> string.

(** [input(prompt).lower() or default] *)
Definition typed_code (default answer : string) : string :=
  if decide (lower answer = "") then default else lower answer.

(** [get_language_input(prompt, default)] of [main], fed with the lines
    the user types. *)
Fixpoint get_language_input (default : string) (answers : list string)
  : prompt_result :=
  match answers with
  | [] => Prompting []
  | answer :: rest =>
      let lang := typed_code default answer in
      if dict_contains lang languages
      then Chosen lang [] rest
      else
        match get_language_input default rest with
        | Chosen l rejected rest' => Chosen l (lang :: rejected) rest'
        | Prompting rejected => Prompting (lang :: rejected)
        end
  end.

(** Lines 168-171: both prompts, then the names looked up for the
    banner; [None] while a prompt is still asking, [KeyError] if a name
    were missing. *)
Definition choose_languages (answers : list string)
  : option (outcome (string * string * (string * string))) :=
  match get_language_input "en" answers with
  | Prompting _ => None
  | Chosen source_lang _ rest =>
      match get_language_input "fr" rest with
      | Prompting _ => None
      | Chosen target_lang _ _ =>
          Some
            match dict_get source_lang languages,
                  dict_get target_lang languages with
            | Some source_name, Some target_name =>
                Ok (source_lang, target_lang, (source_name, target_name))
            | None, _ => Raise (KeyError source_lang)
            | _, None => Raise (KeyError target_lang)
            end
      end
  end.

End Prompts.

(** [str.lower] on the letters A-Z; the other characters are kept. *)
Definition lower_char (c : Ascii.ascii) : Ascii.ascii :=
  let n := Ascii.nat_of_ascii c in
  if ((65 <=? n) && (n <=? 90))%nat then Ascii.ascii_of_nat (n + 32) else c.

Fixpoint lower_ascii (s : string) : string :=
  match s with
  | EmptyString => EmptyString
  | String c r => String (lower_char c) (lower_ascii r)
  end.

(** * Auxiliary definitions for the further properties *)

(** The entry that a call of the translator adds to the cache. *)
Definition translation_result (e : event) : option (string * string) :=
  match e with
  | EvTranslate text (Ok translation) => Some (text, translation)
  | _ => None
  end.

(** The translations returned in a run, in the order of the calls. *)
Definition translations_of (l : list event) : dict :=
  omap translation_result l.

(** The cache has grown by the translations returned meanwhile, and has
    kept its keys distinct if they were. *)
Definition cache_extended : relation State :=
  fun st st' =>
    exists l,
      log st' = log st ++ l /\
      translation_cache st' = translation_cache st ++ translations_of l /\
      (NoDup (translation_cache st).*1 -> NoDup (translation_cache st').*1).

(** The events that [listen_and_translate] emits itself, outside
    [lookup_or_translate], [text_to_speech] and [cleanup]. *)
Definition quiet_event (e : event) : Prop :=
  match e with
  | EvListen _ _ _ | EvRecognize _ _ _ | EvSleep _ _ | EvPrint _
  | EvMicOpen _ | EvMicClose | EvAdjust _ _ => True
  | _ => False
  end.

(** No file was deleted and none was written again. *)
Definition files_kept : relation State :=
  fun st st' =>
    forall p m, cache_dir_files st !! p = Some m ->
                cache_dir_files st' !! p = Some m.

(** No file other than [path] was touched. *)
Definition files_kept_except (path : string) : relation State :=
  fun st st' =>
    forall p, p <> path -> cache_dir_files st' !! p = cache_dir_files st !! p.

(** Files were kept, and whatever was played meanwhile is a file of the
    cache directory. *)
Definition plays_existing : relation State :=
  fun st st' =>
    exists l,
      log st' = log st ++ l /\
      files_kept st st' /\
      forall p o, EvPlay p o ∈ l -> is_Some (cache_dir_files st' !! p).

(** The events between the opening and the closing of the microphone. *)
Definition body_event (e : event) : Prop :=
  calibration_event e \/ loop_event e.

Definition is_mic_close (e : event) : bool :=
  match e with EvMicClose => true | _ => false end.

Definition with_mic_open (mic_open : nat -> outcome unit) (env : Env) : Env :=
  {| env_translator_new := env_translator_new env;
     env_translate := env_translate env;
     env_mkdir := env_mkdir env;
     env_mic_open := mic_open;
     env_adjust := env_adjust env;
     env_listen := env_listen env;
     env_recognize := env_recognize env;
     env_sleep_interrupted := env_sleep_interrupted env;
     env_save := env_save env;
     env_play := env_play env;
     env_time := env_time env;
     env_unlink := env_unlink env;
     env_md5 := env_md5 env |}.

(** No microphone is plugged in. *)
Definition no_microphone : Env :=
  with_mic_open (fun _ => Raise (OtherException "No Default Input Device"))
                calm_env.



(** The synthesis fails and leaves a file behind until the log holds
    [n] events. *)
Definition synthesis_leaves_file_before (n : nat) : Env :=
  with_save (fun k _ _ _ => if (k <? n)%nat
                            then SaveFailed (OtherException "tts error") true
                            else Saved)
            calm_env.

(** The events of [text_to_speech] when the audio file of its text is
    [path]. *)
Definition speech_event (path : string) (e : event) : Prop :=
  match e with
  | EvSleep _ _ | EvPrint _ => True
  | EvExists p _ | EvSave _ _ p _ | EvPlay p _ => p = path
  | _ => False
  end.

(** An invocation of the synthesis engine after which [path] is a file,
    whether the engine reported success or not. *)
Definition is_written_at (path : string) (e : event) : bool :=
  match e with
  | EvSave _ _ p Saved | EvSave _ _ p (SaveFailed _ true) =>
      bool_decide (p = path)
  | _ => false
  end.

(** Between [st0] and [st] no path was written twice, and none that is
    not a file now. *)
Definition written_inv (st0 st : State) : Prop :=
  exists l,
    log st = log st0 ++ l /\
    forall p,
      (cache_dir_files st !! p = None ->
       count_events (is_written_at p) l = 0%nat) /\
      (count_events (is_written_at p) l <= 1)%nat.

(** A modification time that the clock of [env] never leaves more than
    24 hours behind. *)
Definition young (env : Env) (mtime : Z) : Prop :=
  forall j, env_time env j - mtime <= 86400.

(** The young files were kept, and whatever was synthesized meanwhile is a
    young file of the cache directory. *)
Definition audio_kept (env : Env) : relation State :=
  fun st st' =>
    exists l,
      log st' = log st ++ l /\
      (forall p m, cache_dir_files st !! p = Some m -> young env m ->
                   cache_dir_files st' !! p = Some m) /\
      (forall text lang p,
         EvSave text lang p Saved ∈ l ->
         exists m, cache_dir_files st' !! p = Some m /\ young env m).

(** The clock stays at noon and Ctrl-C is pressed once the log holds
    [n] events. *)
Definition short_session (n : nat) : Env := interrupted_after n noon_env.

Definition is_translate (e : event) : bool :=
  match e with EvTranslate _ _ => true | _ => false end.

Definition is_half_second_sleep (e : event) : bool :=
  match e with EvSleep 500 _ => true | _ => false end.

(** No more calls of the translator than pauses of half a second. *)
Definition throttled : relation State :=
  fun st st' =>
    exists l,
      log st' = log st ++ l /\
      (count_events is_translate l
       <= count_events is_half_second_sleep l)%nat.
(** * Properties *)

(** ** Dictionaries *)

Lemma dict_contains_spec (k : string) (d : dict) :
  dict_contains k d = true <-> k ∈ d.*1.
Proof. unfold dict_contains. apply bool_decide_eq_true. Qed.

Lemma dict_contains_false (k : string) (d : dict) :
  dict_contains k d = false <-> k ∉ d.*1.
Proof. unfold dict_contains. apply bool_decide_eq_false. Qed.

Lemma dict_set_fresh (k v : string) (d : dict) :
  k ∉ d.*1 -> dict_set k v d = d ++ [(k, v)].
Proof.
  induction d as [|[k' v'] r IH]; simpl; intros Hk; [done|].
  apply not_elem_of_cons in Hk as [Hne Hr].
  destruct (decide (k = k')) as [->|_]; [done|].
  by rewrite IH.
Qed.

Lemma dict_set_keys (k v : string) (d : dict) (x : string) :
  x ∈ (dict_set k v d).*1 <-> x = k \/ x ∈ d.*1.
Proof.
  induction d as [|[k' v'] r IH]; simpl.
  - rewrite list_elem_of_singleton, elem_of_nil. tauto.
  - destruct (decide (k = k')) as [->|Hne]; simpl.
    + rewrite !elem_of_cons. tauto.
    + rewrite !elem_of_cons, IH. tauto.
Qed.

Lemma dict_get_set_eq (k v : string) (d : dict) :
  dict_get k (dict_set k v d) = Some v.
Proof.
  induction d as [|[k' v'] r IH]; simpl.
  - by rewrite decide_True.
  - destruct (decide (k = k')) as [->|Hne]; simpl.
    + by rewrite decide_True.
    + by rewrite decide_False.
Qed.

Lemma dict_get_is_Some (k : string) (d : dict) :
  k ∈ d.*1 -> is_Some (dict_get k d).
Proof.
  induction d as [|[k' v'] r IH]; simpl; intros Hk.
  - by apply elem_of_nil in Hk.
  - destruct (decide (k = k')); [by eexists|].
    apply elem_of_cons in Hk as [?|?]; [done|auto].
Qed.

Lemma dict_insert_all_fresh (entries : list (string * string)) :
  forall d : dict,
    NoDup entries.*1 ->
    (forall k, k ∈ entries.*1 -> k ∉ d.*1) ->
    dict_insert_all entries d = d ++ entries.
Proof.
  induction entries as [|[k v] r IH]; simpl; intros d Hnd Hfresh.
  - by rewrite app_nil_r.
  - apply NoDup_cons in Hnd as [Hk Hr].
    unfold dict_insert_all in *. simpl.
    rewrite dict_set_fresh by (apply Hfresh; left).
    rewrite IH; [by rewrite <- app_assoc|done|].
    intros x Hx. rewrite fmap_app, elem_of_app. simpl.
    rewrite list_elem_of_singleton.
    intros [Hd| ->]; [|done].
    by apply (Hfresh x); [right|].
Qed.

(** ** manage_cache *)

Lemma pop_oldest_loop {A} (l : list A) :
  forall st : State,
    (length l <= length (translation_cache st))%nat ->
    for_each l (fun _ => pop_oldest) st =
      (Val tt, set_cache (drop (length l) (translation_cache st)) st).
Proof.
  induction l as [|x r IH]; intros st Hlen; simpl.
  - unfold ret. by destruct st.
  - unfold bind. unfold pop_oldest at 1.
    destruct st as [c f lg]. simpl in *.
    destruct c as [|[k v] c']; simpl in *; [lia|].
    rewrite decide_True by done.
    rewrite IH by (simpl; lia). done.
Qed.

Lemma length_range (n : Z) : length (range n) = Z.to_nat n.
Proof. unfold range. by rewrite length_fmap, length_seq. Qed.

(** What one call does, in every case. *)
Lemma manage_cache_spec (max_cache_size : Z) (st : State) :
  manage_cache max_cache_size st =
    (Val tt,
     set_cache
       (if len (translation_cache st) >? max_cache_size
        then drop (Z.to_nat (int_mul_0_2 max_cache_size))
                  (translation_cache st)
        else translation_cache st)
       st).
Proof.
  unfold manage_cache, bind, get_state. simpl.
  destruct (len (translation_cache st) >? max_cache_size) eqn:Hgt.
  - rewrite pop_oldest_loop; rewrite length_range; [done|].
    apply Z.gtb_lt in Hgt. unfold len, int_mul_0_2 in *.
    destruct (Z_lt_le_dec max_cache_size 0) as [Hneg|Hpos].
    + rewrite Z2Nat.nonpos; [lia|].
      apply Z.quot_le_upper_bound; lia.
    + pose proof (Z.quot_le_upper_bound max_cache_size 5 max_cache_size).
      pose proof (Z.quot_pos max_cache_size 5). lia.
  - unfold ret. by destruct st.
Qed.

Lemma to_nat_fifth (n : Z) : Z.to_nat (int_mul_0_2 n) = Z.to_nat (n / 5).
Proof.
  unfold int_mul_0_2.
  destruct (Z_lt_le_dec n 0) as [Hneg|Hpos].
  - rewrite !Z2Nat.nonpos; [done| |].
    + apply Z.lt_le_incl, Z.div_lt_upper_bound; lia.
    + apply Z.quot_le_upper_bound; lia.
  - by rewrite Z.quot_div_nonneg by lia.
Qed.

(** C3 (as amended).  One call of [manage_cache] never fails and touches
    nothing but the translation cache.  When the cache holds more than
    [max_cache_size] entries it removes the [floor(max_cache_size / 5)]
    entries that were inserted first (a fifth of [max_cache_size], whatever
    the number of entries), and keeps the others in their order; when the
    cache does not exceed [max_cache_size] it removes nothing.  With
    [max_cache_size = 10] and 11 distinct entries inserted one after the
    other, the 2 oldest are removed and the 9 most recent remain. *)
Theorem manage_cache_evicts_oldest :
  (forall (max_cache_size : Z) (st : State),
     (manage_cache max_cache_size st).1 = Val tt /\
     cache_dir_files (manage_cache max_cache_size st).2 = cache_dir_files st /\
     log (manage_cache max_cache_size st).2 = log st /\
     (len (translation_cache st) > max_cache_size ->
      translation_cache (manage_cache max_cache_size st).2 =
        drop (Z.to_nat (max_cache_size / 5)) (translation_cache st)) /\
     (len (translation_cache st) <= max_cache_size ->
      translation_cache (manage_cache max_cache_size st).2 =
        translation_cache st)) /\
  (forall (entries : list (string * string)) (st : State),
     NoDup entries.*1 ->
     length entries = 11%nat ->
     translation_cache st = dict_insert_all entries [] ->
     translation_cache (manage_cache 10 st).2 = drop 2 entries /\
     length (translation_cache (manage_cache 10 st).2) = 9%nat).
Proof.
  split.
  - intros max_cache_size st. rewrite manage_cache_spec. simpl.
    repeat split.
    + intros Hgt. apply Z.gt_lt, Z.gtb_lt in Hgt. rewrite Hgt.
      by rewrite to_nat_fifth.
    + intros Hle.
      destruct (len (translation_cache st) >? max_cache_size) eqn:Hgt;
        [|done].
      apply Z.gtb_lt in Hgt. lia.
  - intros entries st Hnd Hlen Hc.
    rewrite dict_insert_all_fresh in Hc;
      [|done|intros k _; apply not_elem_of_nil].
    simpl in Hc. rewrite manage_cache_spec. simpl. rewrite Hc.
    unfold len. rewrite Hlen. simpl.
    change (Z.to_nat (int_mul_0_2 10)) with 2%nat.
    split; [done|]. rewrite length_drop. lia.
Qed.

Lemma manage_cache_evicts_oldest_witness :
  (len (letter_entries 11) > 10 /\
   translation_cache (manage_cache 10 (state_of_cache (letter_entries 11))).2 =
     drop (Z.to_nat (10 / 5)) (letter_entries 11)) /\
  (len (letter_entries 3) <= 10 /\
   translation_cache (manage_cache 10 (state_of_cache (letter_entries 3))).2 =
     letter_entries 3) /\
  (NoDup (letter_entries 11).*1 /\
   length (letter_entries 11) = 11%nat /\
   letter_entries 11 = dict_insert_all (letter_entries 11) [] /\
   translation_cache (manage_cache 10 (state_of_cache (letter_entries 11))).2 =
     drop 2 (letter_entries 11) /\
   length
     (translation_cache (manage_cache 10 (state_of_cache (letter_entries 11))).2)
     = 9%nat).
Proof.
  assert (Hgt : len (letter_entries 11) > 10) by (vm_compute; reflexivity).
  assert (Hle : len (letter_entries 3) <= 10)
    by (vm_compute; intros H; discriminate H).
  assert (Hnd : NoDup (letter_entries 11).*1)
    by (apply (bool_decide_unpack _); vm_compute; exact I).
  assert (Hlen : length (letter_entries 11) = 11%nat) by reflexivity.
  assert (Hc : translation_cache (state_of_cache (letter_entries 11)) =
               dict_insert_all (letter_entries 11) [])
    by (vm_compute; reflexivity).
  split; [split; [exact Hgt|]|split; [split; [exact Hle|]|]].
  - exact (proj1 (proj2 (proj2 (proj2
      (proj1 manage_cache_evicts_oldest 10
         (state_of_cache (letter_entries 11)))))) Hgt).
  - exact (proj2 (proj2 (proj2 (proj2
      (proj1 manage_cache_evicts_oldest 10
         (state_of_cache (letter_entries 3)))))) Hle).
  - split; [exact Hnd|]. split; [exact Hlen|]. split; [exact Hc|].
    exact (proj2 manage_cache_evicts_oldest (letter_entries 11)
             (state_of_cache (letter_entries 11)) Hnd Hlen Hc).
Defined.

(** C3, counterexample.  With [max_cache_size = 10] and 20 entries, a
    fifth of the entries is 4, and the call removes 2: 18 entries remain
    where 16 would. *)
Lemma manage_cache_not_fifth_of_entries :
  length (translation_cache
            (manage_cache 10 (state_of_cache (letter_entries 20))).2)
    = 18%nat /\
  length (evict_fifth_of_entries 10 (letter_entries 20)) = 16%nat /\
  translation_cache (manage_cache 10 (state_of_cache (letter_entries 20))).2
    <> evict_fifth_of_entries 10 (letter_entries 20).
Proof.
  split; [vm_compute; reflexivity|].
  split; [vm_compute; reflexivity|].
  intros H. apply (f_equal length) in H. vm_compute in H. discriminate H.
Qed.

(** C10.  For a cache with more than [max_cache_size] entries, one call
    removes exactly the [floor(max_cache_size / 5)] oldest entries (none
    when that number is negative): the count comes from [max_cache_size],
    not from the number of entries.  So a cache that exceeds
    [max_cache_size] by more than that amount is still above
    [max_cache_size] afterwards, and for [max_cache_size < 5] the call
    changes nothing at all. *)
Theorem manage_cache_count_from_max :
  (forall (max_cache_size : Z) (st : State),
     len (translation_cache st) > max_cache_size ->
     (manage_cache max_cache_size st).1 = Val tt /\
     translation_cache (manage_cache max_cache_size st).2 =
       drop (Z.to_nat (max_cache_size / 5)) (translation_cache st) /\
     len (translation_cache st)
       - len (translation_cache (manage_cache max_cache_size st).2)
       = Z.max 0 (max_cache_size / 5) /\
     (len (translation_cache st) - max_cache_size > max_cache_size / 5 ->
      len (translation_cache (manage_cache max_cache_size st).2)
        > max_cache_size)) /\
  (forall (max_cache_size : Z) (st : State),
     max_cache_size < 5 ->
     manage_cache max_cache_size st = (Val tt, st)).
Proof.
  split.
  - intros max_cache_size st Hgt.
    assert (Hlen : len (translation_cache (manage_cache max_cache_size st).2)
                   = len (translation_cache st) - Z.max 0 (max_cache_size / 5)).
    { rewrite manage_cache_spec. simpl.
      apply Z.gt_lt, Z.gtb_lt in Hgt as Hb. rewrite Hb.
      unfold len in *. rewrite length_drop, to_nat_fifth.
      assert (max_cache_size / 5 <= max_cache_size \/ max_cache_size < 0)
        as [?|?]; [|lia|].
      - destruct (Z_lt_le_dec max_cache_size 0); [by right|left].
        apply Z.div_le_upper_bound; lia.
      - assert (max_cache_size / 5 < 0)
          by (apply Z.div_lt_upper_bound; lia).
        lia. }
    rewrite Hlen. rewrite manage_cache_spec. simpl.
    apply Z.gt_lt, Z.gtb_lt in Hgt as Hb. rewrite Hb.
    repeat split; [by rewrite to_nat_fifth|lia|].
    intros Hmore.
    destruct (Z_lt_le_dec max_cache_size 0); [|lia].
    assert (max_cache_size / 5 < 0) by (apply Z.div_lt_upper_bound; lia).
    lia.
  - intros max_cache_size st Hsmall. rewrite manage_cache_spec.
    f_equal. destruct st as [c f lg]. unfold set_cache. simpl. f_equal.
    destruct (len c >? max_cache_size); [|done].
    rewrite to_nat_fifth.
    replace (Z.to_nat (max_cache_size / 5)) with 0%nat; [done|].
    assert (max_cache_size / 5 <= 0); [|lia].
    apply Z.lt_succ_r, Z.div_lt_upper_bound; lia.
Qed.

Lemma manage_cache_count_from_max_witness :
  (len (letter_entries 20) > 10 /\
   len (letter_entries 20)
     - len (translation_cache
              (manage_cache 10 (state_of_cache (letter_entries 20))).2)
     = Z.max 0 (10 / 5) /\
   len (letter_entries 20) - 10 > 10 / 5 /\
   len (translation_cache
          (manage_cache 10 (state_of_cache (letter_entries 20))).2) > 10) /\
  (4 < 5 /\
   manage_cache 4 (state_of_cache (letter_entries 6))
     = (Val tt, state_of_cache (letter_entries 6))).
Proof.
  assert (Hgt : len (translation_cache (state_of_cache (letter_entries 20)))
                > 10) by (vm_compute; reflexivity).
  assert (Hmore : len (translation_cache (state_of_cache (letter_entries 20)))
                  - 10 > 10 / 5) by (vm_compute; reflexivity).
  assert (Hsmall : 4 < 5) by lia.
  pose proof (proj1 manage_cache_count_from_max 10
                (state_of_cache (letter_entries 20)) Hgt)
    as (_ & _ & Hcount & Habove).
  split.
  - split; [exact Hgt|]. split; [exact Hcount|].
    split; [exact Hmore|]. exact (Habove Hmore).
  - split; [exact Hsmall|].
    exact (proj2 manage_cache_count_from_max 4
             (state_of_cache (letter_entries 6)) Hsmall).
Defined.

(** ** Reasoning about computations *)

Section Effect.
Context (R : relation State) `{!PreOrder R}.

Lemma effect_ret {A} (a : A) : effect (ret a) R.
Proof. intros st. simpl. reflexivity. Qed.

Lemma effect_raise {A} (e : exn) : effect (@raise A e) R.
Proof. intros st. simpl. reflexivity. Qed.

Lemma effect_running {A} : effect (@running A) R.
Proof. intros st. simpl. reflexivity. Qed.

Lemma effect_get_state : effect get_state R.
Proof. intros st. simpl. reflexivity. Qed.

Lemma effect_bind {A B} (m : M A) (f : A -> M B) :
  effect m R -> (forall a, effect (f a) R) -> effect (bind m f) R.
Proof.
  intros Hm Hf st. unfold bind. specialize (Hm st).
  destruct (m st) as [[a|e|] st']; simpl in *; [|done..].
  by etrans; [|apply Hf].
Qed.

Lemma effect_try_except {A} (m : M A) (h : exn -> option (M A)) :
  effect m R ->
  (forall e k, h e = Some k -> effect k R) ->
  effect (try_except m h) R.
Proof.
  intros Hm Hh st. unfold try_except. specialize (Hm st).
  destruct (m st) as [[a|e|] st']; simpl in *; [done| |done].
  destruct (h e) as [k|] eqn:Hk; [|done].
  by etrans; [|apply (Hh e k)].
Qed.

Lemma effect_finally {A} (m : M A) (f : M unit) :
  effect m R -> effect f R -> effect (finally m f) R.
Proof.
  intros Hm Hf st. unfold finally. specialize (Hm st).
  destruct (m st) as [[a|e|] st']; simpl in *; [| |done];
    specialize (Hf st'); destruct (f st') as [[[]|e'|] st'']; simpl in *;
    by etrans.
Qed.

Lemma effect_for_each {A} (l : list A) (body : A -> M unit) :
  (forall x, effect (body x) R) -> effect (for_each l body) R.
Proof.
  intros Hb. induction l as [|x r IH]; simpl.
  - apply effect_ret.
  - apply effect_bind; [apply Hb|done].
Qed.

Lemma effect_if {A} (b : bool) (m1 m2 : M A) :
  effect m1 R -> effect m2 R -> effect (if b then m1 else m2) R.
Proof. by destruct b. Qed.

Lemma effect_call {A} (answer : nat -> outcome A)
    (ev : outcome A -> event) :
  (forall o st, R st (emit (ev o) st)) -> effect (call answer ev) R.
Proof.
  intros He st. unfold call. destruct (answer (tick st)); simpl; apply He.
Qed.

Lemma effect_print (msg : message) :
  (forall st, R st (emit (EvPrint msg) st)) -> effect (print msg) R.
Proof. intros He st. apply He. Qed.
End Effect.

Lemma halts_ret {A} (a : A) : halts (ret a).
Proof. by intros st. Qed.

Lemma halts_raise {A} (e : exn) : halts (@raise A e).
Proof. by intros st. Qed.

Lemma halts_bind {A B} (m : M A) (f : A -> M B) :
  halts m -> (forall a, halts (f a)) -> halts (bind m f).
Proof.
  intros Hm Hf st. unfold bind. specialize (Hm st).
  destruct (m st) as [[a|e|] st']; simpl in *; [apply Hf|done..].
Qed.

Lemma halts_try_except {A} (m : M A) (h : exn -> option (M A)) :
  halts m -> (forall e k, h e = Some k -> halts k) ->
  halts (try_except m h).
Proof.
  intros Hm Hh st. unfold try_except. specialize (Hm st).
  destruct (m st) as [[a|e|] st']; simpl in *; [done| |done].
  destruct (h e) as [k|] eqn:Hk; [by apply (Hh e k)|done].
Qed.

Lemma halts_finally {A} (m : M A) (f : M unit) :
  halts m -> halts f -> halts (finally m f).
Proof.
  intros Hm Hf st. unfold finally. specialize (Hm st).
  destruct (m st) as [[a|e|] st']; simpl in *; [| |done];
    specialize (Hf st'); by destruct (f st') as [[[]|e'|] st''].
Qed.

Lemma halts_for_each {A} (l : list A) (body : A -> M unit) :
  (forall x, halts (body x)) -> halts (for_each l body).
Proof.
  intros Hb. induction l as [|x r IH]; simpl.
  - apply halts_ret.
  - apply halts_bind; [apply Hb|done].
Qed.

Lemma halts_if {A} (b : bool) (m1 m2 : M A) :
  halts m1 -> halts m2 -> halts (if b then m1 else m2).
Proof. by destruct b. Qed.

Lemma halts_call {A} (answer : nat -> outcome A) (ev : outcome A -> event) :
  halts (call answer ev).
Proof. intros st. unfold call. by destruct (answer (tick st)). Qed.

Lemma halts_print (msg : message) : halts (print msg).
Proof. by intros st. Qed.

Lemma raises_only_ret {A} (a : A) (C : exn -> Prop) : raises_only (ret a) C.
Proof. by intros st e. Qed.

Lemma raises_only_print (msg : message) (C : exn -> Prop) :
  raises_only (print msg) C.
Proof. by intros st e. Qed.

Lemma raises_only_bind {A B} (m : M A) (f : A -> M B) (C : exn -> Prop) :
  raises_only m C -> (forall a, raises_only (f a) C) ->
  raises_only (bind m f) C.
Proof.
  intros Hm Hf st e. unfold bind. specialize (Hm st).
  destruct (m st) as [[a|e'|] st']; simpl in *; [apply Hf| |done].
  intros [= ->]. by apply Hm.
Qed.

Lemma raises_only_try_except {A} (m : M A) (h : exn -> option (M A))
    (C : exn -> Prop) :
  (forall e, match h e with
             | Some k => raises_only k C
             | None => C e
             end) ->
  raises_only (try_except m h) C.
Proof.
  intros Hh st e. unfold try_except.
  destruct (m st) as [[a|e'|] st']; simpl in *; [done| |done].
  specialize (Hh e'). destruct (h e') as [k|]; [apply Hh|].
  by intros [= <-].
Qed.

Lemma raises_only_finally {A} (m : M A) (f : M unit) (C : exn -> Prop) :
  raises_only m C -> raises_only f C -> raises_only (finally m f) C.
Proof.
  intros Hm Hf st e. unfold finally. specialize (Hm st).
  destruct (m st) as [[a|e'|] st']; simpl in *; [| |done];
    specialize (Hf st'); destruct (f st') as [[[]|e''|] st'']; simpl in *;
    try done; intros [= ->]; auto.
Qed.

Lemma raises_only_for_each {A} (l : list A) (body : A -> M unit)
    (C : exn -> Prop) :
  (forall x, raises_only (body x) C) -> raises_only (for_each l body) C.
Proof.
  intros Hb. induction l as [|x r IH]; simpl.
  - apply raises_only_ret.
  - apply raises_only_bind; [apply Hb|done].
Qed.

Lemma raises_only_weaken {A} (m : M A) (C D : exn -> Prop) :
  (forall e, C e -> D e) -> raises_only m C -> raises_only m D.
Proof. intros HCD Hm st e He. apply HCD, (Hm st e He). Qed.

(** ** The event log *)

#[local] Instance emits_preorder (P : event -> Prop) : PreOrder (emits P).
Proof.
  split.
  - intros st. exists []. by rewrite app_nil_r.
  - intros s1 s2 s3 (l1 & H1 & HP1) (l2 & H2 & HP2).
    exists (l1 ++ l2). rewrite H2, H1, <- app_assoc.
    split; [done|]. by apply Forall_app.
Qed.

Lemma emits_emit (P : event -> Prop) (e : event) (st : State) :
  P e -> emits P st (emit e st).
Proof. intros He. exists [e]. split; [done|]. by apply Forall_singleton. Qed.

Lemma emits_same_log (P : event -> Prop) (st st' : State) :
  log st' = log st -> emits P st st'.
Proof. intros H. exists []. by rewrite app_nil_r. Qed.

Lemma emits_weaken (P Q : event -> Prop) (st st' : State) :
  (forall e, P e -> Q e) -> emits P st st' -> emits Q st st'.
Proof.
  intros HPQ (l & Hl & HP). exists l. split; [done|].
  eapply Forall_impl; eauto.
Qed.

Lemma emits_new_events (P : event -> Prop) (st st' : State) :
  emits P st st' ->
  log st' = log st ++ new_events st st' /\ Forall P (new_events st st').
Proof.
  intros (l & Hl & HP). unfold new_events.
  rewrite Hl, drop_app_length. done.
Qed.

#[local] Instance same_cache_preorder : PreOrder same_cache.
Proof.
  split; [done|]. intros s1 s2 s3 H1 H2. unfold same_cache in *. congruence.
Qed.

#[local] Instance same_files_preorder : PreOrder same_files.
Proof.
  split; [done|]. intros s1 s2 s3 H1 H2. unfold same_files in *. congruence.
Qed.

(** ** Stepping through a computation *)

Lemma bind_val {A B} (m : M A) (f : A -> M B) (st s1 : State) (a : A) :
  m st = (Val a, s1) -> bind m f st = f a s1.
Proof. intros H. unfold bind. by rewrite H. Qed.

Lemma bind_exn {A B} (m : M A) (f : A -> M B) (st s1 : State) (e : exn) :
  m st = (Exn e, s1) -> bind m f st = (Exn e, s1).
Proof. intros H. unfold bind. by rewrite H. Qed.

Lemma bind_running {A B} (m : M A) (f : A -> M B) (st s1 : State) :
  m st = (Running, s1) -> bind m f st = (Running, s1).
Proof. intros H. unfold bind. by rewrite H. Qed.

Lemma try_except_val {A} (m : M A) (h : exn -> option (M A))
    (st s1 : State) (a : A) :
  m st = (Val a, s1) -> try_except m h st = (Val a, s1).
Proof. intros H. unfold try_except. by rewrite H. Qed.

Lemma try_except_running {A} (m : M A) (h : exn -> option (M A))
    (st s1 : State) :
  m st = (Running, s1) -> try_except m h st = (Running, s1).
Proof. intros H. unfold try_except. by rewrite H. Qed.

Lemma try_except_caught {A} (m : M A) (h : exn -> option (M A))
    (st s1 : State) (e : exn) (k : M A) :
  m st = (Exn e, s1) -> h e = Some k -> try_except m h st = k s1.
Proof. intros H Hk. unfold try_except. by rewrite H, Hk. Qed.

Lemma try_except_uncaught {A} (m : M A) (h : exn -> option (M A))
    (st s1 : State) (e : exn) :
  m st = (Exn e, s1) -> h e = None -> try_except m h st = (Exn e, s1).
Proof. intros H Hk. unfold try_except. by rewrite H, Hk. Qed.

Lemma finally_running {A} (m : M A) (f : M unit) (st s1 : State) :
  m st = (Running, s1) -> finally m f st = (Running, s1).
Proof. intros H. unfold finally. by rewrite H. Qed.

Lemma finally_done {A} (m : M A) (f : M unit) (st s1 : State) (r : Res A) :
  m st = (r, s1) -> r <> Running ->
  finally m f st =
    match f s1 with
    | (Val _, s2) => (r, s2)
    | (Exn e, s2) => (Exn e, s2)
    | (Running, s2) => (Running, s2)
    end.
Proof. intros H Hr. unfold finally. rewrite H. by destruct r. Qed.

Lemma call_ok {A} (answer : nat -> outcome A) (ev : outcome A -> event)
    (st : State) (a : A) :
  answer (tick st) = Ok a -> call answer ev st = (Val a, emit (ev (Ok a)) st).
Proof. intros H. unfold call. by rewrite H. Qed.

Lemma call_raise {A} (answer : nat -> outcome A) (ev : outcome A -> event)
    (st : State) (e : exn) :
  answer (tick st) = Raise e ->
  call answer ev st = (Exn e, emit (ev (Raise e)) st).
Proof. intros H. unfold call. by rewrite H. Qed.

(** ** Counting *)

Lemma count_events_app (f : event -> bool) (l1 l2 : list event) :
  count_events f (l1 ++ l2) = (count_events f l1 + count_events f l2)%nat.
Proof. induction l1 as [|e r IH]; simpl; [done|]. rewrite IH. lia. Qed.

Lemma count_events_none (f : event -> bool) (l : list event) :
  Forall (fun e => f e = false) l -> count_events f l = 0%nat.
Proof. induction 1 as [|e r He _ IH]; simpl; [done|]. by rewrite He, IH. Qed.

Lemma new_events_app (st st' : State) (l : list event) :
  log st' = log st ++ l -> new_events st st' = l.
Proof. intros H. unfold new_events. by rewrite H, drop_app_length. Qed.

Lemma log_emit (e : event) (st : State) : log (emit e st) = log st ++ [e].
Proof. done. Qed.

Lemma tick_emit (e : event) (st : State) : tick (emit e st) = S (tick st).
Proof. unfold tick, emit. simpl. rewrite length_app. simpl. lia. Qed.

(** ** text_to_speech *)

Section TextToSpeech.
Variable env : Env.
Variable target_lang : string.

Lemma tts_attempt_log (text : string) (st : State) :
  exists l,
    log (tts_attempt env target_lang text st).2 = log st ++ l /\
    attempts_in l = 1%nat /\ sleeps_in l = 0%nat /\
    count_events is_one_second_sleep l = 0%nat /\
    count_events is_tts_failed l = 0%nat.
Proof.
  unfold tts_attempt, bind, file_exists, gtts_save, playsound, call, print.
  simpl.
  destruct (bool_decide _); simpl.
  - destruct (env_play _ _ _); simpl; rewrite <- !app_assoc; simpl;
      eexists; (split; [reflexivity|done]).
  - destruct (env_save _ _ _ _ _) as [|e []]; simpl;
      try destruct (env_play _ _ _); simpl; rewrite <- !app_assoc; simpl;
      eexists; (split; [reflexivity|done]).
Qed.

(** The first successful attempt ends the call. *)
Lemma tts_for_success (text : string) (max_retries attempt : Z)
    (rest : list Z) (st s1 : State) :
  tts_attempt env target_lang text st = (Val tt, s1) ->
  text_to_speech_for env target_lang text max_retries (attempt :: rest) st
    = (Val tt, s1).
Proof.
  intros H. simpl. unfold bind at 1, try_except, bind at 1. by rewrite H.
Qed.

(** Ctrl-C during an attempt is not caught. *)
Lemma tts_for_interrupt (text : string) (max_retries attempt : Z)
    (rest : list Z) (st s1 : State) :
  tts_attempt env target_lang text st = (Exn KeyboardInterrupt, s1) ->
  text_to_speech_for env target_lang text max_retries (attempt :: rest) st
    = (Exn KeyboardInterrupt, s1).
Proof.
  intros H. simpl. unfold bind at 1, try_except, bind at 1. by rewrite H.
Qed.

(** A failed attempt that is not the last one: notice, pause, next. *)
Lemma tts_for_retry (text : string) (max_retries attempt : Z)
    (rest : list Z) (st s1 : State) (e : exn) :
  tts_attempt env target_lang text st = (Exn e, s1) ->
  is_Exception e = true ->
  attempt <> max_retries - 1 ->
  env_sleep_interrupted env (S (tick s1)) = false ->
  text_to_speech_for env target_lang text max_retries (attempt :: rest) st
    = text_to_speech_for env target_lang text max_retries rest
        (retry_notice attempt max_retries s1).
Proof.
  intros H He Hne Hs. simpl.
  unfold bind at 1, try_except, bind at 1. rewrite H.
  unfold on_Exception. rewrite He.
  rewrite decide_False by done.
  unfold bind, print, sleep, call. simpl. rewrite tick_emit, Hs. done.
Qed.

(** A failed attempt that is not the last one, with Ctrl-C during the
    pause. *)
Lemma tts_for_retry_interrupted (text : string) (max_retries attempt : Z)
    (rest : list Z) (st s1 : State) (e : exn) :
  tts_attempt env target_lang text st = (Exn e, s1) ->
  is_Exception e = true ->
  attempt <> max_retries - 1 ->
  env_sleep_interrupted env (S (tick s1)) = true ->
  text_to_speech_for env target_lang text max_retries (attempt :: rest) st
    = (Exn KeyboardInterrupt,
       emit (EvSleep 1000 (Raise KeyboardInterrupt))
            (emit (EvPrint (MsgRetrying (attempt + 2) max_retries)) s1)).
Proof.
  intros H He Hne Hs. simpl.
  unfold bind at 1, try_except, bind at 1. rewrite H.
  unfold on_Exception. rewrite He.
  rewrite decide_False by done.
  unfold bind, print, sleep, call. simpl. rewrite tick_emit, Hs. done.
Qed.

(** The last attempt fails: report, no pause. *)
Lemma tts_for_last (text : string) (max_retries attempt : Z)
    (rest : list Z) (st s1 : State) (e : exn) :
  tts_attempt env target_lang text st = (Exn e, s1) ->
  is_Exception e = true ->
  attempt = max_retries - 1 ->
  text_to_speech_for env target_lang text max_retries (attempt :: rest) st
    = text_to_speech_for env target_lang text max_retries rest
        (failure_report max_retries e s1).
Proof.
  intros H He Heq. simpl.
  unfold bind at 1, try_except, bind at 1. rewrite H.
  unfold on_Exception. rewrite He.
  rewrite decide_True by done. done.
Qed.

Lemma tts_attempt_halts (text : string) :
  halts (tts_attempt env target_lang text).
Proof.
  unfold tts_attempt. apply halts_bind; [by intros st|]. intros present.
  apply halts_bind; [|intros _; apply halts_call].
  apply halts_if; [|apply halts_ret].
  apply halts_bind; [apply halts_print|]. intros _ st.
  unfold gtts_save. by destruct (env_save _ _ _ _ _) as [|e []].
Qed.

Lemma log_retry_notice (attempt max_retries : Z) (st : State) :
  log (retry_notice attempt max_retries st) =
    log st ++ [EvPrint (MsgRetrying (attempt + 2) max_retries);
               EvSleep 1000 (Ok tt)].
Proof. unfold retry_notice. simpl. by rewrite <- app_assoc. Qed.

(** The counts of every run of the loop over the attempts [k .. k+n-1]
    of which the last is attempt [max_retries - 1]. *)
Lemma tts_for_counts (text : string) (max_retries : Z) (n : nat) :
  forall (k : nat) (st : State),
    ((1 <= n)%nat -> max_retries = Z.of_nat (k + n)) ->
    exists l,
      log (text_to_speech_for env target_lang text max_retries
             (Z.of_nat <$> seq k n) st).2 = log st ++ l /\
      (attempts_in l <= n)%nat /\
      ((1 <= n)%nat -> (1 <= attempts_in l)%nat) /\
      sleeps_in l = count_events is_one_second_sleep l /\
      (count_events is_tts_failed l <= 1)%nat /\
      ((text_to_speech_for env target_lang text max_retries
          (Z.of_nat <$> seq k n) st).1 = Val tt \/
       (text_to_speech_for env target_lang text max_retries
          (Z.of_nat <$> seq k n) st).1 = Exn KeyboardInterrupt) /\
      ((text_to_speech_for env target_lang text max_retries
          (Z.of_nat <$> seq k n) st).1 = Val tt ->
       sleeps_in l = pred (attempts_in l)).
Proof.
  induction n as [|n IH]; intros k st Hmax.
  - exists []. simpl. rewrite app_nil_r. repeat split; auto; lia.
  - change (Z.of_nat <$> seq k (S n))
      with (Z.of_nat k :: (Z.of_nat <$> seq (S k) n)).
    destruct (tts_attempt_log text st) as (l1 & Hl1 & Ha1 & Hs1 & Hp1 & Hf1).
    pose proof (tts_attempt_halts text st) as Hhalt.
    destruct (tts_attempt env target_lang text st) as [[[]|e|] s1] eqn:Hatt;
      simpl in Hl1, Hhalt; [| |done].
    + rewrite (tts_for_success _ _ _ _ _ _ Hatt). simpl.
      exists l1. unfold sleeps_in in *. rewrite Ha1, Hs1, Hp1, Hf1.
      repeat split; auto; lia.
    + destruct (is_Exception e) eqn:He.
      2: { destruct e; try discriminate He.
           rewrite (tts_for_interrupt _ _ _ _ _ _ Hatt). simpl.
           exists l1. unfold sleeps_in in *. rewrite Ha1, Hs1, Hp1, Hf1.
           repeat split; auto; try lia; try (intros [=]). }
      destruct (decide (Z.of_nat k = max_retries - 1)) as [Hlast|Hnot].
      * rewrite (tts_for_last _ _ _ _ _ _ _ Hatt He Hlast).
        assert (n = 0%nat) as -> by lia. simpl.
        exists (l1 ++ [EvPrint (MsgTtsFailed max_retries e)]).
        rewrite Hl1, <- app_assoc.
        unfold sleeps_in, attempts_in in *.
        rewrite !count_events_app, Ha1, Hs1, Hp1, Hf1. simpl.
        repeat split; auto; lia.
      * destruct (env_sleep_interrupted env (S (tick s1))) eqn:Hsl.
        -- rewrite (tts_for_retry_interrupted _ _ _ _ _ _ _ Hatt He Hnot Hsl).
           simpl. rewrite Hl1, <- !app_assoc. simpl.
           eexists. split; [reflexivity|].
           unfold sleeps_in, attempts_in in *.
           rewrite !count_events_app, Ha1, Hs1, Hp1, Hf1. simpl.
           repeat split; auto; try lia; try (intros [=]).
        -- rewrite (tts_for_retry _ _ _ _ _ _ _ Hatt He Hnot Hsl).
           destruct (IH (S k) (retry_notice (Z.of_nat k) max_retries s1))
             as (l2 & Hl2 & Ha2 & Hge2 & Hs2 & Hf2 & Hr2 & Hv2); [lia|].
           assert (1 <= n)%nat as Hn by lia. specialize (Hge2 Hn).
           exists (l1 ++ [EvPrint (MsgRetrying (Z.of_nat k + 2) max_retries);
                          EvSleep 1000 (Ok tt)] ++ l2).
           rewrite Hl2, log_retry_notice, Hl1, <- !app_assoc.
           unfold sleeps_in, attempts_in in *.
           rewrite !count_events_app, Ha1, Hs1, Hp1, Hf1. simpl.
           repeat split; auto; try lia.
           intros Hval. specialize (Hv2 Hval). lia.
Qed.

Lemma tts_for_exhausted (text : string) (max_retries : Z) (n : nat) :
  always_fails env target_lang text ->
  (forall i, env_sleep_interrupted env i = false) ->
  forall (k : nat) (st : State),
    ((1 <= n)%nat -> max_retries = Z.of_nat (k + n)) ->
    exists l,
      log (text_to_speech_for env target_lang text max_retries
             (Z.of_nat <$> seq k n) st).2 = log st ++ l /\
      (text_to_speech_for env target_lang text max_retries
         (Z.of_nat <$> seq k n) st).1 = Val tt /\
      attempts_in l = n /\
      sleeps_in l = pred n /\
      count_events is_one_second_sleep l = pred n /\
      ((1 <= n)%nat ->
       count_events is_tts_failed l = 1%nat /\
       exists e, last l = Some (EvPrint (MsgTtsFailed max_retries e))).
Proof.
  intros Hfail Hsleep. induction n as [|n IH]; intros k st Hmax.
  - exists []. simpl. rewrite app_nil_r. repeat split; auto; lia.
  - change (Z.of_nat <$> seq k (S n))
      with (Z.of_nat k :: (Z.of_nat <$> seq (S k) n)).
    destruct (tts_attempt_log text st) as (l1 & Hl1 & Ha1 & Hs1 & Hp1 & Hf1).
    destruct (Hfail st) as (e & s1 & Hatt & He).
    rewrite Hatt in Hl1. simpl in Hl1.
    destruct (decide (Z.of_nat k = max_retries - 1)) as [Hlast|Hnot].
    + rewrite (tts_for_last _ _ _ _ _ _ _ Hatt He Hlast).
      assert (n = 0%nat) as -> by lia. simpl.
      exists (l1 ++ [EvPrint (MsgTtsFailed max_retries e)]).
      rewrite Hl1, <- app_assoc.
      unfold sleeps_in, attempts_in in *.
      rewrite !count_events_app, Ha1, Hs1, Hp1, Hf1. simpl.
      repeat split; auto. exists e. by rewrite last_snoc.
    + rewrite (tts_for_retry _ _ _ _ _ _ _ Hatt He Hnot (Hsleep _)).
      destruct (IH (S k) (retry_notice (Z.of_nat k) max_retries s1))
        as (l2 & Hl2 & Hr2 & Ha2 & Hs2 & Hp2 & Hlast2); [lia|].
      assert (1 <= n)%nat as Hn by lia.
      destruct (Hlast2 Hn) as (Hf2 & e2 & He2).
      exists (l1 ++ [EvPrint (MsgRetrying (Z.of_nat k + 2) max_retries);
                     EvSleep 1000 (Ok tt)] ++ l2).
      rewrite Hl2, log_retry_notice, Hl1, <- !app_assoc.
      unfold sleeps_in, attempts_in in *.
      rewrite !count_events_app, Ha1, Hs1, Hp1, Hf1, Ha2, Hs2, Hp2, Hf2.
      simpl.
      repeat split; auto; try lia.
      exists e2. by rewrite last_app, !last_cons, He2.
Qed.

End TextToSpeech.

Lemma range_of_nat (n : Z) :
  range n = Z.of_nat <$> seq 0 (Z.to_nat n).
Proof. done. Qed.

(** C5.  [text_to_speech] is the retry executor around synthesis and
    playback; an attempt is one pass through its [try] block.
    - In every run there are at most [max_retries] attempts, every pause
      is a pause of one second, no exception other than Ctrl-C leaves the
      call, and a call that returns has paused once less than it has
      attempted.
    - An attempt that succeeds ends the call at once.
    - With [max_retries = 3], when the first two attempts fail and the
      third succeeds, the call returns after exactly 3 attempts and 2
      pauses of one second.
    - When every attempt fails, the call makes exactly [max_retries]
      attempts, pauses between them only, reports the failure once as its
      last action, and returns normally to the loop. *)
Theorem text_to_speech_retry :
  forall (env : Env) (target_lang text : string),
    (forall (max_retries : Z) (st : State),
       let res := text_to_speech env target_lang text max_retries st in
       let l := new_events st res.2 in
       log res.2 = log st ++ l /\
       (attempts_in l <= Z.to_nat max_retries)%nat /\
       sleeps_in l = count_events is_one_second_sleep l /\
       (res.1 = Val tt \/ res.1 = Exn KeyboardInterrupt) /\
       (res.1 = Val tt -> sleeps_in l = pred (attempts_in l))) /\
    (forall (max_retries attempt : Z) (rest : list Z) (st s1 : State),
       tts_attempt env target_lang text st = (Val tt, s1) ->
       text_to_speech_for env target_lang text max_retries
         (attempt :: rest) st = (Val tt, s1)) /\
    (forall (st s1 s2 s3 : State) (e1 e2 : exn),
       tts_attempt env target_lang text st = (Exn e1, s1) ->
       is_Exception e1 = true ->
       env_sleep_interrupted env (S (tick s1)) = false ->
       tts_attempt env target_lang text (retry_notice 0 3 s1)
         = (Exn e2, s2) ->
       is_Exception e2 = true ->
       env_sleep_interrupted env (S (tick s2)) = false ->
       tts_attempt env target_lang text (retry_notice 1 3 s2)
         = (Val tt, s3) ->
       text_to_speech env target_lang text 3 st = (Val tt, s3) /\
       attempts_in (new_events st s3) = 3%nat /\
       sleeps_in (new_events st s3) = 2%nat /\
       count_events is_one_second_sleep (new_events st s3) = 2%nat /\
       count_events is_tts_failed (new_events st s3) = 0%nat) /\
    (forall (max_retries : Z) (st : State),
       always_fails env target_lang text ->
       (forall i, env_sleep_interrupted env i = false) ->
       let res := text_to_speech env target_lang text max_retries st in
       let l := new_events st res.2 in
       res.1 = Val tt /\
       attempts_in l = Z.to_nat max_retries /\
       sleeps_in l = pred (Z.to_nat max_retries) /\
       count_events is_one_second_sleep l = pred (Z.to_nat max_retries) /\
       (0 < max_retries ->
        count_events is_tts_failed l = 1%nat /\
        exists e, last l = Some (EvPrint (MsgTtsFailed max_retries e)))).
Proof.
  intros env target_lang text. repeat apply conj.
  - intros max_retries st. unfold text_to_speech. rewrite range_of_nat.
    destruct (tts_for_counts env target_lang text max_retries
                (Z.to_nat max_retries) 0 st)
      as (l & Hl & Ha & _ & Hs & _ & Hr & Hv); [lia|].
    simpl. rewrite (new_events_app _ _ _ Hl). done.
  - intros max_retries attempt rest st s1. apply tts_for_success.
  - intros st s1 s2 s3 e1 e2 H1 He1 Hs1 H2 He2 Hs2 H3.
    assert (Hrun : text_to_speech env target_lang text 3 st = (Val tt, s3)).
    { unfold text_to_speech. change (range 3) with [0; 1; 2].
      rewrite (tts_for_retry _ _ _ _ _ _ _ _ _ H1 He1) by done.
      rewrite (tts_for_retry _ _ _ _ _ _ _ _ _ H2 He2) by done.
      by apply tts_for_success. }
    split; [done|].
    destruct (tts_attempt_log env target_lang text st)
      as (l1 & Hl1 & Ha1 & Hz1 & Hp1 & Hf1).
    destruct (tts_attempt_log env target_lang text (retry_notice 0 3 s1))
      as (l2 & Hl2 & Ha2 & Hz2 & Hp2 & Hf2).
    destruct (tts_attempt_log env target_lang text (retry_notice 1 3 s2))
      as (l3 & Hl3 & Ha3 & Hz3 & Hp3 & Hf3).
    rewrite H1 in Hl1. rewrite H2 in Hl2. rewrite H3 in Hl3.
    rewrite log_retry_notice in Hl2, Hl3. cbn [snd] in Hl1, Hl2, Hl3.
    rewrite Hl2, Hl1, <- !app_assoc in Hl3.
    rewrite (new_events_app _ _ _ Hl3).
    unfold sleeps_in, attempts_in in *.
    rewrite !count_events_app, Ha1, Ha2, Ha3, Hz1, Hz2, Hz3,
      Hp1, Hp2, Hp3, Hf1, Hf2, Hf3.
    done.
  - intros max_retries st Hfail Hsleep. unfold text_to_speech.
    rewrite range_of_nat.
    destruct (tts_for_exhausted env target_lang text max_retries
                (Z.to_nat max_retries) Hfail Hsleep 0 st)
      as (l & Hl & Hr & Ha & Hs & Hp & Hlast); [lia|].
    simpl. rewrite (new_events_app _ _ _ Hl).
    repeat split; auto; apply Hlast; lia.
Qed.

Lemma text_to_speech_retry_witness :
  let env := play_fails_before 11 in
  let s1 := (tts_attempt env "fr" "bonjour" empty_state).2 in
  let s2 := (tts_attempt env "fr" "bonjour" (retry_notice 0 3 s1)).2 in
  let s3 := (tts_attempt env "fr" "bonjour" (retry_notice 1 3 s2)).2 in
  let s0 := (tts_attempt calm_env "fr" "bonjour" empty_state).2 in
  (text_to_speech env "fr" "bonjour" 3 empty_state = (Val tt, s3) /\
   attempts_in (new_events empty_state s3) = 3%nat /\
   sleeps_in (new_events empty_state s3) = 2%nat /\
   sleeps_in (new_events empty_state
                (text_to_speech env "fr" "bonjour" 3 empty_state).2)
     = pred (attempts_in
               (new_events empty_state
                  (text_to_speech env "fr" "bonjour" 3 empty_state).2))) /\
  (tts_attempt calm_env "fr" "bonjour" empty_state = (Val tt, s0) /\
   text_to_speech_for calm_env "fr" "bonjour" 3 [0; 1; 2] empty_state
     = (Val tt, s0)) /\
  (always_fails play_always_fails "fr" "bonjour" /\
   (forall i, env_sleep_interrupted play_always_fails i = false) /\
   (text_to_speech play_always_fails "fr" "bonjour" 3 empty_state).1
     = Val tt /\
   attempts_in
     (new_events empty_state
        (text_to_speech play_always_fails "fr" "bonjour" 3 empty_state).2)
     = 3%nat /\
   count_events is_tts_failed
     (new_events empty_state
        (text_to_speech play_always_fails "fr" "bonjour" 3 empty_state).2)
     = 1%nat).
Proof.
  intros env s1 s2 s3 s0.
  assert (Hfail : always_fails play_always_fails "fr" "bonjour").
  { intros st. unfold tts_attempt, bind, file_exists, gtts_save, playsound,
      call, print. simpl.
    destruct (bool_decide _); simpl; eexists _, _; split; reflexivity. }
  assert (Hsleep : forall i, env_sleep_interrupted play_always_fails i = false)
    by reflexivity.
  assert (Hok : tts_attempt calm_env "fr" "bonjour" empty_state = (Val tt, s0))
    by (vm_compute; reflexivity).
  assert (Hval : (text_to_speech env "fr" "bonjour" 3 empty_state).1 = Val tt)
    by (vm_compute; reflexivity).
  assert (Hpos : 0 < 3) by lia.
  split; [|split].
  - pose proof (proj1 (proj2 (proj2
        (text_to_speech_retry env "fr" "bonjour")))
        empty_state s1 s2 s3
        (OtherException "playback failed") (OtherException "playback failed"))
      as H.
    destruct H as (Hrun & Ha & Hs & _); try (vm_compute; reflexivity).
    split; [exact Hrun|]. split; [exact Ha|]. split; [exact Hs|].
    exact (proj2 (proj2 (proj2 (proj2
             (proj1 (text_to_speech_retry env "fr" "bonjour") 3 empty_state))))
             Hval).
  - split; [exact Hok|].
    exact (proj1 (proj2 (text_to_speech_retry calm_env "fr" "bonjour"))
             3 0 [1; 2] empty_state s0 Hok).
  - split; [exact Hfail|]. split; [exact Hsleep|].
    pose proof (proj2 (proj2 (proj2
        (text_to_speech_retry play_always_fails "fr" "bonjour")))
        3 empty_state Hfail Hsleep) as (Hr & Ha & _ & _ & Hrep).
    split; [exact Hr|]. split; [exact Ha|]. exact (proj1 (Hrep Hpos)).
Defined.

(** ** What each method emits and leaves alone *)

Ltac eff L := apply L; try typeclasses eauto.

Section Frames.
Variable env : Env.
Variables source_lang target_lang : string.

Lemma tts_attempt_emits (text : string) :
  effect (tts_attempt env target_lang text) (emits tts_event).
Proof.
  unfold tts_attempt.
  eff effect_bind; [|intros present].
  { intros st. by apply emits_emit. }
  eff effect_bind; [|intros _].
  - eff effect_if; [|by eff effect_ret].
    eff effect_bind; [|intros _].
    + eff effect_print. intros st. by apply emits_emit.
    + intros st. unfold gtts_save.
      destruct (env_save _ _ _ _ _) as [|e []]; simpl;
        eexists [_]; (split; [done|by apply Forall_singleton]).
  - eff effect_call. intros o st. by apply emits_emit.
Qed.

Lemma tts_attempt_same_cache (text : string) :
  effect (tts_attempt env target_lang text) same_cache.
Proof.
  intros st.
  unfold tts_attempt, bind, file_exists, gtts_save, playsound, call, print.
  simpl. destruct (bool_decide _); simpl.
  - by destruct (env_play _ _ _).
  - destruct (env_save _ _ _ _ _) as [|e []]; simpl;
      try destruct (env_play _ _ _); done.
Qed.

Lemma sleep_emits (ms : Z) (P : event -> Prop) :
  (forall o, P (EvSleep ms o)) -> effect (sleep env ms) (emits P).
Proof.
  intros HP. eff effect_call. intros o st. by apply emits_emit.
Qed.

Lemma tts_for_effect (R : relation State) `{!PreOrder R} (text : string)
    (max_retries : Z) (attempts : list Z) :
  effect (tts_attempt env target_lang text) R ->
  (forall m st, R st (emit (EvPrint m) st)) ->
  (forall o st, R st (emit (EvSleep 1000 o) st)) ->
  effect (text_to_speech_for env target_lang text max_retries attempts) R.
Proof.
  intros Hatt Hprint Hsleep.
  induction attempts as [|attempt rest IH]; simpl.
  - by eff effect_ret.
  - eff effect_bind; [|intros []; [by eff effect_ret|done]].
    eff effect_try_except.
    + eff effect_bind; [done|]. intros _. by eff effect_ret.
    + intros e k. unfold on_Exception.
      destruct (is_Exception e); [|done]. intros [= <-].
      eff effect_bind; [|intros _; by eff effect_ret].
      destruct (decide _).
      * by eff effect_print.
      * eff effect_bind; [by eff effect_print|intros _].
        by eff effect_call.
Qed.

Lemma text_to_speech_emits (text : string) (max_retries : Z) :
  effect (text_to_speech env target_lang text max_retries) (emits tts_event).
Proof.
  apply tts_for_effect; [typeclasses eauto|apply tts_attempt_emits|..];
    intros; by apply emits_emit.
Qed.

Lemma text_to_speech_same_cache (text : string) (max_retries : Z) :
  effect (text_to_speech env target_lang text max_retries) same_cache.
Proof. apply tts_for_effect; [typeclasses eauto|apply tts_attempt_same_cache|done..]. Qed.

Lemma lookup_or_translate_effect (R : relation State) `{!PreOrder R}
    (text : string) :
  (forall m st, R st (emit (EvPrint m) st)) ->
  (forall o st, R st (emit (EvTranslate text o) st)) ->
  (forall v st,
     R st (set_cache (dict_set text v (translation_cache st)) st)) ->
  effect (lookup_or_translate env text) R.
Proof.
  intros Hprint Hcall Hset. unfold lookup_or_translate.
  eff effect_bind; [eff effect_get_state|intros st0].
  destruct (dict_contains _ _).
  - destruct (dict_get _ _).
    + eff effect_bind; [by eff effect_print|intros _; by eff effect_ret].
    + by eff effect_raise.
  - eff effect_bind; [by eff effect_print|intros _].
    eff effect_bind; [by eff effect_call|intros translation].
    eff effect_bind; [intros st; apply Hset|intros _].
    eff effect_bind; [by eff effect_print|intros _; by eff effect_ret].
Qed.

Lemma lookup_or_translate_emits (text : string) :
  effect (lookup_or_translate env text) (emits loop_event).
Proof.
  apply lookup_or_translate_effect; [typeclasses eauto|..];
    intros; try (by apply emits_emit); by apply emits_same_log.
Qed.

Lemma lookup_or_translate_same_files (text : string) :
  effect (lookup_or_translate env text) same_files.
Proof. by apply lookup_or_translate_effect; [typeclasses eauto|..]. Qed.

Lemma tts_event_loop_event (e : event) : tts_event e -> loop_event e.
Proof. by destruct e. Qed.

Lemma iteration_emits :
  effect (iteration env source_lang target_lang) (emits loop_event).
Proof.
  unfold iteration. eff effect_try_except.
  - unfold iteration_body.
    eff effect_bind; [|intros a].
    { eff effect_call. intros o st. by apply emits_emit. }
    eff effect_bind; [|intros _].
    { eff effect_print. intros st. by apply emits_emit. }
    eff effect_bind; [|intros text].
    { eff effect_call. intros o st. by apply emits_emit. }
    eff effect_bind; [|intros _].
    { eff effect_print. intros st. by apply emits_emit. }
    eff effect_bind; [|intros _].
    { by apply sleep_emits. }
    eff effect_bind; [|intros translation].
    { apply lookup_or_translate_emits. }
    intros st. eapply emits_weaken; [apply tts_event_loop_event|].
    apply text_to_speech_emits.
  - intros e k Hk.
    destruct e; simpl in Hk; try discriminate Hk;
      injection Hk as <-;
      try (eff effect_print; intros st; by apply emits_emit);
      (eff effect_bind; [|intros _];
       [eff effect_print; intros st; by apply emits_emit
       |by apply sleep_emits]).
Qed.

Lemma loop_emits (fuel : nat) :
  effect (loop env source_lang target_lang fuel) (emits loop_event).
Proof.
  induction fuel as [|n IH]; simpl.
  - by eff effect_running.
  - eff effect_bind; [apply iteration_emits|done].
Qed.

Lemma cleanup_emits : effect (cleanup env) (emits sweep_event).
Proof.
  unfold cleanup.
  eff effect_bind; [|intros now].
  { intros st. by apply emits_emit. }
  eff effect_bind; [|intros files].
  { intros st. by apply emits_emit. }
  eff effect_for_each. intros file. unfold cleanup_file.
  eff effect_bind; [|intros mtime].
  { intros st. unfold stat_mtime. by destruct (_ !! _). }
  eff effect_if; [|by eff effect_ret].
  eff effect_try_except.
  - intros st. unfold unlink.
    destruct (env_unlink _ _ _); simpl;
      eexists [_]; (split; [done|by apply Forall_singleton]).
  - intros e k. unfold on_Exception. destruct (is_Exception e); [|done].
    intros [= <-]. by eff effect_ret.
Qed.

Lemma adjust_emits :
  effect (adjust_for_ambient_noise env) (emits calibration_event).
Proof.
  unfold adjust_for_ambient_noise.
  eff effect_bind; [|intros _].
  { eff effect_print. intros st. by apply emits_emit. }
  eff effect_try_except.
  - eff effect_bind; [|intros _].
    + eff effect_for_each. intros i.
      eff effect_bind; [|intros _].
      * eff effect_call. intros o st. by apply emits_emit.
      * eff effect_print. intros st. by apply emits_emit.
    + eff effect_print. intros st. by apply emits_emit.
  - intros e k. unfold on_Exception. destruct (is_Exception e); [|done].
    intros [= <-].
    eff effect_print. intros st. by apply emits_emit.
Qed.

End Frames.

Lemma adjust_same_cache (env : Env) :
  effect (adjust_for_ambient_noise env) same_cache.
Proof.
  unfold adjust_for_ambient_noise.
  eff effect_bind; [by eff effect_print|intros _].
  eff effect_try_except.
  - eff effect_bind; [|intros _; by eff effect_print].
    eff effect_for_each. intros i.
    eff effect_bind; [by eff effect_call|intros _; by eff effect_print].
  - intros e k. unfold on_Exception. destruct (is_Exception e); [|done].
    intros [= <-]. by eff effect_print.
Qed.

Lemma adjust_same_files (env : Env) :
  effect (adjust_for_ambient_noise env) same_files.
Proof.
  unfold adjust_for_ambient_noise.
  eff effect_bind; [by eff effect_print|intros _].
  eff effect_try_except.
  - eff effect_bind; [|intros _; by eff effect_print].
    eff effect_for_each. intros i.
    eff effect_bind; [by eff effect_call|intros _; by eff effect_print].
  - intros e k. unfold on_Exception. destruct (is_Exception e); [|done].
    intros [= <-]. by eff effect_print.
Qed.

Lemma cleanup_same_cache (env : Env) : effect (cleanup env) same_cache.
Proof.
  unfold cleanup.
  eff effect_bind; [done|intros now].
  eff effect_bind; [done|intros files].
  eff effect_for_each. intros file. unfold cleanup_file.
  eff effect_bind; [|intros mtime].
  { intros st. unfold stat_mtime. by destruct (_ !! _). }
  eff effect_if; [|by eff effect_ret].
  eff effect_try_except.
  - intros st. unfold unlink. by destruct (env_unlink _ _ _).
  - intros e k. unfold on_Exception. destruct (is_Exception e); [|done].
    intros [= <-]. by eff effect_ret.
Qed.

(** ** adjust_for_ambient_noise *)

Lemma for_each_cons_val {A} (body : A -> M unit) (x : A) (r : list A)
    (st s1 : State) :
  body x st = (Val tt, s1) -> for_each (x :: r) body st = for_each r body s1.
Proof. intros H. simpl. unfold bind. by rewrite H. Qed.

Lemma for_each_cons_exn {A} (body : A -> M unit) (x : A) (r : list A)
    (st s1 : State) (e : exn) :
  body x st = (Exn e, s1) -> for_each (x :: r) body st = (Exn e, s1).
Proof. intros H. simpl. unfold bind. by rewrite H. Qed.

Section Calibration.
Variable env : Env.

Lemma adjust_pass_ok (i : Z) (st : State) :
  env_adjust env (tick st) = Ok tt ->
  (call (env_adjust env) (EvAdjust 1) ;; print (MsgCalibrating (i + 1))) st
    = (Val tt,
       emit (EvPrint (MsgCalibrating (i + 1))) (emit (EvAdjust 1 (Ok tt)) st)).
Proof. intros H. unfold bind, call, print. by rewrite H. Qed.

Lemma adjust_pass_raise (i : Z) (st : State) (e : exn) :
  env_adjust env (tick st) = Raise e ->
  (call (env_adjust env) (EvAdjust 1) ;; print (MsgCalibrating (i + 1))) st
    = (Exn e, emit (EvAdjust 1 (Raise e)) st).
Proof. intros H. unfold bind, call, print. by rewrite H. Qed.

(** The sampling passes, before the handler. *)
Lemma adjust_passes_spec (passes : list Z) :
  forall st : State,
    exists l,
      log (for_each passes (fun i =>
             call (env_adjust env) (EvAdjust 1) ;;
             print (MsgCalibrating (i + 1))) st).2 = log st ++ l /\
      count_events is_adjust l = count_events is_one_second_adjust l /\
      (count_events is_adjust l <= length passes)%nat /\
      match (for_each passes (fun i =>
               call (env_adjust env) (EvAdjust 1) ;;
               print (MsgCalibrating (i + 1))) st).1 with
      | Val _ =>
          count_events is_adjust l = length passes /\
          forall e, EvAdjust 1 (Raise e) ∉ l
      | Exn e =>
          last l = Some (EvAdjust 1 (Raise e)) /\
          (forall e', EvAdjust 1 (Raise e') ∈ l -> e' = e) /\
          exists i, env_adjust env i = Raise e
      | Running => False
      end.
Proof.
  induction passes as [|i rest IH]; intros st.
  - exists []. simpl. rewrite app_nil_r. repeat split; auto.
    intros e. apply not_elem_of_nil.
  - destruct (env_adjust env (tick st)) as [[]|e] eqn:Hadj.
    + rewrite (for_each_cons_val
                 (fun i => call (env_adjust env) (EvAdjust 1) ;;
                           print (MsgCalibrating (i + 1)))
                 i rest st _ (adjust_pass_ok i st Hadj)).
      destruct (IH (emit (EvPrint (MsgCalibrating (i + 1)))
                      (emit (EvAdjust 1 (Ok tt)) st)))
        as (l & Hl & Hone & Hle & Hres).
      exists (EvAdjust 1 (Ok tt) :: EvPrint (MsgCalibrating (i + 1)) :: l).
      rewrite Hl. simpl. rewrite <- !app_assoc. simpl.
      repeat split; [lia|lia|].
      destruct (for_each rest _ _).1 as [[]|e|]; [| |done].
      * destruct Hres as [Hn Hno]. split; [lia|].
        intros e He. apply elem_of_cons in He as [[=]|He].
        apply elem_of_cons in He as [[=]|He]. by apply (Hno e).
      * destruct Hres as (Hlast & Honly & Hi).
        split; [by rewrite !last_cons, Hlast|]. split; [|done].
        intros e' He. apply elem_of_cons in He as [[=]|He].
        apply elem_of_cons in He as [[=]|He]. by apply Honly.
    + rewrite (for_each_cons_exn
                 (fun i => call (env_adjust env) (EvAdjust 1) ;;
                           print (MsgCalibrating (i + 1)))
                 i rest st _ e (adjust_pass_raise i st e Hadj)).
      exists [EvAdjust 1 (Raise e)]. simpl.
      split; [done|]. split; [done|]. split; [lia|]. split; [done|].
      split; [|by exists (tick st)].
      intros e' He. apply list_elem_of_singleton in He. congruence.
Qed.

End Calibration.

Section CalibrationSpec.
Variable env : Env.

(** The three ways a calibration can go. *)
Lemma adjust_spec (st : State) :
  exists lp,
    log (adjust_for_ambient_noise env st).2 =
      log st ++ EvPrint MsgAdjusting :: lp /\
    (count_events is_adjust lp <= 3)%nat /\
    count_events is_adjust lp = count_events is_one_second_adjust lp /\
    ((adjust_for_ambient_noise env st).1 = Val tt /\
     count_events is_adjust lp = 3%nat /\
     (forall e, EvAdjust 1 (Raise e) ∉ lp) /\
     last lp = Some (EvPrint MsgAdjustComplete)
     \/
     (exists e,
        is_Exception e = true /\
        (adjust_for_ambient_noise env st).1 = Val tt /\
        EvAdjust 1 (Raise e) ∈ lp /\
        (forall e', EvAdjust 1 (Raise e') ∈ lp -> e' = e) /\
        (exists i, env_adjust env i = Raise e) /\
        last lp = Some (EvPrint (MsgAdjustWarning e)))
     \/
     ((adjust_for_ambient_noise env st).1 = Exn KeyboardInterrupt /\
      EvAdjust 1 (Raise KeyboardInterrupt) ∈ lp /\
      (forall e', EvAdjust 1 (Raise e') ∈ lp -> e' = KeyboardInterrupt) /\
      exists i, env_adjust env i = Raise KeyboardInterrupt)).
Proof.
  unfold adjust_for_ambient_noise.
  rewrite (bind_val _ _ st (emit (EvPrint MsgAdjusting) st) tt) by done.
  destruct (adjust_passes_spec env (range 3) (emit (EvPrint MsgAdjusting) st))
    as (l & Hl & Hone & Hle & Hres).
  change (length (range 3)) with 3%nat in *.
  rewrite log_emit, <- app_assoc in Hl.
  destruct (for_each (range 3) _ _) as [[[]|e|] s1] eqn:Hp;
    simpl in Hl, Hres; [| |done].
  - rewrite (try_except_val _ _ _ (emit (EvPrint MsgAdjustComplete) s1) tt)
      by (by rewrite (bind_val _ _ _ _ _ Hp)).
    destruct Hres as [Hn Hno].
    exists (l ++ [EvPrint MsgAdjustComplete]). simpl.
    rewrite Hl, <- app_assoc, !count_events_app. simpl.
    split; [done|]. split; [lia|]. split; [lia|]. left.
    split; [done|]. split; [lia|]. split; [|by rewrite last_snoc].
    intros e He. apply elem_of_app in He as [He|He]; [by apply (Hno e)|].
    by apply list_elem_of_singleton in He.
  - destruct Hres as (Hlast & Honly & Hi).
    assert (Hin : EvAdjust 1 (Raise e) ∈ l).
    { destruct l as [|x l'] using rev_ind; [done|].
      rewrite last_snoc in Hlast. injection Hlast as ->.
      apply elem_of_app. right. by apply list_elem_of_singleton. }
    destruct (is_Exception e) eqn:He.
    + rewrite (try_except_caught _ _ _ s1 e (print (MsgAdjustWarning e)))
        by (by rewrite ?(bind_exn _ _ _ _ _ Hp); unfold on_Exception;
            rewrite ?He).
      exists (l ++ [EvPrint (MsgAdjustWarning e)]). simpl.
      rewrite Hl, <- app_assoc, !count_events_app. simpl.
      split; [done|]. split; [lia|]. split; [lia|]. right. left.
      exists e. split; [done|]. split; [done|].
      split; [apply elem_of_app; by left|].
      split; [|split; [done|by rewrite last_snoc]].
      intros e' He'. apply elem_of_app in He' as [He'|He']; [by apply Honly|].
      by apply list_elem_of_singleton in He'.
    + rewrite (try_except_uncaught _ _ _ s1 e)
        by (by rewrite ?(bind_exn _ _ _ _ _ Hp); unfold on_Exception;
            rewrite ?He).
      destruct e; try discriminate He.
      exists l. simpl. split; [done|]. split; [lia|]. split; [lia|].
      right. right. done.
Qed.

End CalibrationSpec.

(** ** The session after its calibration *)

Lemma emits_bind_tail {A B} (P : event -> Prop) (m : M A) (f : A -> M B)
    (st : State) :
  (forall a, effect (f a) (emits P)) ->
  emits P (m st).2 (bind m f st).2.
Proof.
  intros Hf. unfold bind. destruct (m st) as [[a|e|] s1]; simpl;
    [apply Hf|reflexivity..].
Qed.

Lemma emits_try_except_tail {A} (P : event -> Prop) (m : M A)
    (h : exn -> option (M A)) (s1 st : State) :
  emits P s1 (m st).2 ->
  (forall e k, h e = Some k -> effect k (emits P)) ->
  emits P s1 (try_except m h st).2.
Proof.
  intros Hm Hh. unfold try_except.
  destruct (m st) as [[a|e|] s2]; simpl in *; [done| |done].
  destruct (h e) as [k|] eqn:Hk; [|done].
  etrans; [done|]. by apply (Hh e k).
Qed.

Lemma emits_finally_tail {A} (P : event -> Prop) (m : M A) (f : M unit)
    (s1 st : State) :
  emits P s1 (m st).2 -> effect f (emits P) ->
  emits P s1 (finally m f st).2.
Proof.
  intros Hm Hf. unfold finally.
  destruct (m st) as [[a|e|] s2]; simpl in *; [| |done];
    specialize (Hf s2); destruct (f s2) as [[[]|e'|] s3]; simpl in *;
    by etrans.
Qed.

Lemma loop_event_session_event (e : event) : loop_event e -> session_event e.
Proof. by left. Qed.

Lemma sweep_event_session_event (e : event) :
  sweep_event e -> session_event e.
Proof. by right; left. Qed.

Lemma session_event_not_adjust (l : list event) :
  Forall session_event l -> count_events is_adjust l = 0%nat.
Proof.
  intros H. apply count_events_none. eapply Forall_impl; [exact H|].
  intros e [He|[He| ->]]; [by destruct e..|done].
Qed.

Lemma calibration_event_not_listen (l : list event) :
  Forall calibration_event l -> count_events is_listen l = 0%nat.
Proof.
  intros H. apply count_events_none. eapply Forall_impl; [exact H|].
  intros e He; by destruct e.
Qed.

Section Session.
Variable env : Env.
Variables source_lang target_lang : string.

Lemma with_microphone_opened {A} (body : M A) (st : State) :
  env_mic_open env (tick st) = Ok tt ->
  with_microphone env body st =
    finally body (fun s => (Val tt, emit EvMicClose s))
            (emit (EvMicOpen (Ok tt)) st).
Proof.
  intros H. unfold with_microphone.
  by rewrite (bind_val _ _ _ _ _ (call_ok _ _ _ _ H)).
Qed.

Lemma with_microphone_failed {A} (body : M A) (st : State) (e : exn) :
  env_mic_open env (tick st) = Raise e ->
  with_microphone env body st = (Exn e, emit (EvMicOpen (Raise e)) st).
Proof.
  intros H. unfold with_microphone.
  by rewrite (bind_exn _ _ _ _ _ (call_raise _ _ _ _ H)).
Qed.

(** Everything the session does after the calibration is listening,
    translating, speaking and sweeping. *)
Lemma session_after_calibration (fuel : nat) (st : State) :
  env_mic_open env (tick st) = Ok tt ->
  emits session_event
    (adjust_for_ambient_noise env (emit (EvMicOpen (Ok tt)) st)).2
    (listen_and_translate env source_lang target_lang fuel st).2.
Proof.
  intros Hmic. unfold listen_and_translate.
  apply emits_finally_tail.
  2: { intros s. eapply emits_weaken; [apply sweep_event_session_event|].
       apply cleanup_emits. }
  apply emits_try_except_tail.
  2: { intros e k. destruct (is_KeyboardInterrupt e); [|done].
       intros [= <-] s. apply emits_emit. by left. }
  rewrite (with_microphone_opened _ _ Hmic).
  apply emits_finally_tail.
  2: { intros s. apply emits_emit. by right; right. }
  apply emits_bind_tail. intros _.
  eff effect_bind; [|intros _].
  { intros s. apply emits_emit. by left. }
  eff effect_bind; [|intros _].
  { intros s. apply emits_emit. by left. }
  intros s. eapply emits_weaken; [apply loop_event_session_event|].
  apply loop_emits.
Qed.

End Session.

(** C9.  The calibration samples the ambient noise in passes of one
    second, at most three of them.
    - When no pass fails it makes exactly three passes and returns.
    - An error raised by the audio source during a pass is caught: the
      warning that names it is the last thing printed and the calibration
      returns normally.  So, short of Ctrl-C, calibration always returns
      normally, whatever the audio source does.
    - Caches and files are not touched.
    - In [listen_and_translate] all of this happens before the loop: no
      listening precedes the end of the calibration and no sampling pass
      follows it. *)
Theorem calibration_contained :
  forall env : Env,
    (forall st : State,
       let res := adjust_for_ambient_noise env st in
       let l := new_events st res.2 in
       log res.2 = log st ++ l /\
       (count_events is_adjust l <= 3)%nat /\
       count_events is_adjust l = count_events is_one_second_adjust l /\
       (res.1 = Val tt \/ res.1 = Exn KeyboardInterrupt) /\
       ((forall e, EvAdjust 1 (Raise e) ∉ l) ->
        res.1 = Val tt /\ count_events is_adjust l = 3%nat /\
        last l = Some (EvPrint MsgAdjustComplete)) /\
       (forall e,
          is_Exception e = true -> EvAdjust 1 (Raise e) ∈ l ->
          res.1 = Val tt /\ last l = Some (EvPrint (MsgAdjustWarning e)))) /\
    (forall st : State,
       (forall i, env_adjust env i <> Raise KeyboardInterrupt) ->
       (adjust_for_ambient_noise env st).1 = Val tt) /\
    (forall st : State,
       translation_cache (adjust_for_ambient_noise env st).2
         = translation_cache st /\
       cache_dir_files (adjust_for_ambient_noise env st).2
         = cache_dir_files st) /\
    (forall (source_lang target_lang : string) (fuel : nat) (st : State),
       env_mic_open env (tick st) = Ok tt ->
       let calibrated :=
         (adjust_for_ambient_noise env (emit (EvMicOpen (Ok tt)) st)).2 in
       let final :=
         (listen_and_translate env source_lang target_lang fuel st).2 in
       count_events is_listen (new_events st calibrated) = 0%nat /\
       log final = log calibrated ++ new_events calibrated final /\
       count_events is_adjust (new_events calibrated final) = 0%nat).
Proof.
  intros env. repeat apply conj.
  - intros st.
    destruct (adjust_spec env st) as (lp & Hl & Hle & Hone & Hcases).
    simpl. rewrite (new_events_app _ _ _ Hl).
    split; [done|]. split; [done|]. split; [done|].
    destruct Hcases as [(Hr & Hn & Hno & Hlast)
                       |[(e & He & Hr & Hin & Honly & Hi & Hlast)
                        |(Hr & Hin & Honly & Hi)]].
    + split; [by left|]. split.
      * intros _. split; [done|]. split; [done|].
        by rewrite last_cons, Hlast.
      * intros e He Hin. apply elem_of_cons in Hin as [[=]|Hin].
        by destruct (Hno e).
    + split; [by left|]. split.
      * intros Hno. destruct (Hno e). by right.
      * intros e' He' Hin'. apply elem_of_cons in Hin' as [[=]|Hin'].
        rewrite (Honly e' Hin'). split; [done|].
        by rewrite last_cons, Hlast.
    + split; [by right|]. split.
      * intros Hno. destruct (Hno KeyboardInterrupt). by right.
      * intros e' He' Hin'. apply elem_of_cons in Hin' as [[=]|Hin'].
        rewrite (Honly e' Hin') in He'. discriminate He'.
  - intros st Hno.
    destruct (adjust_spec env st) as (lp & _ & _ & _ & Hcases).
    destruct Hcases as [(Hr & _)|[(e & _ & Hr & _)|(_ & _ & _ & i & Hi)]];
      [done|done|]. by destruct (Hno i).
  - intros st. split.
    + apply (adjust_same_cache env).
    + apply (adjust_same_files env).
  - intros source_lang target_lang fuel st Hmic. simpl.
    pose proof (adjust_emits env (emit (EvMicOpen (Ok tt)) st)) as Hcal.
    apply emits_new_events in Hcal as [Hlog Hcal].
    pose proof (session_after_calibration env source_lang target_lang
                  fuel st Hmic) as Hrest.
    apply emits_new_events in Hrest as [Hlog' Hrest].
    split; [|split; [done|by apply session_event_not_adjust]].
    rewrite log_emit, <- app_assoc in Hlog.
    rewrite (new_events_app _ _ _ Hlog). simpl.
    by apply calibration_event_not_listen.
Qed.

Lemma calibration_contained_witness :
  ((forall e,
      EvAdjust 1 (Raise e)
        ∉ new_events empty_state
            (adjust_for_ambient_noise calm_env empty_state).2) /\
   count_events is_adjust
     (new_events empty_state
        (adjust_for_ambient_noise calm_env empty_state).2) = 3%nat) /\
  (is_Exception (OtherException "audio source failed") = true /\
   EvAdjust 1 (Raise (OtherException "audio source failed"))
     ∈ new_events empty_state
         (adjust_for_ambient_noise noisy_microphone empty_state).2 /\
   last (new_events empty_state
           (adjust_for_ambient_noise noisy_microphone empty_state).2)
     = Some (EvPrint (MsgAdjustWarning
                        (OtherException "audio source failed")))) /\
  ((forall i, env_adjust noisy_microphone i <> Raise KeyboardInterrupt) /\
   (adjust_for_ambient_noise noisy_microphone empty_state).1 = Val tt) /\
  (env_mic_open calm_env (tick empty_state) = Ok tt /\
   count_events is_adjust
     (new_events
        (adjust_for_ambient_noise calm_env
           (emit (EvMicOpen (Ok tt)) empty_state)).2
        (listen_and_translate calm_env "en" "fr" 2 empty_state).2) = 0%nat).
Proof.
  assert (Hno : forall e,
             EvAdjust 1 (Raise e)
               ∉ new_events empty_state
                   (adjust_for_ambient_noise calm_env empty_state).2).
  { intros e H.
    set (l := new_events _ _) in H. vm_compute in l. subst l.
    repeat (apply elem_of_cons in H as [H|H]; [discriminate H|]).
    exact (proj1 (elem_of_nil _) H). }
  assert (He : is_Exception (OtherException "audio source failed") = true)
    by reflexivity.
  assert (Hin : EvAdjust 1 (Raise (OtherException "audio source failed"))
                  ∈ new_events empty_state
                      (adjust_for_ambient_noise noisy_microphone
                         empty_state).2).
  { set (l := new_events _ _). vm_compute in l. subst l.
    apply list_elem_of_In. simpl.
    repeat first [left; reflexivity | right]. }
  assert (Hnoki : forall i,
             env_adjust noisy_microphone i <> Raise KeyboardInterrupt).
  { intros i. simpl. by destruct (i <? 3)%nat. }
  assert (Hmic : env_mic_open calm_env (tick empty_state) = Ok tt)
    by reflexivity.
  split; [|split; [|split]].
  - split; [exact Hno|].
    exact (proj1 (proj2 (proj1 (proj2 (proj2 (proj2 (proj2
      (proj1 (calibration_contained calm_env) empty_state))))) Hno))).
  - split; [exact He|]. split; [exact Hin|].
    exact (proj2 (proj2 (proj2 (proj2 (proj2 (proj2
      (proj1 (calibration_contained noisy_microphone) empty_state)))))
      _ He Hin)).
  - split; [exact Hnoki|].
    exact (proj1 (proj2 (calibration_contained noisy_microphone))
             empty_state Hnoki).
  - split; [exact Hmic|].
    exact (proj2 (proj2 (proj2 (proj2 (proj2
      (calibration_contained calm_env))) "en" "fr" 2%nat empty_state Hmic))).
Defined.

(** ** cleanup *)

Section Cleanup.
Variable env : Env.

(** The four ways the sweep treats one file of the listing. *)
Lemma cleanup_file_young (now : Z) (file : string) (st : State) (mtime : Z) :
  cache_dir_files st !! file = Some mtime ->
  now - mtime <= 86400 ->
  cleanup_file env now file st = (Val tt, st).
Proof.
  intros Hf Hage. unfold cleanup_file.
  rewrite (bind_val _ _ st st mtime) by (unfold stat_mtime; by rewrite Hf).
  destruct (now - mtime >? 86400) eqn:Hgt; [|done].
  apply Z.gtb_lt in Hgt. lia.
Qed.

Lemma cleanup_file_old (now : Z) (file : string) (st : State) (mtime : Z) :
  cache_dir_files st !! file = Some mtime ->
  now - mtime > 86400 ->
  cleanup_file env now file st =
    match env_unlink env (tick st) file with
    | Ok _ =>
        (Val tt,
         set_files (delete file (cache_dir_files st))
                   (emit (EvUnlink file (Ok tt)) st))
    | Raise e =>
        (if is_Exception e then Val tt else Exn e,
         emit (EvUnlink file (Raise e)) st)
    end.
Proof.
  intros Hf Hage. unfold cleanup_file.
  rewrite (bind_val _ _ st st mtime) by (unfold stat_mtime; by rewrite Hf).
  apply Z.gt_lt, Z.gtb_lt in Hage. rewrite Hage.
  unfold try_except, unlink, on_Exception.
  destruct (env_unlink env (tick st) file) as [[]|e]; [done|].
  by destruct (is_Exception e).
Qed.

(** The sweep over a listing without repetition of files that exist. *)
Lemma cleanup_loop_spec (now : Z) (names : list string) :
  forall st : State,
    NoDup names ->
    (forall f, f ∈ names -> is_Some (cache_dir_files st !! f)) ->
    exists l,
      log (for_each names (cleanup_file env now) st).2 = log st ++ l /\
      (forall f o,
         EvUnlink f o ∈ l ->
         f ∈ names /\
         (exists m, cache_dir_files st !! f = Some m /\ now - m > 86400) /\
         exists i, o = env_unlink env i f) /\
      (forall f,
         (EvUnlink f (Ok tt) ∈ l ->
          cache_dir_files (for_each names (cleanup_file env now) st).2 !! f
            = None) /\
         (EvUnlink f (Ok tt) ∉ l ->
          cache_dir_files (for_each names (cleanup_file env now) st).2 !! f
            = cache_dir_files st !! f)) /\
      match (for_each names (cleanup_file env now) st).1 with
      | Val _ =>
          forall f m,
            f ∈ names -> cache_dir_files st !! f = Some m ->
            now - m > 86400 -> exists o, EvUnlink f o ∈ l
      | Exn e =>
          e = KeyboardInterrupt /\
          exists i f, env_unlink env i f = Raise KeyboardInterrupt
      | Running => False
      end.
Proof.
  induction names as [|file rest IH]; intros st Hnd Hex.
  - exists []. simpl. rewrite app_nil_r. split; [done|].
    split; [intros f o H; by apply elem_of_nil in H|].
    split; [|intros f m H; by apply elem_of_nil in H].
    intros f. split; [intros H; by apply elem_of_nil in H|done].
  - apply NoDup_cons in Hnd as [Hfile Hnd].
    destruct (Hex file) as [mtime Hm]; [by left|].
    destruct (Z_le_gt_dec (now - mtime) 86400) as [Hyoung|Hold].
    + (* young: nothing happens *)
      rewrite (for_each_cons_val _ _ _ _ _
                 (cleanup_file_young now file st mtime Hm Hyoung)).
      destruct (IH st Hnd) as (l & Hl & Hev & Hfiles & Hres).
      { intros f Hf. apply Hex. by right. }
      exists l. split; [done|]. split; [|split; [done|]].
      * intros f o Hin. destruct (Hev f o Hin) as (Hf & Hage & Hi).
        split; [by right|done].
      * destruct (for_each rest _ st).1 as [[]|e|]; [|done..].
        intros f m Hf Hfm Hage.
        apply elem_of_cons in Hf as [->|Hf]; [|by eapply Hres].
        rewrite Hm in Hfm. injection Hfm as <-. lia.
    + (* old: unlink is called *)
      pose proof (cleanup_file_old now file st mtime Hm Hold) as Hstep.
      destruct (env_unlink env (tick st) file) as [[]|e] eqn:Ho.
      * (* deleted *)
        rewrite (for_each_cons_val _ _ _ _ _ Hstep).
        set (s1 := set_files (delete file (cache_dir_files st))
                             (emit (EvUnlink file (Ok tt)) st)) in *.
        destruct (IH s1 Hnd) as (l & Hl & Hev & Hfiles & Hres).
        { intros f Hf. simpl. rewrite lookup_delete_ne; [apply Hex; by right|].
          intros ->. done. }
        exists (EvUnlink file (Ok tt) :: l).
        split; [by rewrite Hl; simpl; rewrite <- app_assoc|].
        split; [|split].
        -- intros f o Hin. apply elem_of_cons in Hin as [[= -> ->]|Hin].
           { split; [by left|]. split; [by exists mtime|].
             by exists (tick st). }
           destruct (Hev f o Hin) as (Hf & (m & Hfm & Hage) & Hi).
           split; [by right|]. split; [|done]. exists m. split; [|done].
           simpl in Hfm. rewrite lookup_delete_ne in Hfm; [done|].
           intros ->. done.
        -- intros f. destruct (Hfiles f) as [Hdel Hkeep]. split.
           ++ intros Hin. apply elem_of_cons in Hin as [[= ->]|Hin]; [|auto].
              rewrite Hkeep; [simpl; by rewrite lookup_delete_eq|].
              intros Hin. by destruct (Hev _ _ Hin) as (Hf & _).
           ++ intros Hnin. apply not_elem_of_cons in Hnin as [Hne Hnin].
              rewrite (Hkeep Hnin). simpl. rewrite lookup_delete_ne; [done|].
              intros ->. done.
        -- destruct (for_each rest _ s1).1 as [[]|e|]; [|done..].
           intros f m Hf Hfm Hage.
           apply elem_of_cons in Hf as [->|Hf].
           { exists (Ok tt). by left. }
           destruct (Hres f m Hf) as [o Hin]; [|done|exists o; by right].
           simpl. rewrite lookup_delete_ne; [done|]. intros ->. done.
      * destruct (is_Exception e) eqn:He.
        -- (* the failure is swallowed *)
           rewrite (for_each_cons_val _ _ _ _ _ Hstep).
           set (s1 := emit (EvUnlink file (Raise e)) st) in *.
           destruct (IH s1 Hnd) as (l & Hl & Hev & Hfiles & Hres).
           { intros f Hf. apply Hex. by right. }
           exists (EvUnlink file (Raise e) :: l).
           split; [by rewrite Hl; simpl; rewrite <- app_assoc|].
           split; [|split].
           ++ intros f o Hin. apply elem_of_cons in Hin as [[= -> ->]|Hin].
              { split; [by left|]. split; [by exists mtime|].
                by exists (tick st). }
              destruct (Hev f o Hin) as (Hf & Hage & Hi).
              split; [by right|done].
           ++ intros f. destruct (Hfiles f) as [Hdel Hkeep]. split.
              ** intros Hin. apply elem_of_cons in Hin as [[=]|Hin]. auto.
              ** intros Hnin. apply not_elem_of_cons in Hnin as [Hne Hnin].
                 by rewrite (Hkeep Hnin).
           ++ destruct (for_each rest _ s1).1 as [[]|e'|]; [|done..].
              intros f m Hf Hfm Hage.
              apply elem_of_cons in Hf as [->|Hf].
              { exists (Raise e). by left. }
              destruct (Hres f m Hf Hfm Hage) as [o Hin]. exists o. by right.
        -- (* Ctrl-C *)
           destruct e; try discriminate He.
           rewrite (for_each_cons_exn _ _ _ _ _ _ Hstep).
           exists [EvUnlink file (Raise KeyboardInterrupt)].
           split; [done|]. split; [|split].
           ++ intros f o Hin. apply list_elem_of_singleton in Hin as [= -> ->].
              split; [by left|]. split; [by exists mtime|].
              by exists (tick st).
           ++ intros f. split; [|done].
              intros Hin. by apply list_elem_of_singleton in Hin.
           ++ simpl. split; [done|]. by exists (tick st), file.
Qed.

End Cleanup.

Lemma glob_listing (files : gmap string Z) (f : string) :
  f ∈ filter (fun name => ends_with ".mp3" name = true)
             (map_to_list files).*1
  <-> ends_with ".mp3" f = true /\ is_Some (files !! f).
Proof.
  rewrite list_elem_of_filter, list_elem_of_fmap. split.
  - intros [Hmp3 ([k v] & -> & Hin)]. split; [done|].
    apply elem_of_map_to_list in Hin. by exists v.
  - intros [Hmp3 [v Hv]]. split; [done|].
    exists (f, v). split; [done|]. by apply elem_of_map_to_list.
Qed.

Lemma glob_listing_NoDup (files : gmap string Z) :
  NoDup (filter (fun name => ends_with ".mp3" name = true)
                (map_to_list files).*1).
Proof. apply NoDup_filter, NoDup_fst_map_to_list. Qed.

Lemma string_app_cons (x : Ascii.ascii) (a s : string) :
  String x a +:+ s = String x (a +:+ s).
Proof. done. Qed.

Lemma length_string_app (a s : string) :
  String.length (a +:+ s) = (String.length a + String.length s)%nat.
Proof.
  induction a as [|x a IH]; [done|].
  rewrite string_app_cons. simpl. by rewrite IH.
Qed.

Lemma string_app_assoc (a b c : string) :
  (a +:+ b) +:+ c = a +:+ (b +:+ c).
Proof.
  induction a as [|x a IH]; [done|].
  rewrite !string_app_cons. by rewrite IH.
Qed.

Lemma substring_all (s : string) : String.substring 0 (String.length s) s = s.
Proof. induction s as [|x s IH]; simpl; [done|]. by rewrite IH. Qed.

Lemma substring_app_r (a s : string) :
  String.substring (String.length a) (String.length s) (a +:+ s) = s.
Proof.
  induction a as [|x a IH]; [apply substring_all|].
  rewrite string_app_cons. simpl. exact IH.
Qed.

Lemma ends_with_app (a s : string) : ends_with s (a +:+ s) = true.
Proof.
  unfold ends_with. rewrite length_string_app.
  rewrite bool_decide_eq_true_2 by lia. simpl.
  apply bool_decide_eq_true_2.
  replace (String.length a + String.length s - String.length s)%nat
    with (String.length a) by lia.
  apply substring_app_r.
Qed.

(** Every artifact of [text_to_speech] matches the pattern of the
    sweep. *)
Lemma artifact_is_mp3 (env : Env) (target_lang text : string) :
  ends_with ".mp3" (get_audio_filename env target_lang text) = true.
Proof.
  unfold get_audio_filename.
  replace ("audio_" +:+ target_lang +:+ "_" +:+ env_md5 env text +:+ ".mp3")
    with (("audio_" +:+ target_lang +:+ "_" +:+ env_md5 env text) +:+ ".mp3").
  - apply ends_with_app.
  - by rewrite !string_app_assoc.
Qed.


(** C6.  The sweep calls [unlink] on a file of the cache directory only if
    it is an [.mp3] artifact whose modification time lies more than 86400
    seconds before the time read at the start of the sweep; short of
    Ctrl-C it calls [unlink] on every such file and returns normally,
    whatever the individual calls answer: a failed deletion is swallowed.
    A file is gone afterwards exactly when its [unlink] succeeded, and
    every other file is as before.  So an artifact that is 25 hours old is
    deleted (when its deletion does not fail), and one that is 1 hour old
    is retained.  The artifacts that [text_to_speech] writes are [.mp3]
    files, so the sweep reaches all of them. *)
Theorem cleanup_sweep :
  forall (env : Env) (st : State),
    let res := cleanup env st in
    let l := new_events st res.2 in
    let now := env_time env (tick st) in
    log res.2 = log st ++ l /\
    (res.1 = Val tt \/ res.1 = Exn KeyboardInterrupt) /\
    translation_cache res.2 = translation_cache st /\
    (forall f o,
       EvUnlink f o ∈ l ->
       exists m, cache_dir_files st !! f = Some m /\
                 ends_with ".mp3" f = true /\ now - m > 86400) /\
    (forall f,
       (EvUnlink f (Ok tt) ∈ l -> cache_dir_files res.2 !! f = None) /\
       (EvUnlink f (Ok tt) ∉ l ->
        cache_dir_files res.2 !! f = cache_dir_files st !! f)) /\
    ((forall i f, env_unlink env i f <> Raise KeyboardInterrupt) ->
     res.1 = Val tt /\
     forall f m,
       cache_dir_files st !! f = Some m -> ends_with ".mp3" f = true ->
       now - m > 86400 -> exists o, EvUnlink f o ∈ l) /\
    (forall f,
       cache_dir_files st !! f = Some (now - 25 * 3600) ->
       ends_with ".mp3" f = true ->
       (forall i g, env_unlink env i g <> Raise KeyboardInterrupt) ->
       (forall i, env_unlink env i f = Ok tt) ->
       cache_dir_files res.2 !! f = None) /\
    (forall f,
       cache_dir_files st !! f = Some (now - 3600) ->
       cache_dir_files res.2 !! f = Some (now - 3600)) /\
    (forall target_lang text : string,
       ends_with ".mp3" (get_audio_filename env target_lang text) = true).
Proof.
  intros env st. simpl.
  set (now := env_time env (tick st)).
  set (names := filter (fun name => ends_with ".mp3" name = true)
                       (map_to_list (cache_dir_files st)).*1).
  set (s2 := emit (EvGlob names) (emit (EvTime now) st)).
  assert (Hrun : cleanup env st = for_each names (cleanup_file env now) s2).
  { unfold cleanup.
    rewrite (bind_val _ _ st (emit (EvTime now) st) now) by done.
    by rewrite (bind_val _ _ _ s2 names). }
  destruct (cleanup_loop_spec env now names s2 (glob_listing_NoDup _))
    as (l & Hl & Hev & Hfiles & Hres).
  { intros f Hf. by apply glob_listing in Hf as [_ Hf]. }
  rewrite <- Hrun in Hl, Hfiles, Hres. clear Hrun.
  assert (Hlog : log (cleanup env st).2
                 = log st ++ EvTime now :: EvGlob names :: l).
  { rewrite Hl. unfold s2. rewrite !log_emit, <- !app_assoc. done. }
  rewrite (new_events_app _ _ _ Hlog).
  assert (Hunlink : forall f o,
            EvUnlink f o ∈ EvTime now :: EvGlob names :: l
            <-> EvUnlink f o ∈ l).
  { intros f o. rewrite !elem_of_cons. split; [|auto].
    intros [[=]|[[=]|H]]. done. }
  assert (Hold : forall f o,
            EvUnlink f o ∈ l ->
            exists m, cache_dir_files st !! f = Some m /\
                      ends_with ".mp3" f = true /\ now - m > 86400).
  { intros f o Hin. destruct (Hev f o Hin) as (Hf & (m & Hm & Hage) & _).
    apply glob_listing in Hf as [Hmp3 _]. by exists m. }
  assert (Hfiles' : forall f,
            (EvUnlink f (Ok tt) ∈ l ->
             cache_dir_files (cleanup env st).2 !! f = None) /\
            (EvUnlink f (Ok tt) ∉ l ->
             cache_dir_files (cleanup env st).2 !! f
               = cache_dir_files st !! f)).
  { intros f. destruct (Hfiles f) as [Hdel Hkeep]. done. }
  assert (Hcomplete :
            (forall i f, env_unlink env i f <> Raise KeyboardInterrupt) ->
            (cleanup env st).1 = Val tt /\
            forall f m,
              cache_dir_files st !! f = Some m ->
              ends_with ".mp3" f = true -> now - m > 86400 ->
              exists o, EvUnlink f o ∈ l).
  { intros Hnoki.
    destruct (cleanup env st).1 as [[]|e|]; [|exfalso..].
    - split; [done|]. intros f m Hm Hmp3 Hage.
      apply (Hres f m); [|done..]. apply glob_listing. split; [done|].
      by exists m.
    - destruct Hres as (_ & i & f & Hi). by destruct (Hnoki i f).
    - done. }
  split; [done|]. split.
  { destruct (cleanup env st).1 as [[]|e|]; [by left| |done].
    destruct Hres as [-> _]. by right. }
  split; [apply (cleanup_same_cache env)|].
  split; [intros f o Hin; apply Hunlink in Hin; by eapply Hold|].
  split.
  { intros f. rewrite Hunlink. apply Hfiles'. }
  split.
  { intros Hnoki. destruct (Hcomplete Hnoki) as [Hr Hall].
    split; [done|]. intros f m Hm Hmp3 Hage.
    destruct (Hall f m Hm Hmp3 Hage) as [o Hin]. exists o. by apply Hunlink. }
  split; [|split; [|apply artifact_is_mp3]].
  - intros f Hm Hmp3 Hnoki Hok.
    destruct (Hcomplete Hnoki) as [_ Hall].
    destruct (Hall f _ Hm Hmp3) as [o Hin]; [lia|].
    destruct (Hev f o Hin) as (_ & _ & i & ->). rewrite Hok in Hin.
    by apply Hfiles'.
  - intros f Hm. destruct (Hfiles' f) as [_ Hkeep].
    rewrite Hkeep; [done|]. intros Hin.
    destruct (Hold f _ Hin) as (m & Hm' & _ & Hage).
    rewrite Hm in Hm'. injection Hm' as <-. lia.
Qed.

Lemma cleanup_sweep_witness :
  (cache_dir_files two_artifacts !! "audio_fr_old.mp3"
     = Some (env_time noon_env (tick two_artifacts) - 25 * 3600) /\
   ends_with ".mp3" "audio_fr_old.mp3" = true /\
   cache_dir_files (cleanup noon_env two_artifacts).2 !! "audio_fr_old.mp3"
     = None) /\
  (cache_dir_files two_artifacts !! "audio_fr_new.mp3"
     = Some (env_time noon_env (tick two_artifacts) - 3600) /\
   cache_dir_files (cleanup noon_env two_artifacts).2 !! "audio_fr_new.mp3"
     = Some (env_time noon_env (tick two_artifacts) - 3600)) /\
  (cleanup noon_env two_artifacts).1 = Val tt /\
  (EvUnlink "audio_fr_old.mp3" (Ok tt)
     ∈ new_events two_artifacts (cleanup noon_env two_artifacts).2 /\
   exists m,
     cache_dir_files two_artifacts !! "audio_fr_old.mp3" = Some m /\
     ends_with ".mp3" "audio_fr_old.mp3" = true /\
     env_time noon_env (tick two_artifacts) - m > 86400) /\
  (EvUnlink "audio_fr_new.mp3" (Ok tt)
     ∉ new_events two_artifacts (cleanup noon_env two_artifacts).2).
Proof.
  assert (Hold : cache_dir_files two_artifacts !! "audio_fr_old.mp3"
                 = Some (env_time noon_env (tick two_artifacts) - 25 * 3600))
    by (vm_compute; reflexivity).
  assert (Hnew : cache_dir_files two_artifacts !! "audio_fr_new.mp3"
                 = Some (env_time noon_env (tick two_artifacts) - 3600))
    by (vm_compute; reflexivity).
  assert (Hmp3 : ends_with ".mp3" "audio_fr_old.mp3" = true)
    by (vm_compute; reflexivity).
  assert (Hnoki : forall i g,
             env_unlink noon_env i g <> Raise KeyboardInterrupt)
    by (intros i g; discriminate).
  assert (Hok : forall i, env_unlink noon_env i "audio_fr_old.mp3" = Ok tt)
    by reflexivity.
  assert (Hin : EvUnlink "audio_fr_old.mp3" (Ok tt)
                  ∈ new_events two_artifacts
                      (cleanup noon_env two_artifacts).2).
  { set (l := new_events _ _). vm_compute in l. subst l.
    apply list_elem_of_In. simpl.
    repeat first [left; reflexivity | right]. }
  assert (Hnin : EvUnlink "audio_fr_new.mp3" (Ok tt)
                   ∉ new_events two_artifacts
                       (cleanup noon_env two_artifacts).2).
  { intros H. set (l := new_events _ _) in H. vm_compute in l. subst l.
    repeat (apply elem_of_cons in H as [H|H]; [discriminate H|]).
    exact (proj1 (elem_of_nil _) H). }
  pose proof (cleanup_sweep noon_env two_artifacts)
    as (_ & _ & _ & Honly & Hfiles & Hcomplete & H25 & H1 & _).
  split; [|split; [|split; [|split]]].
  - split; [exact Hold|]. split; [exact Hmp3|].
    exact (H25 "audio_fr_old.mp3" Hold Hmp3 Hnoki Hok).
  - split; [exact Hnew|]. exact (H1 "audio_fr_new.mp3" Hnew).
  - exact (proj1 (Hcomplete Hnoki)).
  - split; [exact Hin|]. exact (Honly _ _ Hin).
  - exact Hnin.
Defined.

(** ** The loop *)

Section Loop.
Variable env : Env.
Variables source_lang target_lang : string.

Lemma sleep_halts (ms : Z) : halts (sleep env ms).
Proof. apply halts_call. Qed.

Lemma sleep_raises (ms : Z) :
  raises_only (sleep env ms) (fun e => e = KeyboardInterrupt).
Proof.
  intros st e. unfold sleep, call, sleep_outcome.
  destruct (env_sleep_interrupted env (tick st)); simpl; [|done].
  by intros [= <-].
Qed.

Lemma text_to_speech_halts (text : string) (max_retries : Z) :
  halts (text_to_speech env target_lang text max_retries).
Proof.
  unfold text_to_speech.
  induction (range max_retries) as [|attempt rest IH]; simpl.
  - apply halts_ret.
  - apply halts_bind; [|intros []; [apply halts_ret|done]].
    apply halts_try_except.
    + apply halts_bind; [apply tts_attempt_halts|intros _; apply halts_ret].
    + intros e k. unfold on_Exception. destruct (is_Exception e); [|done].
      intros [= <-].
      apply halts_bind; [|intros _; apply halts_ret].
      destruct (decide _); [apply halts_print|].
      apply halts_bind; [apply halts_print|intros _; apply sleep_halts].
Qed.

Lemma lookup_or_translate_halts (text : string) :
  halts (lookup_or_translate env text).
Proof.
  unfold lookup_or_translate.
  apply halts_bind; [by intros st|intros st0].
  destruct (dict_contains _ _).
  - destruct (dict_get _ _); [|apply halts_raise].
    apply halts_bind; [apply halts_print|intros _; apply halts_ret].
  - apply halts_bind; [apply halts_print|intros _].
    apply halts_bind; [apply halts_call|intros translation].
    apply halts_bind; [by intros st|intros _].
    apply halts_bind; [apply halts_print|intros _; apply halts_ret].
Qed.

Lemma iteration_handler_halts (e : exn) (k : M unit) :
  iteration_handler env e = Some k -> halts k.
Proof.
  destruct e; simpl; intros [= <-]; try apply halts_print;
    (apply halts_bind; [apply halts_print|intros _; apply sleep_halts]).
Qed.

Lemma iteration_halts : halts (iteration env source_lang target_lang).
Proof.
  unfold iteration. apply halts_try_except.
  - unfold iteration_body.
    apply halts_bind; [apply halts_call|intros a].
    apply halts_bind; [apply halts_print|intros _].
    apply halts_bind; [apply halts_call|intros text].
    apply halts_bind; [apply halts_print|intros _].
    apply halts_bind; [apply sleep_halts|intros _].
    apply halts_bind; [apply lookup_or_translate_halts|intros translation].
    apply text_to_speech_halts.
  - apply iteration_handler_halts.
Qed.

Lemma iteration_raises :
  raises_only (iteration env source_lang target_lang)
              (fun e => e = KeyboardInterrupt).
Proof.
  unfold iteration. apply raises_only_try_except. intros e.
  destruct e; simpl; try apply raises_only_print; try done;
    (apply raises_only_bind;
     [apply raises_only_print|intros _; apply sleep_raises]).
Qed.

(** No error of a pass other than Ctrl-C leaves the pass. *)
Lemma iteration_result (st : State) :
  (iteration env source_lang target_lang st).1 = Val tt \/
  (iteration env source_lang target_lang st).1 = Exn KeyboardInterrupt.
Proof.
  pose proof (iteration_halts st) as Hh.
  pose proof (iteration_raises st) as Hr.
  destruct (iteration env source_lang target_lang st).1 as [[]|e|];
    [by left| |done].
  right. by rewrite (Hr e).
Qed.

(** Every pass listens exactly once, at its start. *)
Lemma iteration_listens (st : State) :
  exists l,
    log (iteration env source_lang target_lang st).2 =
      log st ++ EvListen 5 10 (env_listen env (tick st)) :: l /\
    Forall after_listen_event l.
Proof.
  assert (Htail : emits after_listen_event
            (emit (EvListen 5 10 (env_listen env (tick st))) st)
            (iteration env source_lang target_lang st).2).
  { unfold iteration. apply emits_try_except_tail.
    - unfold iteration_body.
      replace (emit (EvListen 5 10 (env_listen env (tick st))) st)
        with (call (env_listen env) (EvListen 5 10) st).2
        by (unfold call; by destruct (env_listen env (tick st))).
      apply emits_bind_tail. intros a.
      eff effect_bind; [|intros _].
      { eff effect_print. intros s. by apply emits_emit. }
      eff effect_bind; [|intros text].
      { eff effect_call. intros o s. by apply emits_emit. }
      eff effect_bind; [|intros _].
      { eff effect_print. intros s. by apply emits_emit. }
      eff effect_bind; [|intros _].
      { by apply sleep_emits. }
      eff effect_bind; [|intros translation].
      { apply lookup_or_translate_effect; [typeclasses eauto|..];
          intros; try (by apply emits_emit); by apply emits_same_log. }
      intros s. eapply emits_weaken; [|apply text_to_speech_emits].
      intros e He. by destruct e.
    - intros e k Hk.
      destruct e; simpl in Hk; try discriminate Hk;
        injection Hk as <-;
        try (eff effect_print; intros s; by apply emits_emit);
        (eff effect_bind; [|intros _];
         [eff effect_print; intros s; by apply emits_emit
         |by apply sleep_emits]). }
  destruct Htail as (l & Hl & HP). exists l. split; [|done].
  by rewrite Hl, log_emit, <- app_assoc.
Qed.

Lemma after_listen_not_listen (l : list event) :
  Forall after_listen_event l -> count_events is_listen l = 0%nat.
Proof.
  intros H. apply count_events_none. eapply Forall_impl; [exact H|].
  intros e He. by destruct e.
Qed.

(** The loop is left by Ctrl-C only; while it is not, it has listened
    once in every pass. *)
Lemma loop_result (fuel : nat) :
  forall st : State,
    exists l,
      log (loop env source_lang target_lang fuel st).2 = log st ++ l /\
      ((loop env source_lang target_lang fuel st).1 = Running /\
       count_events is_listen l = fuel
       \/
       (loop env source_lang target_lang fuel st).1 = Exn KeyboardInterrupt /\
       (count_events is_listen l <= fuel)%nat).
Proof.
  induction fuel as [|n IH]; intros st.
  - exists []. simpl. rewrite app_nil_r. split; [done|]. by left.
  - simpl. destruct (iteration_listens st) as (l1 & Hl1 & Hq1).
    apply after_listen_not_listen in Hq1.
    destruct (iteration_result st) as [Hr|Hr];
      destruct (iteration env source_lang target_lang st) as [r s1] eqn:Hit;
      simpl in Hr, Hl1; subst r.
    + rewrite (bind_val _ _ _ _ _ Hit).
      destruct (IH s1) as (l2 & Hl2 & Hres).
      exists (EvListen 5 10 (env_listen env (tick st)) :: l1 ++ l2).
      split; [by rewrite Hl2, Hl1, <- app_assoc|].
      simpl. rewrite count_events_app, Hq1.
      destruct Hres as [[-> <-]|[-> Hle]]; [by left|right].
      split; [done|]. simpl. lia.
    + rewrite (bind_exn _ _ _ _ _ Hit).
      exists (EvListen 5 10 (env_listen env (tick st)) :: l1).
      split; [done|]. right. split; [done|]. simpl. rewrite Hq1. lia.
Qed.

(** What the [except] clauses do with the exception of a pass. *)
Lemma iteration_timeout (st s1 : State) :
  iteration_body env source_lang target_lang st
    = (Exn WaitTimeoutError, s1) ->
  iteration env source_lang target_lang st = (Val tt, emit (EvPrint MsgDot) s1).
Proof. intros H. unfold iteration. by rewrite (try_except_caught _ _ _ _ _ _ H eq_refl). Qed.

Lemma iteration_unintelligible (st s1 : State) :
  iteration_body env source_lang target_lang st
    = (Exn UnknownValueError, s1) ->
  iteration env source_lang target_lang st
    = (Val tt, emit (EvPrint MsgNotUnderstood) s1).
Proof. intros H. unfold iteration. by rewrite (try_except_caught _ _ _ _ _ _ H eq_refl). Qed.

Lemma iteration_request_error (st s1 : State) (msg : string) :
  iteration_body env source_lang target_lang st
    = (Exn (RequestError msg), s1) ->
  iteration env source_lang target_lang st
    = (Val tt, emit (EvPrint (MsgRecognitionError (RequestError msg))) s1).
Proof. intros H. unfold iteration. by rewrite (try_except_caught _ _ _ _ _ _ H eq_refl). Qed.

Lemma iteration_unclassified (st s1 : State) (e : exn) :
  iteration_body env source_lang target_lang st = (Exn e, s1) ->
  unclassified e = true ->
  iteration env source_lang target_lang st
    = sleep env 1000 (emit (EvPrint (MsgUnexpected e)) s1).
Proof.
  intros H He. unfold iteration.
  rewrite (try_except_caught _ _ _ _ _
             (print (MsgUnexpected e) ;; sleep env 1000) H)
    by (by destruct e).
  by rewrite (bind_val _ _ _ (emit (EvPrint (MsgUnexpected e)) s1) tt).
Qed.

Lemma iteration_body_listen_raises (st : State) (e : exn) :
  env_listen env (tick st) = Raise e ->
  iteration_body env source_lang target_lang st
    = (Exn e, emit (EvListen 5 10 (Raise e)) st).
Proof.
  intros H. unfold iteration_body.
  by rewrite (bind_exn _ _ _ _ _ (call_raise _ _ _ _ H)).
Qed.

Lemma iteration_body_recognize_raises (st : State) (a : audio) (e : exn) :
  env_listen env (tick st) = Ok a ->
  env_recognize env (S (S (tick st))) a source_lang = Raise e ->
  iteration_body env source_lang target_lang st
    = (Exn e,
       emit (EvRecognize a source_lang (Raise e))
            (emit (EvPrint MsgProcessing) (emit (EvListen 5 10 (Ok a)) st))).
Proof.
  intros Hl Hr. unfold iteration_body.
  rewrite (bind_val _ _ _ _ _ (call_ok _ _ _ _ Hl)).
  rewrite (bind_val _ _ _ (emit (EvPrint MsgProcessing)
                             (emit (EvListen 5 10 (Ok a)) st)) tt) by done.
  rewrite (bind_exn _ _ _ (emit (EvRecognize a source_lang (Raise e))
                             (emit (EvPrint MsgProcessing)
                                (emit (EvListen 5 10 (Ok a)) st))) e);
    [done|].
  apply call_raise. by rewrite !tick_emit.
Qed.

End Loop.

Lemma emits_count_none (P : event -> Prop) (f : event -> bool)
    (st st' : State) :
  emits P st st' ->
  (forall e, P e -> f e = false) ->
  exists l, log st' = log st ++ l /\ count_events f l = 0%nat.
Proof.
  intros (l & Hl & HP) Hf. exists l. split; [done|].
  apply count_events_none. eapply Forall_impl; [exact HP|done].
Qed.

Section SessionOutcome.
Variable env : Env.
Variables source_lang target_lang : string.

Lemma cleanup_one_glob (st : State) :
  exists l,
    log (cleanup env st).2 = log st ++ l /\
    count_events is_glob l = 1%nat /\
    ((cleanup env st).1 = Val tt \/
     (cleanup env st).1 = Exn KeyboardInterrupt).
Proof.
  set (now := env_time env (tick st)).
  set (names := filter (fun name => ends_with ".mp3" name = true)
                       (map_to_list (cache_dir_files st)).*1).
  set (s2 := emit (EvGlob names) (emit (EvTime now) st)).
  assert (Hrun : cleanup env st = for_each names (cleanup_file env now) s2).
  { unfold cleanup.
    rewrite (bind_val _ _ st (emit (EvTime now) st) now) by done.
    by rewrite (bind_val _ _ _ s2 names). }
  assert (Hloop : effect (for_each names (cleanup_file env now))
                         (emits unlink_event)).
  { eff effect_for_each. intros file. unfold cleanup_file.
    eff effect_bind; [|intros mtime].
    { intros s. unfold stat_mtime. by destruct (_ !! _). }
    eff effect_if; [|by eff effect_ret].
    eff effect_try_except.
    - intros s. unfold unlink.
      destruct (env_unlink _ _ _); simpl;
        eexists [_]; (split; [done|by apply Forall_singleton]).
    - intros e k. unfold on_Exception. destruct (is_Exception e); [|done].
      intros [= <-]. by eff effect_ret. }
  destruct (emits_count_none _ is_glob _ _ (Hloop s2)) as (l & Hl & Hc).
  { intros e He. by destruct e. }
  destruct (cleanup_loop_spec env now names s2 (glob_listing_NoDup _))
    as (l' & _ & _ & _ & Hres).
  { intros f Hf. by apply glob_listing in Hf as [_ Hf]. }
  rewrite <- Hrun in Hl, Hres.
  exists (EvTime now :: EvGlob names :: l).
  split; [by rewrite Hl; unfold s2; rewrite !log_emit, <- !app_assoc|].
  split; [simpl; by rewrite Hc|].
  destruct (cleanup env st).1 as [[]|e|]; [by left| |done].
  right. f_equal. apply Hres.
Qed.

(** What happens between the opening of the microphone and its
    closing. *)
Lemma session_body_outcome (fuel : nat) (st : State) :
  exists l,
    log ((adjust_for_ambient_noise env ;;
          print (MsgListening source_lang) ;;
          print MsgPressCtrlC ;;
          loop env source_lang target_lang fuel) st).2 = log st ++ l /\
    count_events is_glob l = 0%nat /\
    (((adjust_for_ambient_noise env ;;
       print (MsgListening source_lang) ;;
       print MsgPressCtrlC ;;
       loop env source_lang target_lang fuel) st).1 = Running \/
     ((adjust_for_ambient_noise env ;;
       print (MsgListening source_lang) ;;
       print MsgPressCtrlC ;;
       loop env source_lang target_lang fuel) st).1
       = Exn KeyboardInterrupt).
Proof.
  destruct (emits_count_none _ is_glob _ _ (adjust_emits env st))
    as (l1 & Hl1 & Hc1).
  { intros e He. by destruct e. }
  destruct (adjust_spec env st) as (lp & _ & _ & _ & Hcases).
  destruct (adjust_for_ambient_noise env st) as [ra s1] eqn:Hadj.
  simpl in Hl1, Hcases.
  assert (ra = Val tt \/ ra = Exn KeyboardInterrupt) as [-> | ->].
  { destruct Hcases as [(Hr & _)|[(e & _ & Hr & _)|(Hr & _)]]; auto. }
  - rewrite (bind_val _ _ _ _ _ Hadj).
    rewrite (bind_val _ _ _ (emit (EvPrint (MsgListening source_lang)) s1) tt)
      by done.
    rewrite (bind_val _ _ _ (emit (EvPrint MsgPressCtrlC)
                               (emit (EvPrint (MsgListening source_lang)) s1))
               tt) by done.
    set (s3 := emit (EvPrint MsgPressCtrlC)
                    (emit (EvPrint (MsgListening source_lang)) s1)).
    destruct (emits_count_none _ is_glob _ _
                (loop_emits env source_lang target_lang fuel s3))
      as (l3 & Hl3 & Hc3).
    { intros e He. by destruct e. }
    destruct (loop_result env source_lang target_lang fuel s3)
      as (l' & _ & Hres).
    exists (l1 ++ [EvPrint (MsgListening source_lang); EvPrint MsgPressCtrlC]
               ++ l3).
    split.
    { rewrite Hl3. unfold s3. rewrite !log_emit, Hl1, <- !app_assoc. done. }
    split; [rewrite !count_events_app, Hc1, Hc3; done|].
    destruct Hres as [[-> _]|[-> _]]; auto.
  - rewrite (bind_exn _ _ _ _ _ Hadj). exists l1. auto.
Qed.

(** The session, once the microphone has been opened: still in the loop
    and not swept, or stopped by Ctrl-C and swept once. *)
Lemma session_outcome (fuel : nat) (st : State) :
  env_mic_open env (tick st) = Ok tt ->
  exists l,
    log (listen_and_translate env source_lang target_lang fuel st).2
      = log st ++ l /\
    ((listen_and_translate env source_lang target_lang fuel st).1 = Running /\
     count_events is_glob l = 0%nat
     \/
     ((listen_and_translate env source_lang target_lang fuel st).1 = Val tt \/
      (listen_and_translate env source_lang target_lang fuel st).1
        = Exn KeyboardInterrupt) /\
     count_events is_glob l = 1%nat /\
     EvPrint MsgStopped ∈ l).
Proof.
  intros Hmic. unfold listen_and_translate.
  set (body := adjust_for_ambient_noise env ;;
               print (MsgListening source_lang) ;;
               print MsgPressCtrlC ;;
               loop env source_lang target_lang fuel).
  set (s0 := emit (EvMicOpen (Ok tt)) st).
  destruct (session_body_outcome fuel s0) as (lb & Hlb & Hgb & Hrb).
  fold body in Hlb, Hrb.
  destruct (body s0) as [rb sb] eqn:Hbody. simpl in Hlb, Hrb.
  rewrite <- app_assoc in Hlb. simpl in Hlb.
  destruct Hrb as [-> | ->].
  - (* still in the loop *)
    assert (Hw : with_microphone env body st = (Running, sb)).
    { rewrite (with_microphone_opened _ _ _ Hmic).
      by apply finally_running. }
    rewrite (finally_running _ _ _ sb)
      by (by apply try_except_running).
    exists (EvMicOpen (Ok tt) :: lb). split; [done|]. left.
    split; [done|]. done.
  - (* Ctrl-C *)
    assert (Hw : with_microphone env body st
                 = (Exn KeyboardInterrupt, emit EvMicClose sb)).
    { rewrite (with_microphone_opened _ _ _ Hmic).
      by rewrite (finally_done _ _ _ _ _ Hbody). }
    set (sc := emit (EvPrint MsgStopped) (emit EvMicClose sb)).
    assert (Ht : try_except (with_microphone env body)
                   (fun e => if is_KeyboardInterrupt e
                             then Some (print MsgStopped) else None) st
                 = (Val tt, sc)).
    { by rewrite (try_except_caught _ _ _ _ _ (print MsgStopped) Hw). }
    rewrite (finally_done _ _ _ _ _ Ht) by done.
    destruct (cleanup_one_glob sc) as (lc & Hlc & Hgc & Hrc).
    exists (EvMicOpen (Ok tt) :: lb ++ [EvMicClose; EvPrint MsgStopped] ++ lc).
    assert (Hlog : log (cleanup env sc).2
                   = log st ++ EvMicOpen (Ok tt)
                       :: lb ++ [EvMicClose; EvPrint MsgStopped] ++ lc).
    { rewrite Hlc. unfold sc. rewrite !log_emit, Hlb, <- !app_assoc. done. }
    assert (Hcount : count_events is_glob
                       (EvMicOpen (Ok tt)
                          :: lb ++ [EvMicClose; EvPrint MsgStopped] ++ lc)
                     = 1%nat).
    { change (count_events is_glob
                ([EvMicOpen (Ok tt)] ++ lb
                   ++ [EvMicClose; EvPrint MsgStopped] ++ lc) = 1%nat).
      rewrite !count_events_app, Hgb, Hgc. done. }
    assert (Hin : EvPrint MsgStopped
                    ∈ EvMicOpen (Ok tt)
                        :: lb ++ [EvMicClose; EvPrint MsgStopped] ++ lc).
    { rewrite elem_of_cons, !elem_of_app, !elem_of_cons. tauto. }
    destruct (cleanup env sc) as [[[]|e|] s2]; simpl in *.
    + split; [done|]. right. auto.
    + split; [done|]. right. destruct Hrc as [Hrc|Hrc]; [done|].
      injection Hrc as ->. auto.
    + by destruct Hrc.
Qed.

End SessionOutcome.

Lemma sleep_run (env : Env) (ms : Z) (st : State) :
  sleep env ms st =
    (if env_sleep_interrupted env (tick st)
     then Exn KeyboardInterrupt else Val tt,
     emit (EvSleep ms (sleep_outcome (env_sleep_interrupted env (tick st))))
          st).
Proof.
  unfold sleep, call. by destruct (env_sleep_interrupted env (tick st)).
Qed.

(** C7.  Errors of a pass of the loop stay in the loop.
    - A pass ends normally or by Ctrl-C, whatever the outside world does;
      so the loop is left by Ctrl-C only, and as long as it is not, every
      pass listens again.
    - A capture timeout prints a dot and nothing else; unintelligible
      audio and a recognition-service error are reported; any other
      exception is reported and followed by a pause of one second.  In
      each case the pass ends normally.
    - Once the microphone is open, [listen_and_translate] is either still
      in the loop, and has not swept the cache directory, or it was
      stopped by Ctrl-C, has said so, and has swept exactly once. *)
Theorem session_loop_contains_errors :
  forall (env : Env) (source_lang target_lang : string),
    (forall st : State,
       (iteration env source_lang target_lang st).1 = Val tt \/
       (iteration env source_lang target_lang st).1 = Exn KeyboardInterrupt) /\
    (forall (fuel : nat) (st : State),
       let res := loop env source_lang target_lang fuel st in
       let l := new_events st res.2 in
       res.1 = Running /\ count_events is_listen l = fuel \/
       res.1 = Exn KeyboardInterrupt /\
       (count_events is_listen l <= fuel)%nat) /\
    (forall st : State,
       env_listen env (tick st) = Raise WaitTimeoutError ->
       iteration env source_lang target_lang st =
         (Val tt,
          emit (EvPrint MsgDot)
               (emit (EvListen 5 10 (Raise WaitTimeoutError)) st))) /\
    (forall st s1 : State,
       iteration_body env source_lang target_lang st
         = (Exn UnknownValueError, s1) ->
       iteration env source_lang target_lang st
         = (Val tt, emit (EvPrint MsgNotUnderstood) s1)) /\
    (forall (st s1 : State) (msg : string),
       iteration_body env source_lang target_lang st
         = (Exn (RequestError msg), s1) ->
       iteration env source_lang target_lang st
         = (Val tt,
            emit (EvPrint (MsgRecognitionError (RequestError msg))) s1)) /\
    (forall (st s1 : State) (e : exn),
       iteration_body env source_lang target_lang st = (Exn e, s1) ->
       unclassified e = true ->
       iteration env source_lang target_lang st =
         (if env_sleep_interrupted env (S (tick s1))
          then Exn KeyboardInterrupt else Val tt,
          emit (EvSleep 1000
                  (sleep_outcome (env_sleep_interrupted env (S (tick s1)))))
               (emit (EvPrint (MsgUnexpected e)) s1))) /\
    (forall (fuel : nat) (st : State),
       env_mic_open env (tick st) = Ok tt ->
       let res := listen_and_translate env source_lang target_lang fuel st in
       let l := new_events st res.2 in
       res.1 = Running /\ count_events is_glob l = 0%nat \/
       (res.1 = Val tt \/ res.1 = Exn KeyboardInterrupt) /\
       count_events is_glob l = 1%nat /\
       EvPrint MsgStopped ∈ l).
Proof.
  intros env source_lang target_lang. repeat apply conj.
  - apply iteration_result.
  - intros fuel st. simpl.
    destruct (loop_result env source_lang target_lang fuel st)
      as (l & Hl & Hres).
    by rewrite (new_events_app _ _ _ Hl).
  - intros st H. apply iteration_timeout.
    by apply iteration_body_listen_raises.
  - apply iteration_unintelligible.
  - apply iteration_request_error.
  - intros st s1 e H He.
    rewrite (iteration_unclassified _ _ _ _ _ _ H He), sleep_run.
    by rewrite tick_emit.
  - intros fuel st Hmic. simpl.
    destruct (session_outcome env source_lang target_lang fuel st Hmic)
      as (l & Hl & Hres).
    by rewrite (new_events_app _ _ _ Hl).
Qed.

Lemma session_loop_contains_errors_witness :
  (env_listen silence (tick empty_state) = Raise WaitTimeoutError /\
   iteration silence "en" "fr" empty_state =
     (Val tt,
      emit (EvPrint MsgDot)
           (emit (EvListen 5 10 (Raise WaitTimeoutError)) empty_state))) /\
  (let env := recogniser_raises UnknownValueError in
   iteration env "en" "fr" empty_state =
     (Val tt,
      emit (EvPrint MsgNotUnderstood)
           (iteration_body env "en" "fr" empty_state).2)) /\
  (let env := recogniser_raises (RequestError "no connection") in
   iteration env "en" "fr" empty_state =
     (Val tt,
      emit (EvPrint (MsgRecognitionError (RequestError "no connection")))
           (iteration_body env "en" "fr" empty_state).2)) /\
  (let env := recogniser_raises (OtherException "broken pipe") in
   unclassified (OtherException "broken pipe") = true /\
   iteration env "en" "fr" empty_state =
     (Val tt,
      emit (EvSleep 1000 (Ok tt))
           (emit (EvPrint (MsgUnexpected (OtherException "broken pipe")))
                 (iteration_body env "en" "fr" empty_state).2))) /\
  (let env := interrupted_after 20 calm_env in
   env_mic_open env (tick empty_state) = Ok tt /\
   (listen_and_translate env "en" "fr" 5 empty_state).1 = Val tt /\
   count_events is_glob
     (new_events empty_state
        (listen_and_translate env "en" "fr" 5 empty_state).2) = 1%nat).
Proof.
  split; [|split; [|split; [|split]]].
  - assert (H : env_listen silence (tick empty_state)
                = Raise WaitTimeoutError) by reflexivity.
    split; [exact H|].
    exact (proj1 (proj2 (proj2
             (session_loop_contains_errors silence "en" "fr")))
             empty_state H).
  - intros env.
    assert (H : iteration_body env "en" "fr" empty_state
                = (Exn UnknownValueError,
                   (iteration_body env "en" "fr" empty_state).2))
      by (vm_compute; reflexivity).
    exact (proj1 (proj2 (proj2 (proj2
             (session_loop_contains_errors env "en" "fr"))))
             empty_state _ H).
  - intros env.
    assert (H : iteration_body env "en" "fr" empty_state
                = (Exn (RequestError "no connection"),
                   (iteration_body env "en" "fr" empty_state).2))
      by (vm_compute; reflexivity).
    exact (proj1 (proj2 (proj2 (proj2 (proj2
             (session_loop_contains_errors env "en" "fr")))))
             empty_state _ _ H).
  - intros env.
    assert (H : iteration_body env "en" "fr" empty_state
                = (Exn (OtherException "broken pipe"),
                   (iteration_body env "en" "fr" empty_state).2))
      by (vm_compute; reflexivity).
    assert (He : unclassified (OtherException "broken pipe") = true)
      by reflexivity.
    split; [exact He|].
    exact (proj1 (proj2 (proj2 (proj2 (proj2 (proj2
             (session_loop_contains_errors env "en" "fr"))))))
             empty_state _ _ H He).
  - intros env.
    assert (Hmic : env_mic_open env (tick empty_state) = Ok tt)
      by reflexivity.
    split; [exact Hmic|].
    pose proof (proj2 (proj2 (proj2 (proj2 (proj2 (proj2
                  (session_loop_contains_errors env "en" "fr"))))))
                  5%nat empty_state Hmic) as H.
    assert (Hval : (listen_and_translate env "en" "fr" 5 empty_state).1
                   = Val tt) by (vm_compute; reflexivity).
    split; [exact Hval|].
    destruct H as [[Hrun _]|(_ & Hglob & _)]; [|exact Hglob].
    rewrite Hval in Hrun. discriminate Hrun.
Defined.

(** ** __init__ and main *)

Section Init.
Variable env : Env.
Variables source_lang target_lang : string.

(** The validation block of [__init__]. *)
Lemma init_run (st : State) :
  init env source_lang target_lang st =
    let s1 := emit (EvPrint MsgInitializing) st in
    match env_translator_new env (tick s1) source_lang target_lang with
    | Raise e =>
        (Exn (if is_Exception e then ValueError e else e),
         emit (EvTranslatorNew source_lang target_lang (Raise e)) s1)
    | Ok _ =>
        let s2 := emit (EvTranslatorNew source_lang target_lang (Ok tt)) s1 in
        match env_translate env (tick s2) "test" with
        | Raise e =>
            (Exn (if is_Exception e then ValueError e else e),
             emit (EvTranslate "test" (Raise e)) s2)
        | Ok r =>
            let s3 := emit (EvTranslate "test" (Ok r)) s2 in
            match env_mkdir env (tick s3) with
            | Raise e => (Exn e, emit (EvMkdir (Raise e)) s3)
            | Ok _ =>
                (Val tt,
                 emit (EvPrint MsgInitComplete)
                      (set_cache [] (emit (EvMkdir (Ok tt)) s3)))
            end
        end
    end.
Proof.
  unfold init, bind at 1, print at 1. simpl.
  unfold bind at 1, try_except, bind at 1, call at 1.
  destruct (env_translator_new _ _ _ _) as [[]|e]; simpl.
  - unfold bind at 1, call at 1.
    destruct (env_translate _ _ _) as [r|e]; simpl.
    + unfold bind at 1, call at 1.
      by destruct (env_mkdir _ _) as [[]|e].
    + unfold on_Exception. by destruct (is_Exception e).
  - unfold on_Exception. by destruct (is_Exception e).
Qed.

Lemma init_emits :
  effect (init env source_lang target_lang) (emits init_event).
Proof.
  unfold init.
  eff effect_bind; [|intros _].
  { eff effect_print. intros s. by apply emits_emit. }
  eff effect_bind; [|intros _].
  { eff effect_try_except.
    - eff effect_bind; [|intros _].
      { eff effect_call. intros o s. by apply emits_emit. }
      eff effect_bind; [|intros _; by eff effect_ret].
      eff effect_call. intros o s. by apply emits_emit.
    - intros e k. unfold on_Exception. destruct (is_Exception e); [|done].
      intros [= <-]. by eff effect_raise. }
  eff effect_bind; [|intros _].
  { eff effect_call. intros o s. by apply emits_emit. }
  eff effect_bind; [|intros _].
  { intros s. by apply emits_same_log. }
  eff effect_print. intros s. by apply emits_emit.
Qed.

(** When the construction fails, [main] reports it and does nothing
    else. *)
Lemma main_init_failed (fuel : nat) (st : State) :
  (init env source_lang target_lang st).1 <> Val tt ->
  emits init_event st (main env source_lang target_lang fuel st).2.
Proof.
  intros Hfail. unfold main.
  pose proof (init_emits st) as Hinit.
  destruct (init env source_lang target_lang st) as [[[]|e|] s1] eqn:Hi;
    simpl in *; [done| |].
  - unfold try_except. rewrite (bind_exn _ _ _ _ _ Hi).
    unfold on_Exception. destruct (is_Exception e); [|done].
    etrans; [exact Hinit|].
    assert (Hk : effect (print (MsgMainError e) ;; print MsgCheckLanguages)
                        (emits init_event)).
    { eff effect_bind; [|intros _]; eff effect_print;
        intros s; by apply emits_emit. }
    apply Hk.
  - unfold try_except. by rewrite (bind_running _ _ _ _ Hi).
Qed.

End Init.

(** C8 (as amended).  The construction probes the translator with the
    fixed string ["test"].  It succeeds exactly when the construction of
    the translator, the probe translation and the creation of the cache
    directory all succeed.  When the construction of the translator or the
    probe fails with an [Exception], the construction raises [ValueError].
    Whenever the construction fails, [main] never opens the microphone and
    never listens: the session loop does not start. *)
Theorem init_validates_translator :
  forall (env : Env) (source_lang target_lang : string) (st : State),
    let constructed :=
      env_translator_new env (S (tick st)) source_lang target_lang in
    let probe := env_translate env (S (S (tick st))) "test" in
    let directory := env_mkdir env (S (S (S (tick st)))) in
    ((init env source_lang target_lang st).1 = Val tt <->
     constructed = Ok tt /\ (exists r, probe = Ok r) /\ directory = Ok tt) /\
    (forall e,
       is_Exception e = true ->
       constructed = Raise e \/ constructed = Ok tt /\ probe = Raise e ->
       (init env source_lang target_lang st).1 = Exn (ValueError e)) /\
    (forall fuel : nat,
       (init env source_lang target_lang st).1 <> Val tt ->
       count_events is_mic_open
         (new_events st (main env source_lang target_lang fuel st).2)
         = 0%nat /\
       count_events is_listen
         (new_events st (main env source_lang target_lang fuel st).2)
         = 0%nat).
Proof.
  intros env source_lang target_lang st. simpl. split; [|split].
  - rewrite init_run. simpl. rewrite !tick_emit.
    destruct (env_translator_new _ _ _ _) as [[]|e1]; simpl.
    + destruct (env_translate _ _ _) as [r|e2]; simpl.
      * rewrite !tick_emit.
        destruct (env_mkdir _ _) as [[]|e3]; simpl.
        -- split; [|done]. intros _. split; [done|]. split; [by exists r|done].
        -- split; [done|]. intros (_ & _ & [=]).
      * split; [done|]. intros (_ & [r [=]] & _).
    + split; [done|]. intros ([=] & _).
  - intros e He Hcases. rewrite init_run. simpl. rewrite !tick_emit.
    destruct Hcases as [-> | [-> ->]]; simpl; by rewrite He.
  - intros fuel Hfail.
    pose proof (main_init_failed env source_lang target_lang fuel st Hfail)
      as Hm.
    apply emits_new_events in Hm as [_ Hm].
    split; apply count_events_none; (eapply Forall_impl; [exact Hm|]);
      intros e He; by destruct e.
Qed.

Lemma init_validates_translator_witness :
  (env_translator_new calm_env (S (tick empty_state)) "en" "fr" = Ok tt /\
   (exists r, env_translate calm_env (S (S (tick empty_state))) "test" = Ok r) /\
   env_mkdir calm_env (S (S (S (tick empty_state)))) = Ok tt /\
   (init calm_env "en" "fr" empty_state).1 = Val tt) /\
  (is_Exception (OtherException "LanguageNotSupported") = true /\
   (init unsupported_pair "en" "fr" empty_state).1
     = Exn (ValueError (OtherException "LanguageNotSupported"))) /\
  ((init unsupported_pair "en" "fr" empty_state).1 <> Val tt /\
   count_events is_mic_open
     (new_events empty_state (main unsupported_pair "en" "fr" 3 empty_state).2)
     = 0%nat).
Proof.
  assert (Hc : env_translator_new calm_env (S (tick empty_state)) "en" "fr"
               = Ok tt) by reflexivity.
  assert (Hp : exists r,
             env_translate calm_env (S (S (tick empty_state))) "test" = Ok r)
    by (by exists "bonjour").
  assert (Hd : env_mkdir calm_env (S (S (S (tick empty_state)))) = Ok tt)
    by reflexivity.
  assert (He : is_Exception (OtherException "LanguageNotSupported") = true)
    by reflexivity.
  assert (Hfail : (init unsupported_pair "en" "fr" empty_state).1 <> Val tt)
    by (vm_compute; discriminate).
  split; [|split].
  - split; [exact Hc|]. split; [exact Hp|]. split; [exact Hd|].
    exact (proj2 (proj1 (init_validates_translator calm_env "en" "fr"
                           empty_state))
             (conj Hc (conj Hp Hd))).
  - split; [exact He|].
    exact (proj1 (proj2 (init_validates_translator unsupported_pair "en" "fr"
                           empty_state))
             _ He (or_intror (conj eq_refl eq_refl))).
  - split; [exact Hfail|].
    exact (proj1 (proj2 (proj2 (init_validates_translator unsupported_pair
                                  "en" "fr" empty_state))
                    3%nat Hfail)).
Defined.

(** C8, counterexample.  The translator is constructed and the probe is
    translated, but [translation_cache] cannot be created: the
    construction fails. *)
Lemma init_fails_after_successful_probe :
  env_translator_new cache_dir_blocked (S (tick empty_state)) "en" "fr"
    = Ok tt /\
  env_translate cache_dir_blocked (S (S (tick empty_state))) "test"
    = Ok "bonjour" /\
  (init cache_dir_blocked "en" "fr" empty_state).1
    = Exn (OtherException "FileExistsError") /\
  (init cache_dir_blocked "en" "fr" empty_state).1 <> Val tt.
Proof.
  split; [reflexivity|]. split; [reflexivity|].
  split; [vm_compute; reflexivity|]. vm_compute. discriminate.
Qed.

(** ** Invariants of a session *)

#[local] Instance keeps_preorder (I : State -> Prop) : PreOrder (keeps I).
Proof. split; unfold keeps; [by intros st|]. intros s1 s2 s3; auto. Qed.

Lemma count_events_snoc (f : event -> bool) (l : list event) (e : event) :
  count_events f (l ++ [e]) =
    (count_events f l + if f e then 1 else 0)%nat.
Proof. rewrite count_events_app. simpl. lia. Qed.

(** A step that leaves the cache alone and calls no translator. *)
Lemma translations_inv_quiet (P : event -> Prop) (st0 st st' : State) :
  (forall e t, P e -> is_translate_of t e = false) ->
  emits P st st' -> same_cache st st' ->
  keeps (translations_inv st0) st st'.
Proof.
  intros HP (l' & Hl' & HPl) Hc (l & Hl & Hkeys & Hinv).
  exists (l ++ l'). split; [by rewrite Hl', Hl, <- app_assoc|].
  rewrite Hc. split; [done|]. intros t.
  destruct (Hinv t) as (H0 & Hnone & Hle).
  assert (Hq : count_events (is_translate_of t) l' = 0%nat).
  { apply count_events_none. eapply Forall_impl; [exact HPl|].
    intros e He. by apply HP. }
  assert (Hq' : count_events (is_translation_of t) l' = 0%nat).
  { apply count_events_none. eapply Forall_impl; [exact HPl|].
    intros e He. specialize (HP e t He). by destruct e as [| ? []| | | | | | | | | | | | | |]. }
  rewrite !count_events_app, Hq, Hq'.
  repeat split; intros; rewrite ?Nat.add_0_r; auto.
Qed.

Lemma translations_inv_emit (st0 st : State) (e : event) :
  (forall t, is_translate_of t e = false) ->
  keeps (translations_inv st0) st (emit e st).
Proof.
  intros He. apply (translations_inv_quiet (fun x => x = e)).
  - by intros x t ->.
  - by apply emits_emit.
  - done.
Qed.

Section Translations.
Variable env : Env.
Variables source_lang target_lang : string.

(** Lines 63-65: a hit. *)
Lemma lookup_hit (text : string) (st : State) (v : string) :
  dict_get text (translation_cache st) = Some v ->
  text ∈ (translation_cache st).*1 ->
  lookup_or_translate env text st = (Val v, emit (EvPrint (MsgCached v)) st).
Proof.
  intros Hget Hin. unfold lookup_or_translate.
  rewrite (bind_val _ _ st st st) by done.
  apply dict_contains_spec in Hin. rewrite Hin, Hget.
  by rewrite (bind_val _ _ st (emit (EvPrint (MsgCached v)) st) tt).
Qed.

(** Lines 66-70: a miss. *)
Lemma lookup_miss (text : string) (st : State) :
  text ∉ (translation_cache st).*1 ->
  lookup_or_translate env text st =
    let s1 := emit (EvPrint MsgTranslating) st in
    match env_translate env (tick s1) text with
    | Ok r =>
        (Val r,
         emit (EvPrint (MsgTranslation r))
              (set_cache (dict_set text r (translation_cache st))
                         (emit (EvTranslate text (Ok r)) s1)))
    | Raise e => (Exn e, emit (EvTranslate text (Raise e)) s1)
    end.
Proof.
  intros Hnin. unfold lookup_or_translate.
  rewrite (bind_val _ _ st st st) by done.
  apply dict_contains_false in Hnin. rewrite Hnin.
  rewrite (bind_val _ _ st (emit (EvPrint MsgTranslating) st) tt) by done.
  simpl. unfold bind at 1, call.
  by destruct (env_translate _ _ _).
Qed.

Lemma lookup_or_translate_inv (st0 : State) (text : string) :
  effect (lookup_or_translate env text) (keeps (translations_inv st0)).
Proof.
  intros st Hinv.
  destruct (decide (text ∈ (translation_cache st).*1)) as [Hin|Hnin].
  - destruct (dict_get_is_Some _ _ Hin) as [v Hv].
    rewrite (lookup_hit _ _ _ Hv Hin). simpl.
    by apply translations_inv_emit.
  - rewrite (lookup_miss _ _ Hnin). simpl.
    destruct Hinv as (l & Hl & Hkeys & Hinv).
    assert (Hfresh : forall t, t ∈ (translation_cache st0).*1 -> t <> text).
    { intros t Ht ->. by apply Hnin, Hkeys. }
    destruct (env_translate _ _ _) as [r|e]; simpl.
    + exists (l ++ [EvPrint MsgTranslating; EvTranslate text (Ok r);
                    EvPrint (MsgTranslation r)]).
      split; [by simpl; rewrite Hl, <- !app_assoc|].
      split.
      { intros t Ht. apply dict_set_keys. right. by apply Hkeys. }
      intros t. destruct (Hinv t) as (H0 & Hnone & Hle).
      rewrite !count_events_app. simpl.
      destruct (decide (text = t)) as [->|Hne].
      * rewrite !bool_decide_eq_true_2 by done.
        rewrite (Hnone Hnin). split; [|split; [|lia]].
        -- intros Ht. by destruct (Hfresh t Ht).
        -- intros Ht. exfalso. apply Ht, dict_set_keys. by left.
      * rewrite !bool_decide_eq_false_2 by done.
        rewrite !Nat.add_0_r. split; [done|]. split; [|done].
        intros Ht. apply Hnone. intros Hin. apply Ht, dict_set_keys.
        by right.
    + exists (l ++ [EvPrint MsgTranslating; EvTranslate text (Raise e)]).
      split; [by simpl; rewrite Hl, <- !app_assoc|].
      split; [done|].
      intros t. destruct (Hinv t) as (H0 & Hnone & Hle).
      rewrite !count_events_app. simpl. rewrite !Nat.add_0_r.
      split; [|done].
      intros Ht. rewrite (H0 Ht).
      rewrite bool_decide_eq_false_2; [done|].
      intros ->. by destruct (Hfresh t Ht).
Qed.

Lemma quiet_step_inv {A} (st0 : State) (m : M A) (P : event -> Prop) :
  (forall e t, P e -> is_translate_of t e = false) ->
  effect m (emits P) -> effect m same_cache ->
  effect m (keeps (translations_inv st0)).
Proof.
  intros HP He Hc st. eapply translations_inv_quiet; [exact HP|apply He|apply Hc].
Qed.

Lemma iteration_handler_inv (st0 : State) (e : exn) (k : M unit) :
  iteration_handler env e = Some k ->
  effect k (keeps (translations_inv st0)).
Proof.
  intros Hk.
  destruct e; simpl in Hk; try discriminate Hk; injection Hk as <-;
    try (eff effect_print; intros s; by apply translations_inv_emit);
    (eff effect_bind; [|intros _];
     [eff effect_print; intros s; by apply translations_inv_emit
     |eff effect_call; intros o s; by apply translations_inv_emit]).
Qed.

Lemma iteration_inv (st0 : State) :
  effect (iteration env source_lang target_lang)
         (keeps (translations_inv st0)).
Proof.
  unfold iteration. eff effect_try_except; [|apply iteration_handler_inv].
  unfold iteration_body.
  eff effect_bind; [|intros a].
  { eff effect_call. intros o s. by apply translations_inv_emit. }
  eff effect_bind; [|intros _].
  { eff effect_print. intros s. by apply translations_inv_emit. }
  eff effect_bind; [|intros text].
  { eff effect_call. intros o s. by apply translations_inv_emit. }
  eff effect_bind; [|intros _].
  { eff effect_print. intros s. by apply translations_inv_emit. }
  eff effect_bind; [|intros _].
  { eff effect_call. intros o s. by apply translations_inv_emit. }
  eff effect_bind; [apply lookup_or_translate_inv|intros translation].
  apply (quiet_step_inv _ _ tts_event);
    [|apply text_to_speech_emits|apply text_to_speech_same_cache].
  intros e t He. by destruct e.
Qed.

Lemma loop_inv (st0 : State) (fuel : nat) :
  effect (loop env source_lang target_lang fuel)
         (keeps (translations_inv st0)).
Proof.
  induction fuel as [|n IH]; simpl.
  - by eff effect_running.
  - eff effect_bind; [apply iteration_inv|done].
Qed.

Lemma listen_and_translate_inv (st0 : State) (fuel : nat) :
  effect (listen_and_translate env source_lang target_lang fuel)
         (keeps (translations_inv st0)).
Proof.
  unfold listen_and_translate. eff effect_finally.
  - eff effect_try_except.
    + unfold with_microphone. eff effect_bind; [|intros _].
      { eff effect_call. intros o s. by apply translations_inv_emit. }
      eff effect_finally; [|intros s; by apply translations_inv_emit].
      eff effect_bind; [|intros _].
      { apply (quiet_step_inv _ _ calibration_event);
          [|apply adjust_emits|apply adjust_same_cache].
        intros e t He. by destruct e. }
      eff effect_bind; [|intros _].
      { eff effect_print. intros s. by apply translations_inv_emit. }
      eff effect_bind; [|intros _; apply loop_inv].
      eff effect_print. intros s. by apply translations_inv_emit.
    + intros e k. destruct (is_KeyboardInterrupt e); [|done].
      intros [= <-]. eff effect_print. intros s.
      by apply translations_inv_emit.
  - apply (quiet_step_inv _ _ sweep_event);
      [|apply cleanup_emits|apply cleanup_same_cache].
    intros e t He. by destruct e.
Qed.

End Translations.

Lemma translations_inv_start (st : State) : translations_inv st st.
Proof.
  exists []. rewrite app_nil_r. split; [done|]. split; [done|].
  intros t. simpl. repeat split; auto.
Qed.

(** C1 (as amended).  The recognised text is looked up in the translation
    cache by string equality.
    - If it is a key, its cached translation is used: the translator is
      not called and neither the cache nor the files change.
    - If it is not and the translator answers, the answer is stored under
      that very text, as the newest entry, before the loop goes on.
    - If it is not and the translator fails, nothing is stored (so the
      next occurrence of the text calls the translator again).
    - Hence, in a session, the translator returns a translation for one
      and the same text at most once, and is not called at all for a text
      that was in the cache when the session started. *)
Theorem translation_looked_up_before_translating :
  forall (env : Env) (source_lang target_lang : string),
    (forall (text : string) (st : State),
       text ∈ (translation_cache st).*1 ->
       exists v,
         dict_get text (translation_cache st) = Some v /\
         lookup_or_translate env text st
           = (Val v, emit (EvPrint (MsgCached v)) st)) /\
    (forall (text : string) (st : State) (r : string),
       text ∉ (translation_cache st).*1 ->
       env_translate env (S (tick st)) text = Ok r ->
       lookup_or_translate env text st =
         (Val r,
          emit (EvPrint (MsgTranslation r))
               (set_cache (translation_cache st ++ [(text, r)])
                  (emit (EvTranslate text (Ok r))
                        (emit (EvPrint MsgTranslating) st)))) /\
       dict_get text (translation_cache st ++ [(text, r)]) = Some r) /\
    (forall (text : string) (st : State) (e : exn),
       text ∉ (translation_cache st).*1 ->
       env_translate env (S (tick st)) text = Raise e ->
       lookup_or_translate env text st =
         (Exn e,
          emit (EvTranslate text (Raise e))
               (emit (EvPrint MsgTranslating) st))) /\
    (forall (fuel : nat) (st : State) (text : string),
       let l :=
         new_events st
           (listen_and_translate env source_lang target_lang fuel st).2 in
       (count_events (is_translation_of text) l <= 1)%nat /\
       (text ∈ (translation_cache st).*1 ->
        count_events (is_translate_of text) l = 0%nat)) /\
    (forall (text : string) (d : dict),
       dict_contains text d = true <-> exists v, (text, v) ∈ d) /\
    dict_contains "Hello" [("hello", "bonjour")] = false /\
    dict_contains "hello " [("hello", "bonjour")] = false.
Proof.
  intros env source_lang target_lang.
  split; [|split; [|split; [|split; [|split; [|split]]]]].
  - intros text st Hin. destruct (dict_get_is_Some _ _ Hin) as [v Hv].
    exists v. split; [done|]. by apply lookup_hit.
  - intros text st r Hnin Hr.
    rewrite (lookup_miss _ _ _ Hnin). simpl. rewrite tick_emit, Hr.
    rewrite (dict_set_fresh _ _ _ Hnin). split; [done|].
    rewrite <- (dict_set_fresh _ _ _ Hnin). apply dict_get_set_eq.
  - intros text st e Hnin He.
    rewrite (lookup_miss _ _ _ Hnin). simpl. by rewrite tick_emit, He.
  - intros fuel st text. simpl.
    destruct (listen_and_translate_inv env source_lang target_lang st fuel st
                (translations_inv_start st))
      as (l & Hl & _ & Hinv).
    rewrite (new_events_app _ _ _ Hl).
    destruct (Hinv text) as (H0 & _ & Hle). done.
  - intros text d. rewrite dict_contains_spec, list_elem_of_fmap. split.
    + intros ([k v] & -> & Hin). by exists v.
    + intros [v Hin]. by exists (text, v).
  - done.
  - done.
Qed.

Lemma translation_looked_up_before_translating_witness :
  ("hello" ∈ (translation_cache hello_cached).*1 /\
   lookup_or_translate calm_env "hello" hello_cached
     = (Val "bonjour", emit (EvPrint (MsgCached "bonjour")) hello_cached) /\
   count_events (is_translate_of "hello")
     (new_events hello_cached
        (listen_and_translate calm_env "en" "fr" 3 hello_cached).2) = 0%nat) /\
  (("hello" ∉ (translation_cache empty_state).*1) /\
   env_translate calm_env (S (tick empty_state)) "hello" = Ok "bonjour" /\
   (lookup_or_translate calm_env "hello" empty_state).1 = Val "bonjour" /\
   translation_cache (lookup_or_translate calm_env "hello" empty_state).2
     = [("hello", "bonjour")]) /\
  (env_translate (translator_fails_before 5) (S (tick empty_state)) "hello"
     = Raise (OtherException "timed out") /\
   lookup_or_translate (translator_fails_before 5) "hello" empty_state
     = (Exn (OtherException "timed out"),
        emit (EvTranslate "hello" (Raise (OtherException "timed out")))
             (emit (EvPrint MsgTranslating) empty_state))).
Proof.
  assert (Hin : "hello" ∈ (translation_cache hello_cached).*1)
    by (simpl; by left).
  assert (Hnin : "hello" ∉ (translation_cache empty_state).*1)
    by (simpl; apply not_elem_of_nil).
  assert (Hok : env_translate calm_env (S (tick empty_state)) "hello"
                = Ok "bonjour") by reflexivity.
  assert (Hfail : env_translate (translator_fails_before 5)
                    (S (tick empty_state)) "hello"
                  = Raise (OtherException "timed out")) by reflexivity.
  split; [|split].
  - split; [exact Hin|].
    destruct (proj1 (translation_looked_up_before_translating calm_env
                       "en" "fr") "hello" hello_cached Hin)
      as (v & Hv & Hrun).
    injection Hv as <-. split; [exact Hrun|].
    exact (proj2 (proj1 (proj2 (proj2 (proj2
             (translation_looked_up_before_translating calm_env "en" "fr"))))
             3%nat hello_cached "hello") Hin).
  - split; [exact Hnin|]. split; [exact Hok|].
    destruct (proj1 (proj2 (translation_looked_up_before_translating calm_env
                              "en" "fr"))
                "hello" empty_state "bonjour" Hnin Hok) as [Hrun _].
    rewrite Hrun. split; reflexivity.
  - split; [exact Hfail|].
    exact (proj1 (proj2 (proj2 (translation_looked_up_before_translating
                                  (translator_fails_before 5) "en" "fr")))
             "hello" empty_state _ Hnin Hfail).
Defined.

(** C1, counterexample.  The translator times out when ["hello"] is first
    recognised; the text is not cached, and the translator is called again
    when ["hello"] is recognised the second time: two calls for the same
    text in one session. *)
Lemma translator_called_twice_for_one_text :
  count_events (is_translate_of "hello")
    (new_events empty_state
       (listen_and_translate (translator_fails_before 20) "en" "fr" 2
          empty_state).2) = 2%nat /\
  ~ ((count_events (is_translate_of "hello")
        (new_events empty_state
           (listen_and_translate (translator_fails_before 20) "en" "fr" 2
              empty_state).2) <= 1)%nat).
Proof.
  assert (H : count_events (is_translate_of "hello")
                (new_events empty_state
                   (listen_and_translate (translator_fails_before 20)
                      "en" "fr" 2 empty_state).2) = 2%nat)
    by (vm_compute; reflexivity).
  split; [exact H|]. rewrite H. lia.
Qed.

(** ** The audio cache during a session *)

Lemma saved_at_save_at (p : string) (e : event) :
  is_save_at p e = false -> is_saved_at p e = false.
Proof. destruct e as [| | | | | | | | | |? ? ? []| | | | |]; simpl; auto. Qed.

(** A step that leaves the files alone and calls no synthesis. *)
Lemma syntheses_inv_quiet (P : event -> Prop) (st0 st st' : State) :
  (forall e p, P e -> is_save_at p e = false) ->
  emits P st st' -> same_files st st' ->
  keeps (syntheses_inv st0) st st'.
Proof.
  intros HP (l' & Hl' & HPl) Hf (l & Hl & Hfiles & Hinv).
  exists (l ++ l'). split; [by rewrite Hl', Hl, <- app_assoc|].
  rewrite Hf. split; [done|]. intros p.
  destruct (Hinv p) as (H0 & Hnone & Hle).
  assert (Hq : count_events (is_save_at p) l' = 0%nat).
  { apply count_events_none. eapply Forall_impl; [exact HPl|].
    intros e He. by apply HP. }
  assert (Hq' : count_events (is_saved_at p) l' = 0%nat).
  { apply count_events_none. eapply Forall_impl; [exact HPl|].
    intros e He. by apply saved_at_save_at, HP. }
  rewrite !count_events_app, Hq, Hq'.
  repeat split; intros; rewrite ?Nat.add_0_r; auto.
Qed.

Lemma syntheses_inv_emit (st0 st : State) (e : event) :
  (forall p, is_save_at p e = false) ->
  keeps (syntheses_inv st0) st (emit e st).
Proof.
  intros He. apply (syntheses_inv_quiet (fun x => x = e)).
  - by intros x p ->.
  - by apply emits_emit.
  - done.
Qed.

Lemma syntheses_inv_set_cache (st0 st : State) (c : dict) :
  keeps (syntheses_inv st0) st (set_cache c st).
Proof.
  apply (syntheses_inv_quiet (fun _ => False)); [done| |done].
  by apply emits_same_log.
Qed.

Lemma syntheses_ok_quiet (P : event -> Prop) (st0 st st' : State) :
  (forall e p, P e -> is_save_at p e = false) ->
  emits P st st' -> keeps (syntheses_ok st0) st st'.
Proof.
  intros HP (l' & Hl' & HPl) (l & Hl & Hinv).
  exists (l ++ l'). split; [by rewrite Hl', Hl, <- app_assoc|].
  intros p. destruct (Hinv p) as (H0 & Hle).
  assert (Hq : count_events (is_save_at p) l' = 0%nat).
  { apply count_events_none. eapply Forall_impl; [exact HPl|].
    intros e He. by apply HP. }
  assert (Hq' : count_events (is_saved_at p) l' = 0%nat).
  { apply count_events_none. eapply Forall_impl; [exact HPl|].
    intros e He. by apply saved_at_save_at, HP. }
  rewrite !count_events_app, Hq, Hq'.
  repeat split; intros; rewrite ?Nat.add_0_r; auto.
Qed.

Lemma syntheses_inv_ok (st0 st : State) :
  syntheses_inv st0 st -> syntheses_ok st0 st.
Proof.
  intros (l & Hl & _ & Hinv). exists l. split; [done|].
  intros p. destruct (Hinv p) as (H0 & _ & Hle). done.
Qed.

(** The file is written by an invocation of the synthesis. *)
Lemma syntheses_inv_written (st0 st : State) (text lang path : string)
    (r : save_result) (mtime : Z) :
  cache_dir_files st !! path = None ->
  keeps (syntheses_inv st0) st
    (set_files (<[path := mtime]> (cache_dir_files st))
               (emit (EvSave text lang path r) st)).
Proof.
  intros Habsent (l & Hl & Hfiles & Hinv).
  exists (l ++ [EvSave text lang path r]).
  split; [by simpl; rewrite Hl, <- app_assoc|].
  split.
  { intros p Hp. simpl. rewrite lookup_insert_is_Some. right.
    split; [|by apply Hfiles]. intros ->.
    apply Hfiles in Hp. rewrite Habsent in Hp. by destruct Hp. }
  intros p. destruct (Hinv p) as (H0 & Hnone & Hle).
  rewrite !count_events_snoc. simpl.
  destruct (decide (path = p)) as [->|Hne].
  - rewrite (Hnone Habsent). split; [|split].
    + intros Hp. apply Hfiles in Hp. rewrite Habsent in Hp. by destruct Hp.
    + by rewrite lookup_insert_eq.
    + destruct r; [|lia]. destruct (bool_decide _); lia.
  - rewrite !bool_decide_eq_false_2 by done.
    assert (Hsaved : (if match r with
                         | Saved => false
                         | SaveFailed _ _ => false
                         end then 1 else 0)%nat = 0%nat) by (by destruct r).
    split; [intros Hp; rewrite (H0 Hp); lia|].
    split.
    + rewrite lookup_insert_ne by done. intros Hp. rewrite (Hnone Hp).
      by destruct r.
    + by destruct r; rewrite Nat.add_0_r.
Qed.

(** The synthesis fails and leaves no file. *)
Lemma syntheses_inv_failed (st0 st : State) (text lang path : string)
    (e : exn) (left : bool) :
  cache_dir_files st !! path = None ->
  keeps (syntheses_inv st0) st
    (emit (EvSave text lang path (SaveFailed e left)) st).
Proof.
  intros Habsent (l & Hl & Hfiles & Hinv).
  exists (l ++ [EvSave text lang path (SaveFailed e left)]).
  split; [by simpl; rewrite Hl, <- app_assoc|].
  split; [done|].
  intros p. destruct (Hinv p) as (H0 & Hnone & Hle).
  rewrite !count_events_snoc. simpl. rewrite !Nat.add_0_r.
  split; [|done].
  intros Hp. rewrite (H0 Hp).
  rewrite bool_decide_eq_false_2; [done|]. intros ->.
  apply Hfiles in Hp. rewrite Habsent in Hp. by destruct Hp.
Qed.

Section Syntheses.
Variable env : Env.
Variables source_lang target_lang : string.

(** Line 96, the file exists: no synthesis, playback only. *)
Lemma tts_attempt_present (text : string) (st : State) :
  is_Some (cache_dir_files st !! get_audio_filename env target_lang text) ->
  tts_attempt env target_lang text st =
    playsound env (get_audio_filename env target_lang text)
      (emit (EvExists (get_audio_filename env target_lang text) true) st).
Proof.
  intros Hp. unfold tts_attempt.
  rewrite (bind_val _ _ st
             (emit (EvExists (get_audio_filename env target_lang text) true)
                   st) true)
    by (unfold file_exists; by rewrite bool_decide_eq_true_2).
  simpl. by rewrite (bind_val _ _ _ _ tt eq_refl).
Qed.

(** Lines 96-99, the file does not exist: the synthesis is invoked. *)
Lemma tts_attempt_absent (text : string) (st : State) :
  cache_dir_files st !! get_audio_filename env target_lang text = None ->
  tts_attempt env target_lang text st =
    let path := get_audio_filename env target_lang text in
    let s2 := emit (EvPrint MsgGenerating) (emit (EvExists path false) st) in
    let r := env_save env (tick s2) text target_lang path in
    let written :=
      set_files (<[path := env_time env (tick s2)]> (cache_dir_files st))
                (emit (EvSave text target_lang path r) s2) in
    match r with
    | Saved => playsound env path written
    | SaveFailed e true => (Exn e, written)
    | SaveFailed e false => (Exn e, emit (EvSave text target_lang path r) s2)
    end.
Proof.
  intros Habsent. unfold tts_attempt.
  rewrite (bind_val _ _ st
             (emit (EvExists (get_audio_filename env target_lang text) false)
                   st) false).
  2: { unfold file_exists. rewrite bool_decide_eq_false_2; [done|].
       rewrite Habsent. by intros [? ?]. }
  simpl. unfold bind at 1. unfold bind at 1, print at 1. simpl.
  unfold gtts_save. simpl.
  by destruct (env_save _ _ _ _ _) as [|e []].
Qed.

Lemma playsound_syn_inv (st0 : State) (path : string) :
  effect (playsound env path) (keeps (syntheses_inv st0)).
Proof. eff effect_call. intros o s. by apply syntheses_inv_emit. Qed.

Lemma tts_attempt_syn_inv (st0 : State) (text : string) :
  effect (tts_attempt env target_lang text) (keeps (syntheses_inv st0)).
Proof.
  intros st Hinv.
  set (path := get_audio_filename env target_lang text).
  destruct (cache_dir_files st !! path) as [m|] eqn:Hfile.
  - rewrite tts_attempt_present by (by fold path; rewrite Hfile).
    apply playsound_syn_inv. by apply syntheses_inv_emit.
  - rewrite (tts_attempt_absent _ _ Hfile). simpl. fold path.
    set (s2 := emit (EvPrint MsgGenerating) (emit (EvExists path false) st)).
    assert (Hinv2 : syntheses_inv st0 s2).
    { by apply syntheses_inv_emit, syntheses_inv_emit. }
    assert (Hfile2 : cache_dir_files s2 !! path = None) by done.
    destruct (env_save _ _ _ _ _) as [|e []].
    + apply playsound_syn_inv.
      by apply (syntheses_inv_written st0 s2).
    + by apply (syntheses_inv_written st0 s2).
    + by apply (syntheses_inv_failed st0 s2).
Qed.

Lemma text_to_speech_syn_inv (st0 : State) (text : string)
    (max_retries : Z) :
  effect (text_to_speech env target_lang text max_retries)
         (keeps (syntheses_inv st0)).
Proof.
  unfold text_to_speech.
  apply (tts_for_effect env target_lang (keeps (syntheses_inv st0)));
    [apply tts_attempt_syn_inv|..];
    intros; apply syntheses_inv_emit; intros p; reflexivity.
Qed.

Lemma iteration_syn_inv (st0 : State) :
  effect (iteration env source_lang target_lang) (keeps (syntheses_inv st0)).
Proof.
  unfold iteration. eff effect_try_except.
  - unfold iteration_body.
    eff effect_bind; [|intros a].
    { eff effect_call. intros o s. by apply syntheses_inv_emit. }
    eff effect_bind; [|intros _].
    { eff effect_print. intros s. by apply syntheses_inv_emit. }
    eff effect_bind; [|intros text].
    { eff effect_call. intros o s. by apply syntheses_inv_emit. }
    eff effect_bind; [|intros _].
    { eff effect_print. intros s. by apply syntheses_inv_emit. }
    eff effect_bind; [|intros _].
    { eff effect_call. intros o s. by apply syntheses_inv_emit. }
    eff effect_bind; [|intros translation; apply text_to_speech_syn_inv].
    apply lookup_or_translate_effect; [typeclasses eauto|..]; intros;
      try (by apply syntheses_inv_emit); apply syntheses_inv_set_cache.
  - intros e k Hk.
    destruct e; simpl in Hk; try discriminate Hk; injection Hk as <-;
      try (eff effect_print; intros s; by apply syntheses_inv_emit);
      (eff effect_bind; [|intros _];
       [eff effect_print; intros s; by apply syntheses_inv_emit
       |eff effect_call; intros o s; by apply syntheses_inv_emit]).
Qed.

Lemma loop_syn_inv (st0 : State) (fuel : nat) :
  effect (loop env source_lang target_lang fuel) (keeps (syntheses_inv st0)).
Proof.
  induction fuel as [|n IH]; simpl.
  - by eff effect_running.
  - eff effect_bind; [apply iteration_syn_inv|done].
Qed.

Lemma listen_and_translate_syn_ok (fuel : nat) (st : State) :
  syntheses_ok st
    (listen_and_translate env source_lang target_lang fuel st).2.
Proof.
  unfold listen_and_translate.
  set (session := try_except _ _).
  assert (Hsession : effect session (keeps (syntheses_inv st))).
  { unfold session. eff effect_try_except.
    - unfold with_microphone. eff effect_bind; [|intros _].
      { eff effect_call. intros o s. by apply syntheses_inv_emit. }
      eff effect_finally; [|intros s; by apply syntheses_inv_emit].
      eff effect_bind; [|intros _].
      { intros s. apply (syntheses_inv_quiet calibration_event);
          [|apply adjust_emits|apply adjust_same_files].
        intros e p He. by destruct e. }
      eff effect_bind; [|intros _].
      { eff effect_print. intros s. by apply syntheses_inv_emit. }
      eff effect_bind; [|intros _; apply loop_syn_inv].
      eff effect_print. intros s. by apply syntheses_inv_emit.
    - intros e k. destruct (is_KeyboardInterrupt e); [|done].
      intros [= <-]. eff effect_print. intros s.
      by apply syntheses_inv_emit. }
  assert (Hstart : syntheses_inv st st).
  { exists []. rewrite app_nil_r. split; [done|]. split; [done|].
    intros p. simpl. repeat split; auto. }
  specialize (Hsession st Hstart).
  unfold finally. destruct (session st) as [[[]|e|] s1]; simpl in *;
    try (by apply syntheses_inv_ok);
    (assert (Hc : syntheses_ok st (cleanup env s1).2);
     [apply (syntheses_ok_quiet sweep_event st s1);
      [intros x p Hx; by destruct x|apply cleanup_emits
      |by apply syntheses_inv_ok]
     |by destruct (cleanup env s1) as [[[]|e'|] s2]]).
Qed.

End Syntheses.

(** C2 (as amended).  The audio cache is addressed by content.
    - The path of the artifact is [audio_{lang}_{md5(text)}.mp3] in the
      cache directory: a function of the translated text and the target
      language alone.
    - When a file exists at that path the attempt plays it and does not
      invoke the synthesis; when none exists the synthesis is invoked, and
      when it succeeds the artifact is written at that very path and
      played.
    - [text_to_speech] never raises an error to the loop.
    - Hence, in a session, the synthesis writes the artifact of one path
      at most once, and is not invoked at all for a path whose file was in
      the cache directory when the session started (a cache directory
      reused from an earlier run). *)
Theorem audio_cache_content_addressed :
  forall (env : Env) (source_lang target_lang : string),
    (forall text : string,
       get_audio_filename env target_lang text =
         "audio_" +:+ target_lang +:+ "_" +:+ env_md5 env text +:+ ".mp3") /\
    (forall (text : string) (st : State),
       is_Some (cache_dir_files st
                  !! get_audio_filename env target_lang text) ->
       tts_attempt env target_lang text st =
         playsound env (get_audio_filename env target_lang text)
           (emit (EvExists (get_audio_filename env target_lang text) true)
                 st)) /\
    (forall (text : string) (st : State),
       cache_dir_files st !! get_audio_filename env target_lang text = None ->
       env_save env (S (S (tick st))) text target_lang
                (get_audio_filename env target_lang text) = Saved ->
       tts_attempt env target_lang text st =
         playsound env (get_audio_filename env target_lang text)
           (set_files
              (<[get_audio_filename env target_lang text
                 := env_time env (S (S (tick st)))]> (cache_dir_files st))
              (emit (EvSave text target_lang
                       (get_audio_filename env target_lang text) Saved)
                 (emit (EvPrint MsgGenerating)
                    (emit (EvExists
                             (get_audio_filename env target_lang text) false)
                          st))))) /\
    (forall (text : string) (max_retries : Z) (st : State),
       (text_to_speech env target_lang text max_retries st).1 = Val tt \/
       (text_to_speech env target_lang text max_retries st).1
         = Exn KeyboardInterrupt) /\
    (forall (fuel : nat) (st : State) (path : string),
       let l :=
         new_events st
           (listen_and_translate env source_lang target_lang fuel st).2 in
       (count_events (is_saved_at path) l <= 1)%nat /\
       (is_Some (cache_dir_files st !! path) ->
        count_events (is_save_at path) l = 0%nat)).
Proof.
  intros env source_lang target_lang.
  split; [|split; [|split; [|split]]].
  - done.
  - apply tts_attempt_present.
  - intros text st Habsent Hsaved.
    rewrite (tts_attempt_absent _ _ _ _ Habsent). simpl.
    rewrite !tick_emit. by rewrite Hsaved.
  - intros text max_retries st. unfold text_to_speech.
    rewrite range_of_nat.
    destruct (tts_for_counts env target_lang text max_retries
                (Z.to_nat max_retries) 0 st)
      as (l & _ & _ & _ & _ & _ & Hr & _); [lia|done].
  - intros fuel st path. simpl.
    destruct (listen_and_translate_syn_ok env source_lang target_lang fuel st)
      as (l & Hl & Hinv).
    rewrite (new_events_app _ _ _ Hl).
    destruct (Hinv path) as [H0 Hle]. done.
Qed.

Lemma audio_cache_content_addressed_witness :
  (is_Some (cache_dir_files bonjour_on_disk
              !! get_audio_filename calm_env "fr" "bonjour") /\
   tts_attempt calm_env "fr" "bonjour" bonjour_on_disk =
     playsound calm_env "audio_fr_bonjour.mp3"
       (emit (EvExists "audio_fr_bonjour.mp3" true) bonjour_on_disk) /\
   count_events (is_save_at "audio_fr_bonjour.mp3")
     (new_events bonjour_on_disk
        (listen_and_translate calm_env "en" "fr" 3 bonjour_on_disk).2)
     = 0%nat) /\
  (cache_dir_files empty_state !! get_audio_filename calm_env "fr" "bonjour"
     = None /\
   env_save calm_env (S (S (tick empty_state))) "bonjour" "fr"
            (get_audio_filename calm_env "fr" "bonjour") = Saved /\
   is_Some (cache_dir_files (tts_attempt calm_env "fr" "bonjour" empty_state).2
              !! "audio_fr_bonjour.mp3")).
Proof.
  assert (Hp : is_Some (cache_dir_files bonjour_on_disk
                          !! get_audio_filename calm_env "fr" "bonjour"))
    by (by exists 12345).
  assert (Ha : cache_dir_files empty_state
                 !! get_audio_filename calm_env "fr" "bonjour" = None)
    by reflexivity.
  assert (Hs : env_save calm_env (S (S (tick empty_state))) "bonjour" "fr"
                 (get_audio_filename calm_env "fr" "bonjour") = Saved)
    by reflexivity.
  split.
  - split; [exact Hp|]. split.
    + exact (proj1 (proj2 (audio_cache_content_addressed calm_env "en" "fr"))
               "bonjour" bonjour_on_disk Hp).
    + exact (proj2 (proj2 (proj2 (proj2 (proj2
               (audio_cache_content_addressed calm_env "en" "fr"))))
               3%nat bonjour_on_disk "audio_fr_bonjour.mp3") Hp).
  - split; [exact Ha|]. split; [exact Hs|].
    rewrite (proj1 (proj2 (proj2
               (audio_cache_content_addressed calm_env "en" "fr")))
               "bonjour" empty_state Ha Hs).
    by exists 2.
Defined.

(** C2, counterexample.  The synthesis of ["bonjour"] fails in the first
    attempt and leaves no file; the retry invokes it again for the same
    text and language: two invocations in one session. *)
Lemma synthesis_invoked_twice_for_one_pair :
  count_events (is_save_at "audio_fr_bonjour.mp3")
    (new_events empty_state
       (listen_and_translate (synthesis_fails_before 22) "en" "fr" 1
          empty_state).2) = 2%nat /\
  ~ ((count_events (is_save_at "audio_fr_bonjour.mp3")
        (new_events empty_state
           (listen_and_translate (synthesis_fails_before 22) "en" "fr" 1
              empty_state).2) <= 1)%nat).
Proof.
  assert (H : count_events (is_save_at "audio_fr_bonjour.mp3")
                (new_events empty_state
                   (listen_and_translate (synthesis_fails_before 22)
                      "en" "fr" 1 empty_state).2) = 2%nat)
    by (vm_compute; reflexivity).
  split; [exact H|]. rewrite H. lia.
Qed.

(** ** The size of the translation cache during the loop *)

Lemma length_phrase (n : nat) : String.length (phrase n) = n.
Proof. induction n as [|n IH]; simpl; [done|]. by rewrite IH. Qed.

Lemma phrase_inj (n m : nat) : phrase n = phrase m -> n = m.
Proof.
  intros H. apply (f_equal String.length) in H.
  by rewrite !length_phrase in H.
Qed.

Lemma emits_tick (P : event -> Prop) (st st' : State) :
  emits P st st' -> (tick st <= tick st')%nat.
Proof.
  intros (l & Hl & _). unfold tick. rewrite Hl, length_app. lia.
Qed.

Lemma chatty_tts_attempt (text : string) (st : State) :
  (tts_attempt chatty "fr" text st).1 = Val tt.
Proof.
  destruct (cache_dir_files st !! get_audio_filename chatty "fr" text)
    as [m|] eqn:Hfile.
  - rewrite tts_attempt_present by (by rewrite Hfile). done.
  - by rewrite (tts_attempt_absent _ _ _ _ Hfile).
Qed.

Lemma chatty_text_to_speech (text : string) (st : State) :
  (text_to_speech chatty "fr" text 3 st).1 = Val tt.
Proof.
  unfold text_to_speech. change (range 3) with [0; 1; 2].
  pose proof (chatty_tts_attempt text st) as H.
  destruct (tts_attempt chatty "fr" text st) as [r s1] eqn:Hatt.
  simpl in H. subst r. by rewrite (tts_for_success _ _ _ _ _ _ _ _ Hatt).
Qed.

(** A pass with a phrase that was never heard adds one entry. *)
Lemma chatty_iteration (st : State) :
  keys_are_older_phrases st ->
  (iteration chatty "en" "fr" st).1 = Val tt /\
  translation_cache (iteration chatty "en" "fr" st).2
    = translation_cache st ++ [(phrase (S (S (tick st))), "bonjour")] /\
  keys_are_older_phrases (iteration chatty "en" "fr" st).2.
Proof.
  intros Hinv.
  set (text := phrase (S (S (tick st)))).
  set (s1 := emit (EvListen 5 10 (Ok "wave")) st).
  set (s2 := emit (EvPrint MsgProcessing) s1).
  set (s3 := emit (EvRecognize "wave" "en" (Ok text)) s2).
  set (s4 := emit (EvPrint (MsgYouSaid text)) s3).
  set (s5 := emit (EvSleep 500 (Ok tt)) s4).
  set (s6 := emit (EvPrint (MsgTranslation "bonjour"))
               (set_cache (dict_set text "bonjour" (translation_cache s5))
                  (emit (EvTranslate text (Ok "bonjour"))
                        (emit (EvPrint MsgTranslating) s5)))).
  assert (Hfresh : text ∉ (translation_cache s5).*1).
  { intros Hin. destruct (Hinv text Hin) as (j & Hj & Heq).
    apply phrase_inj in Heq. lia. }
  assert (Hbody : iteration_body chatty "en" "fr" st
                  = text_to_speech chatty "fr" "bonjour" 3 s6).
  { unfold iteration_body.
    rewrite (bind_val _ _ st s1 "wave") by done.
    rewrite (bind_val _ _ s1 s2 tt) by done.
    rewrite (bind_val _ _ s2 s3 text).
    2: { unfold call. simpl. unfold s3, text, s2, s1.
         by rewrite !tick_emit. }
    rewrite (bind_val _ _ s3 s4 tt) by done.
    rewrite (bind_val _ _ s4 s5 tt) by done.
    by rewrite (bind_val _ _ s5 s6 "bonjour")
      by (by rewrite (lookup_miss _ _ _ Hfresh)). }
  pose proof (chatty_text_to_speech "bonjour" s6) as Hval.
  pose proof (text_to_speech_same_cache chatty "fr" "bonjour" 3 s6) as Hcache.
  pose proof (text_to_speech_emits chatty "fr" "bonjour" 3 s6) as Hlog.
  apply emits_tick in Hlog.
  destruct (text_to_speech chatty "fr" "bonjour" 3 s6) as [r s7] eqn:Htts.
  simpl in Hval, Hcache, Hlog. subst r. unfold same_cache in Hcache.
  assert (Hit : iteration chatty "en" "fr" st = (Val tt, s7)).
  { unfold iteration. apply try_except_val. by rewrite Hbody. }
  rewrite Hit. simpl.
  assert (Hc7 : translation_cache s7
                = translation_cache st ++ [(text, "bonjour")]).
  { rewrite Hcache. unfold s6. simpl. by rewrite (dict_set_fresh _ _ _ Hfresh). }
  split; [done|]. split; [done|].
  assert (Htick : (S (S (S (tick st))) < tick s7)%nat).
  { unfold s6, s5, s4, s3, s2, s1 in Hlog.
    unfold tick in *. simpl in Hlog. rewrite !length_app in Hlog.
    simpl in Hlog. lia. }
  intros k Hk. rewrite Hc7, fmap_app, elem_of_app in Hk.
  destruct Hk as [Hk|Hk].
  - destruct (Hinv k Hk) as (j & Hj & ->). exists j. split; [lia|done].
  - apply list_elem_of_singleton in Hk. simpl in Hk. subst k.
    exists (S (S (tick st))). split; [lia|done].
Qed.

Lemma chatty_loop (n : nat) :
  forall st : State,
    keys_are_older_phrases st ->
    length (translation_cache (loop chatty "en" "fr" n st).2)
      = (length (translation_cache st) + n)%nat.
Proof.
  induction n as [|n IH]; intros st Hinv; simpl; [lia|].
  destruct (chatty_iteration st Hinv) as (Hval & Hcache & Hinv').
  destruct (iteration chatty "en" "fr" st) as [r s1] eqn:Hit.
  simpl in Hval, Hcache, Hinv'. subst r.
  rewrite (bind_val _ _ _ _ _ Hit), (IH s1 Hinv'), Hcache, length_app.
  simpl. lia.
Qed.

(** C4, the behaviour of the code.  The session never evicts: every key
    that is in the translation cache stays in it until the session ends,
    and [manage_cache] is not part of the loop.  With a speaker who never
    repeats a phrase the cache holds [n] entries after [n] passes, for
    every [n]: 1001 entries after 1001 passes, above the default
    [max_cache_size] of 1000, and so on without bound. *)
Theorem loop_never_evicts :
  (forall (env : Env) (source_lang target_lang : string) (fuel : nat)
          (st : State) (text : string),
     text ∈ (translation_cache st).*1 ->
     text ∈ (translation_cache
               (listen_and_translate env source_lang target_lang fuel st).2).*1)
  /\
  (forall n : nat,
     length (translation_cache (loop chatty "en" "fr" n empty_state).2) = n) /\
  len (translation_cache (loop chatty "en" "fr" 1001 empty_state).2) > 1000.
Proof.
  split; [|split].
  - intros env source_lang target_lang fuel st text Hin.
    destruct (listen_and_translate_inv env source_lang target_lang st fuel st
                (translations_inv_start st))
      as (l & _ & Hkeys & _).
    by apply Hkeys.
  - intros n. rewrite chatty_loop; [done|].
    intros k Hk. by apply elem_of_nil in Hk.
  - unfold len. rewrite chatty_loop; [simpl; lia|].
    intros k Hk. by apply elem_of_nil in Hk.
Qed.

Lemma loop_never_evicts_witness :
  "hello" ∈ (translation_cache hello_cached).*1 /\
  "hello" ∈ (translation_cache
               (listen_and_translate chatty "en" "fr" 4 hello_cached).2).*1.
Proof.
  assert (Hin : "hello" ∈ (translation_cache hello_cached).*1)
    by (simpl; by left).
  split; [exact Hin|].
  exact (proj1 loop_never_evicts chatty "en" "fr" 4%nat hello_cached "hello"
           Hin).
Defined.

(** * Further properties *)

(** ** The language prompts of main *)

Section PromptFacts.
Variable lower : string -> string.

Lemma get_language_input_spec (default : string) (answers : list string) :
  match get_language_input lower default answers with
  | Chosen lang rejected rest =>
      exists bad answer,
        answers = bad ++ answer :: rest /\
        rejected = typed_code lower default <$> bad /\
        Forall (fun a => typed_code lower default a ∉ languages.*1) bad /\
        lang = typed_code lower default answer /\
        lang ∈ languages.*1
  | Prompting rejected =>
      rejected = typed_code lower default <$> answers /\
      Forall (fun a => typed_code lower default a ∉ languages.*1) answers
  end.
Proof.
  induction answers as [|a rest IH]; simpl; [done|].
  destruct (dict_contains (typed_code lower default a) languages) eqn:Hin.
  - apply dict_contains_spec in Hin. by exists [], a.
  - apply dict_contains_false in Hin.
    destruct (get_language_input lower default rest)
      as [lang rejected rest'|rejected].
    + destruct IH as (bad & answer & -> & -> & Hbad & -> & Hlang).
      exists (a :: bad), answer. repeat split; auto.
    + destruct IH as [-> Hall]. split; [done|]. by constructor.
Qed.

Lemma supported_code_has_name (lang : string) :
  lang ∈ languages.*1 -> is_Some (dict_get lang languages).
Proof. apply dict_get_is_Some. Qed.

End PromptFacts.

(** X1.  The prompt accepts nothing but the codes of the table: the
    language it returns is one of the ten keys of [languages].  So when
    both prompts have returned, the two names looked up for the banner
    exist ([languages[...]] raises no [KeyError]) and the translator is
    constructed with two supported codes. *)
Theorem prompt_returns_supported_code :
  forall (lower : string -> string),
    (forall (default : string) (answers rejected rest : list string)
            (lang : string),
       get_language_input lower default answers = Chosen lang rejected rest ->
       lang ∈ languages.*1 /\ lang ∈ ["en"; "fr"; "es"; "de"; "it"; "pt";
                                       "ru"; "ja"; "ko"; "zh"]) /\
    (forall (answers : list string)
            (o : outcome (string * string * (string * string))),
       choose_languages lower answers = Some o ->
       exists source_lang target_lang source_name target_name,
         o = Ok (source_lang, target_lang, (source_name, target_name)) /\
         source_lang ∈ languages.*1 /\ target_lang ∈ languages.*1 /\
         dict_get source_lang languages = Some source_name /\
         dict_get target_lang languages = Some target_name).
Proof.
  intros lower. split.
  - intros default answers rejected rest lang H.
    pose proof (get_language_input_spec lower default answers) as Hspec.
    rewrite H in Hspec. destruct Hspec as (_ & _ & _ & _ & _ & _ & Hin).
    split; exact Hin.
  - intros answers o. unfold choose_languages.
    pose proof (get_language_input_spec lower "en" answers) as Hs.
    destruct (get_language_input lower "en" answers)
      as [source_lang rej rest|rej]; [|done].
    destruct Hs as (_ & _ & _ & _ & _ & _ & Hsin).
    pose proof (get_language_input_spec lower "fr" rest) as Ht.
    destruct (get_language_input lower "fr" rest)
      as [target_lang rej' rest'|rej']; [|done].
    destruct Ht as (_ & _ & _ & _ & _ & _ & Htin).
    destruct (supported_code_has_name _ Hsin) as [sn Hsn].
    destruct (supported_code_has_name _ Htin) as [tn Htn].
    rewrite Hsn, Htn. intros [= <-].
    by exists source_lang, target_lang, sn, tn.
Qed.

Lemma prompt_returns_supported_code_witness :
  (get_language_input lower_ascii "en" ["xx"; "DE"; "fr"]
     = Chosen "de" ["xx"] ["fr"] /\
   ("de" ∈ languages.*1)) /\
  (choose_languages lower_ascii ["klingon"; "JA"; ""]
     = Some (Ok ("ja", "fr", ("Japanese (日本語)", "French (Français)"))) /\
   ("ja" ∈ languages.*1) /\ ("fr" ∈ languages.*1)).
Proof.
  assert (H1 : get_language_input lower_ascii "en" ["xx"; "DE"; "fr"]
               = Chosen "de" ["xx"] ["fr"]) by (vm_compute; reflexivity).
  assert (H2 : choose_languages lower_ascii ["klingon"; "JA"; ""]
               = Some (Ok ("ja", "fr",
                           ("Japanese (日本語)", "French (Français)"))))
    by (vm_compute; reflexivity).
  split.
  - split; [exact H1|].
    exact (proj1 (proj1 (prompt_returns_supported_code lower_ascii)
                    "en" _ _ _ _ H1)).
  - split; [exact H2|].
    destruct (proj2 (prompt_returns_supported_code lower_ascii) _ _ H2)
      as (s & t & sn & tn & Heq & Hs & Ht & _).
    injection Heq as <- <- _ _. split; [exact Hs|exact Ht].
Defined.

(** X2.  The prompt returns the first typed line whose lower-cased text,
    or the default when that text is empty, is a key of the table; it
    consumes the lines up to that one and prints one "Invalid language
    code" message for each line before it.  Nothing is stripped or
    otherwise normalised.  While no typed line is acceptable it keeps
    asking.  In particular an empty line is accepted exactly when the
    default itself is a key of the table. *)
Theorem prompt_takes_first_supported_answer :
  forall (lower : string -> string) (default : string),
    (forall (bad rest : list string) (answer : string),
       Forall (fun a => typed_code lower default a ∉ languages.*1) bad ->
       typed_code lower default answer ∈ languages.*1 ->
       get_language_input lower default (bad ++ answer :: rest)
         = Chosen (typed_code lower default answer)
                  (typed_code lower default <$> bad) rest) /\
    (forall answers : list string,
       Forall (fun a => typed_code lower default a ∉ languages.*1) answers ->
       get_language_input lower default answers
         = Prompting (typed_code lower default <$> answers)) /\
    (forall (answer : string) (rest : list string),
       lower answer = "" ->
       (default ∈ languages.*1 ->
        get_language_input lower default (answer :: rest)
          = Chosen default [] rest) /\
       (default ∉ languages.*1 ->
        exists rejected,
          get_language_input lower default (answer :: rest)
            <> Chosen default [] rest /\
          (get_language_input lower default (answer :: rest)
             = Prompting (default :: rejected) \/
           exists lang rest',
             get_language_input lower default (answer :: rest)
               = Chosen lang (default :: rejected) rest'))).
Proof.
  intros lower default. split; [|split].
  - intros bad rest answer Hbad Hok.
    induction Hbad as [|a bad Ha _ IH]; simpl.
    + apply dict_contains_spec in Hok. by rewrite Hok.
    + apply dict_contains_false in Ha. rewrite Ha.
      simpl in IH. by rewrite IH.
  - intros answers Hall.
    induction Hall as [|a answers Ha _ IH]; simpl; [done|].
    apply dict_contains_false in Ha. by rewrite Ha, IH.
  - intros answer rest Hempty.
    assert (Hcode : typed_code lower default answer = default).
    { unfold typed_code. by rewrite decide_True. }
    split.
    + intros Hin. simpl. rewrite Hcode.
      apply dict_contains_spec in Hin. by rewrite Hin.
    + intros Hnin. simpl. rewrite Hcode.
      apply dict_contains_false in Hnin. rewrite Hnin.
      destruct (get_language_input lower default rest)
        as [lang rejected rest'|rejected]; exists rejected.
      * split; [intros [=]|]. right. by exists lang, rest'.
      * split; [done|]. by left.
Qed.

Lemma prompt_takes_first_supported_answer_witness :
  (Forall (fun a => typed_code lower_ascii "fr" a ∉ languages.*1)
          ["english"; " fr"] /\
   (typed_code lower_ascii "fr" "ES" ∈ languages.*1) /\
   get_language_input lower_ascii "fr" (["english"; " fr"] ++ "ES" :: ["x"])
     = Chosen "es" ["english"; " fr"] ["x"]) /\
  (Forall (fun a => typed_code lower_ascii "fr" a ∉ languages.*1)
          ["fr "; "f r"] /\
   get_language_input lower_ascii "fr" ["fr "; "f r"]
     = Prompting ["fr "; "f r"]) /\
  (lower_ascii "" = "" /\ ("fr" ∈ languages.*1) /\
   get_language_input lower_ascii "fr" ["" ; "de"] = Chosen "fr" [] ["de"]) /\
  (lower_ascii "" = "" /\ ("nl" ∉ languages.*1) /\
   get_language_input lower_ascii "nl" [""; "de"]
     <> Chosen "nl" [] ["de"]).
Proof.
  assert (Hbad : Forall (fun a => typed_code lower_ascii "fr" a ∉ languages.*1)
                        ["english"; " fr"]).
  { repeat constructor; apply (bool_decide_unpack _); vm_compute; exact I. }
  assert (Hok : typed_code lower_ascii "fr" "ES" ∈ languages.*1).
  { apply (bool_decide_unpack _). vm_compute. exact I. }
  assert (Hall : Forall (fun a => typed_code lower_ascii "fr" a ∉ languages.*1)
                        ["fr "; "f r"]).
  { repeat constructor; apply (bool_decide_unpack _); vm_compute; exact I. }
  assert (Hempty : lower_ascii "" = "") by reflexivity.
  assert (Hfr : "fr" ∈ languages.*1).
  { apply (bool_decide_unpack _). vm_compute. exact I. }
  assert (Hnl : "nl" ∉ languages.*1).
  { apply (bool_decide_unpack _). vm_compute. exact I. }
  pose proof (prompt_takes_first_supported_answer lower_ascii "fr")
    as (Hfirst & Hnone & Hdefault).
  split; [|split; [|split]].
  - split; [exact Hbad|]. split; [exact Hok|].
    exact (Hfirst ["english"; " fr"] ["x"] "ES" Hbad Hok).
  - split; [exact Hall|]. exact (Hnone ["fr "; "f r"] Hall).
  - split; [exact Hempty|]. split; [exact Hfr|].
    exact (proj1 (Hdefault "" ["de"] Hempty) Hfr).
  - split; [exact Hempty|]. split; [exact Hnl|].
    destruct (proj2 (proj2 (proj2
                (prompt_takes_first_supported_answer lower_ascii "nl"))
                "" ["de"] Hempty) Hnl) as (rejected & Hne & _).
    exact Hne.
Defined.

(** ** Relations that pass through a whole session *)

Section SessionEffect.
Variable env : Env.
Variables source_lang target_lang : string.
Context (R : relation State) `{!PreOrder R}.
Hypothesis R_quiet : forall e st, quiet_event e -> R st (emit e st).
Hypothesis R_lookup : forall text, effect (lookup_or_translate env text) R.
Hypothesis R_attempt :
  forall text, effect (tts_attempt env target_lang text) R.

Lemma text_to_speech_effect (text : string) (max_retries : Z) :
  effect (text_to_speech env target_lang text max_retries) R.
Proof.
  unfold text_to_speech.
  apply (tts_for_effect env target_lang R); [apply R_attempt|..];
    intros; by apply R_quiet.
Qed.

Lemma iteration_effect : effect (iteration env source_lang target_lang) R.
Proof.
  unfold iteration. apply (effect_try_except R).
  - unfold iteration_body.
    apply (effect_bind R); [|intros a].
    { apply (effect_call R). intros o s. by apply R_quiet. }
    apply (effect_bind R); [|intros _].
    { apply (effect_print R). intros s. by apply R_quiet. }
    apply (effect_bind R); [|intros text].
    { apply (effect_call R). intros o s. by apply R_quiet. }
    apply (effect_bind R); [|intros _].
    { apply (effect_print R). intros s. by apply R_quiet. }
    apply (effect_bind R); [|intros _].
    { apply (effect_call R). intros o s. by apply R_quiet. }
    apply (effect_bind R); [apply R_lookup|intros translation].
    apply text_to_speech_effect.
  - intros e k Hk.
    destruct e; simpl in Hk; try discriminate Hk; injection Hk as <-;
      try (apply (effect_print R); intros s; by apply R_quiet);
      (apply (effect_bind R); [|intros _];
       [apply (effect_print R); intros s; by apply R_quiet
       |apply (effect_call R); intros o s; by apply R_quiet]).
Qed.

Lemma loop_effect (fuel : nat) :
  effect (loop env source_lang target_lang fuel) R.
Proof.
  induction fuel as [|n IH]; simpl.
  - apply (effect_running R).
  - apply (effect_bind R); [apply iteration_effect|done].
Qed.

Lemma adjust_effect : effect (adjust_for_ambient_noise env) R.
Proof.
  unfold adjust_for_ambient_noise.
  apply (effect_bind R); [|intros _].
  { apply (effect_print R). intros s. by apply R_quiet. }
  apply (effect_try_except R).
  - apply (effect_bind R); [|intros _].
    + apply (effect_for_each R). intros i.
      apply (effect_bind R); [|intros _].
      * apply (effect_call R). intros o s. by apply R_quiet.
      * apply (effect_print R). intros s. by apply R_quiet.
    + apply (effect_print R). intros s. by apply R_quiet.
  - intros e k. unfold on_Exception. destruct (is_Exception e); [|done].
    intros [= <-]. apply (effect_print R). intros s. by apply R_quiet.
Qed.

Lemma listen_and_translate_effect (fuel : nat) :
  effect (cleanup env) R ->
  effect (listen_and_translate env source_lang target_lang fuel) R.
Proof.
  intros Hcleanup. unfold listen_and_translate.
  apply (effect_finally R); [|done].
  apply (effect_try_except R).
  - unfold with_microphone. apply (effect_bind R); [|intros _].
    { apply (effect_call R). intros o s. by apply R_quiet. }
    apply (effect_finally R); [|intros s; by apply R_quiet].
    apply (effect_bind R); [apply adjust_effect|intros _].
    apply (effect_bind R); [|intros _].
    { apply (effect_print R). intros s. by apply R_quiet. }
    apply (effect_bind R); [|intros _; apply loop_effect].
    apply (effect_print R). intros s. by apply R_quiet.
  - intros e k. destruct (is_KeyboardInterrupt e); [|done].
    intros [= <-]. apply (effect_print R). intros s. by apply R_quiet.
Qed.

End SessionEffect.

(** ** The content of the translation cache *)

Lemma translations_of_app (l1 l2 : list event) :
  translations_of (l1 ++ l2) = translations_of l1 ++ translations_of l2.
Proof. apply omap_app. Qed.

Lemma translations_of_none (l : list event) :
  Forall (fun e => translation_result e = None) l -> translations_of l = [].
Proof.
  induction 1 as [|e l He _ IH]; [done|].
  unfold translations_of in *. simpl. by rewrite He.
Qed.

#[local] Instance cache_extended_preorder : PreOrder cache_extended.
Proof.
  split.
  - intros st. exists []. rewrite !app_nil_r. done.
  - intros s1 s2 s3 (l1 & Hl1 & Hc1 & Hn1) (l2 & Hl2 & Hc2 & Hn2).
    exists (l1 ++ l2). rewrite Hl2, Hl1, Hc2, Hc1, translations_of_app.
    rewrite <- !app_assoc. split; [done|]. split; [done|].
    intros Hnd. rewrite app_assoc, <- Hc1, <- Hc2. auto.
Qed.

Lemma cache_extended_quiet (P : event -> Prop) (st st' : State) :
  (forall e, P e -> translation_result e = None) ->
  emits P st st' -> same_cache st st' -> cache_extended st st'.
Proof.
  intros HP (l & Hl & HPl) Hc. exists l. split; [done|].
  rewrite Hc, translations_of_none, app_nil_r; [done|].
  eapply Forall_impl; [exact HPl|done].
Qed.

Lemma cache_extended_emit (e : event) (st : State) :
  quiet_event e -> cache_extended st (emit e st).
Proof.
  intros He. apply (cache_extended_quiet quiet_event); [|by apply emits_emit|done].
  intros x Hx. by destruct x.
Qed.

Lemma dict_get_app_l (k v : string) (d d' : dict) :
  dict_get k d = Some v -> dict_get k (d ++ d') = Some v.
Proof.
  induction d as [|[k' v'] r IH]; simpl; [done|].
  by destruct (decide (k = k')).
Qed.

Lemma dict_get_None (k : string) (d : dict) :
  k ∉ d.*1 -> dict_get k d = None.
Proof.
  induction d as [|[k' v'] r IH]; simpl; [done|].
  intros Hk. apply not_elem_of_cons in Hk as [Hne Hr].
  rewrite decide_False by done. auto.
Qed.

Section CacheContent.
Variable env : Env.
Variables source_lang target_lang : string.

Lemma lookup_or_translate_extends (text : string) :
  effect (lookup_or_translate env text) cache_extended.
Proof.
  intros st.
  destruct (decide (text ∈ (translation_cache st).*1)) as [Hin|Hnin].
  - destruct (dict_get_is_Some _ _ Hin) as [v Hv].
    rewrite (lookup_hit _ _ _ _ Hv Hin). simpl.
    by apply cache_extended_emit.
  - rewrite (lookup_miss _ _ _ Hnin). simpl.
    destruct (env_translate _ _ _) as [r|e]; simpl.
    + exists [EvPrint MsgTranslating; EvTranslate text (Ok r);
              EvPrint (MsgTranslation r)].
      simpl. rewrite <- !app_assoc. split; [done|].
      rewrite (dict_set_fresh _ _ _ Hnin). split; [done|].
      intros Hnd. rewrite fmap_app. apply NoDup_app.
      split; [done|]. split; [|apply NoDup_singleton].
      intros k Hk Hk'. apply list_elem_of_singleton in Hk'. simpl in Hk'.
      by subst k.
    + exists [EvPrint MsgTranslating; EvTranslate text (Raise e)].
      simpl. rewrite <- !app_assoc, app_nil_r. done.
Qed.

Lemma tts_attempt_extends (text : string) :
  effect (tts_attempt env target_lang text) cache_extended.
Proof.
  intros st. apply (cache_extended_quiet tts_event).
  - intros e He. by destruct e.
  - apply tts_attempt_emits.
  - apply tts_attempt_same_cache.
Qed.

Lemma cleanup_extends : effect (cleanup env) cache_extended.
Proof.
  intros st. apply (cache_extended_quiet sweep_event).
  - intros e He. by destruct e.
  - apply cleanup_emits.
  - apply cleanup_same_cache.
Qed.

Lemma listen_and_translate_extends (fuel : nat) :
  effect (listen_and_translate env source_lang target_lang fuel)
         cache_extended.
Proof.
  apply (listen_and_translate_effect env source_lang target_lang
           cache_extended).
  - intros e st He. by apply cache_extended_emit.
  - apply lookup_or_translate_extends.
  - apply tts_attempt_extends.
  - apply cleanup_extends.
Qed.

End CacheContent.

(** X3.  At every moment of a session the translation cache is the cache
    the session started with, followed by the translations the translator
    has returned since, in the order of the calls: nothing else is ever
    stored, nothing is removed or reordered, and the size grows by one
    with every translation returned. *)
Theorem cache_is_start_plus_translations :
  forall (env : Env) (source_lang target_lang : string) (fuel : nat)
         (st : State),
    let st' := (listen_and_translate env source_lang target_lang fuel st).2 in
    translation_cache st'
      = translation_cache st ++ translations_of (new_events st st') /\
    length (translation_cache st')
      = (length (translation_cache st)
         + length (translations_of (new_events st st')))%nat.
Proof.
  intros env source_lang target_lang fuel st. simpl.
  destruct (listen_and_translate_extends env source_lang target_lang fuel st)
    as (l & Hl & Hc & _).
  rewrite (new_events_app _ _ _ Hl), Hc, length_app. done.
Qed.

Lemma cache_is_start_plus_translations_witness :
  let st' := (listen_and_translate chatty "en" "fr" 3 hello_cached).2 in
  translation_cache st'
    = translation_cache hello_cached
        ++ translations_of (new_events hello_cached st') /\
  length (translation_cache st') = 4%nat /\
  length (translations_of (new_events hello_cached st')) = 3%nat.
Proof.
  intros st'.
  destruct (cache_is_start_plus_translations chatty "en" "fr" 3 hello_cached)
    as [Hcache Hlen].
  split; [exact Hcache|]. split; vm_compute; reflexivity.
Defined.

(** X4.  A translation that is in the cache stays what it is for the rest
    of the session: the same text is looked up to the same translation at
    any later moment, and a later occurrence of the text is answered from
    the cache with that translation, whatever the translator would answer
    then. *)
Theorem cached_translation_is_stable :
  forall (env env' : Env) (source_lang target_lang : string) (fuel : nat)
         (st : State) (text translation : string),
    dict_get text (translation_cache st) = Some translation ->
    let st' := (listen_and_translate env source_lang target_lang fuel st).2 in
    dict_get text (translation_cache st') = Some translation /\
    lookup_or_translate env' text st'
      = (Val translation, emit (EvPrint (MsgCached translation)) st').
Proof.
  intros env env' source_lang target_lang fuel st text translation Hget.
  simpl.
  destruct (listen_and_translate_extends env source_lang target_lang fuel st)
    as (l & _ & Hc & _).
  assert (Hget' : dict_get text
                    (translation_cache
                       (listen_and_translate env source_lang target_lang
                          fuel st).2) = Some translation).
  { rewrite Hc. by apply dict_get_app_l. }
  split; [done|]. apply lookup_hit; [done|].
  destruct (decide (text ∈ (translation_cache
                              (listen_and_translate env source_lang
                                 target_lang fuel st).2).*1)) as [Hin|Hnin];
    [done|].
  apply dict_get_None in Hnin. congruence.
Qed.

Lemma cached_translation_is_stable_witness :
  dict_get "hello" (translation_cache hello_cached) = Some "bonjour" /\
  dict_get "hello"
    (translation_cache
       (listen_and_translate chatty "en" "fr" 3 hello_cached).2)
    = Some "bonjour" /\
  (lookup_or_translate (translator_fails_before 1000) "hello"
     (listen_and_translate chatty "en" "fr" 3 hello_cached).2).1
    = Val "bonjour".
Proof.
  assert (H : dict_get "hello" (translation_cache hello_cached)
              = Some "bonjour") by reflexivity.
  destruct (cached_translation_is_stable chatty (translator_fails_before 1000)
              "en" "fr" 3 hello_cached "hello" "bonjour" H) as [Hget Hhit].
  split; [exact H|]. split; [exact Hget|]. by rewrite Hhit.
Defined.

Lemma main_handler_same_cache (e : exn) :
  effect (print (MsgMainError e) ;; print MsgCheckLanguages) same_cache.
Proof.
  apply (effect_bind same_cache); [|intros _];
    apply (effect_print same_cache); done.
Qed.

(** X5.  The keys of the translation cache stay distinct: a session that
    starts with distinct keys has distinct keys at every later moment, a
    call of [manage_cache] keeps them distinct, and in a run of [main],
    whose construction empties the cache, no text is ever held twice. *)
Theorem cache_keys_stay_distinct :
  forall (env : Env) (source_lang target_lang : string) (fuel : nat)
         (st : State),
    (NoDup (translation_cache st).*1 ->
     NoDup (translation_cache
              (listen_and_translate env source_lang target_lang fuel st).2).*1)
    /\
    (forall max_cache_size : Z,
       NoDup (translation_cache st).*1 ->
       NoDup (translation_cache (manage_cache max_cache_size st).2).*1) /\
    ((init env source_lang target_lang st).1 = Val tt ->
     NoDup (translation_cache
              (main env source_lang target_lang fuel st).2).*1).
Proof.
  intros env source_lang target_lang fuel st. split; [|split].
  - destruct (listen_and_translate_extends env source_lang target_lang
                fuel st) as (l & _ & _ & Hnd). exact Hnd.
  - intros max_cache_size Hnd. rewrite manage_cache_spec. simpl.
    destruct (_ >? _); [|done].
    rewrite <- (take_drop (Z.to_nat (int_mul_0_2 max_cache_size))
                  (translation_cache st)), fmap_app in Hnd.
    by apply NoDup_app in Hnd as (_ & _ & Hnd).
  - intros Hinit. unfold main.
    assert (Hempty : translation_cache (init env source_lang target_lang st).2
                     = []).
    { rewrite init_run in Hinit |- *. simpl in *.
      destruct (env_translator_new _ _ _ _) as [[]|e1]; [|done].
      destruct (env_translate _ _ _) as [r|e2]; [|done].
      by destruct (env_mkdir _ _) as [[]|e3]. }
    destruct (init env source_lang target_lang st) as [r s1] eqn:Hi.
    simpl in Hinit, Hempty. subst r.
    destruct (listen_and_translate_extends env source_lang target_lang
                fuel s1) as (l & _ & _ & Hnd).
    rewrite Hempty in Hnd. specialize (Hnd (NoDup_nil_2)).
    unfold try_except. rewrite (bind_val _ _ _ _ _ Hi).
    destruct (listen_and_translate env source_lang target_lang fuel s1)
      as [[[]|e|] s2]; simpl in *; [done| |done].
    unfold on_Exception. destruct (is_Exception e); [|done].
    by rewrite (main_handler_same_cache e s2).
Qed.

Lemma cache_keys_stay_distinct_witness :
  NoDup (translation_cache hello_cached).*1 /\
  NoDup (translation_cache
           (listen_and_translate chatty "en" "fr" 3 hello_cached).2).*1 /\
  NoDup (translation_cache (manage_cache 0 hello_cached).2).*1 /\
  (init chatty "en" "fr" hello_cached).1 = Val tt /\
  NoDup (translation_cache (main chatty "en" "fr" 3 hello_cached).2).*1.
Proof.
  assert (Hnd : NoDup (translation_cache hello_cached).*1)
    by (apply (bool_decide_unpack _); vm_compute; exact I).
  assert (Hinit : (init chatty "en" "fr" hello_cached).1 = Val tt)
    by (vm_compute; reflexivity).
  pose proof (cache_keys_stay_distinct chatty "en" "fr" 3 hello_cached)
    as (H1 & H2 & H3).
  split; [exact Hnd|]. split; [exact (H1 Hnd)|].
  split; [exact (H2 0 Hnd)|]. split; [exact Hinit|exact (H3 Hinit)].
Defined.

(** ** The audio files during the loop *)

#[local] Instance files_kept_preorder : PreOrder files_kept.
Proof.
  split; [by intros st p m|].
  intros s1 s2 s3 H1 H2 p m Hp. by apply H2, H1.
Qed.

#[local] Instance files_kept_except_preorder (path : string) :
  PreOrder (files_kept_except path).
Proof.
  split; [by intros st p|].
  intros s1 s2 s3 H1 H2 p Hp. by rewrite (H2 p Hp), (H1 p Hp).
Qed.

#[local] Instance plays_existing_preorder : PreOrder plays_existing.
Proof.
  split.
  - intros st. exists []. rewrite app_nil_r. split; [done|].
    split; [reflexivity|]. intros p o Hp. by apply elem_of_nil in Hp.
  - intros s1 s2 s3 (l1 & Hl1 & Hk1 & Hp1) (l2 & Hl2 & Hk2 & Hp2).
    exists (l1 ++ l2). rewrite Hl2, Hl1, <- app_assoc. split; [done|].
    split; [by transitivity s2|].
    intros p o Hp. apply elem_of_app in Hp as [Hp|Hp]; [|by eapply Hp2].
    destruct (Hp1 p o Hp) as [m Hm]. exists m. by apply Hk2.
Qed.

Lemma same_files_kept (st st' : State) : same_files st st' -> files_kept st st'.
Proof. intros Hs p m Hp. by rewrite Hs. Qed.

Lemma same_files_kept_except (path : string) (st st' : State) :
  same_files st st' -> files_kept_except path st st'.
Proof. intros Hs p _. by rewrite Hs. Qed.

Lemma plays_existing_emit (e : event) (st : State) :
  (forall p o, e <> EvPlay p o) -> plays_existing st (emit e st).
Proof.
  intros He. exists [e]. split; [done|]. split; [by intros p m|].
  intros p o Hp. apply list_elem_of_singleton in Hp. by destruct (He p o).
Qed.

Lemma plays_existing_set_cache (c : dict) (st : State) :
  plays_existing st (set_cache c st).
Proof.
  exists []. simpl. rewrite app_nil_r. split; [done|].
  split; [by intros p m|]. intros p o Hp. by apply elem_of_nil in Hp.
Qed.

Section AudioFiles.
Variable env : Env.
Variables source_lang target_lang : string.

Lemma tts_attempt_plays_existing (text : string) :
  effect (tts_attempt env target_lang text) plays_existing.
Proof.
  intros st.
  set (path := get_audio_filename env target_lang text).
  destruct (cache_dir_files st !! path) as [m|] eqn:Hfile.
  - rewrite tts_attempt_present by (by fold path; rewrite Hfile).
    fold path. unfold playsound, call. simpl.
    exists [EvExists path true;
            EvPlay path (env_play env (tick (emit (EvExists path true) st))
                           path)].
    split; [|split].
    + destruct (env_play _ _ _); simpl; by rewrite <- app_assoc.
    + intros p m' Hp. by destruct (env_play _ _ _).
    + intros p o Hp. apply elem_of_cons in Hp as [[=]|Hp].
      apply list_elem_of_singleton in Hp. injection Hp as -> _.
      exists m. by destruct (env_play _ _ _).
  - rewrite (tts_attempt_absent _ _ _ _ Hfile). simpl. fold path.
    set (s2 := emit (EvPrint MsgGenerating) (emit (EvExists path false) st)).
    assert (Hkept : forall p m',
              cache_dir_files st !! p = Some m' ->
              <[path := env_time env (tick s2)]> (cache_dir_files st) !! p
                = Some m').
    { intros p m' Hp. rewrite lookup_insert_ne; [done|].
      intros <-. congruence. }
    destruct (env_save env (tick s2) text target_lang path)
      as [|e []] eqn:Hsave.
    + unfold playsound, call.
      set (s3 := set_files _ _).
      exists [EvExists path false; EvPrint MsgGenerating;
              EvSave text target_lang path Saved;
              EvPlay path (env_play env (tick s3) path)].
      split; [|split].
      * destruct (env_play _ _ _); simpl; by rewrite <- !app_assoc.
      * intros p m' Hp. destruct (env_play _ _ _); simpl; by apply Hkept.
      * intros p o Hp.
        do 3 (apply elem_of_cons in Hp as [[=]|Hp]).
        apply list_elem_of_singleton in Hp. injection Hp as -> _.
        exists (env_time env (tick s2)).
        destruct (env_play _ _ _); simpl; by rewrite lookup_insert_eq.
    + exists [EvExists path false; EvPrint MsgGenerating;
              EvSave text target_lang path (SaveFailed e true)].
      split; [|split].
      * simpl. by rewrite <- !app_assoc.
      * intros p m' Hp. simpl. by apply Hkept.
      * intros p o Hp.
        repeat (apply elem_of_cons in Hp as [[=]|Hp]).
        by apply elem_of_nil in Hp.
    + exists [EvExists path false; EvPrint MsgGenerating;
              EvSave text target_lang path (SaveFailed e false)].
      split; [|split].
      * simpl. by rewrite <- !app_assoc.
      * by intros p m' Hp.
      * intros p o Hp.
        repeat (apply elem_of_cons in Hp as [[=]|Hp]).
        by apply elem_of_nil in Hp.
Qed.

Lemma lookup_or_translate_plays_existing (text : string) :
  effect (lookup_or_translate env text) plays_existing.
Proof.
  apply lookup_or_translate_effect; [typeclasses eauto|..]; intros;
    try (by apply plays_existing_emit); apply plays_existing_set_cache.
Qed.

Lemma plays_existing_quiet (e : event) (st : State) :
  quiet_event e -> plays_existing st (emit e st).
Proof. intros He. apply plays_existing_emit. intros p o ->. done. Qed.

Lemma loop_plays_existing (fuel : nat) :
  effect (loop env source_lang target_lang fuel) plays_existing.
Proof.
  apply (loop_effect env source_lang target_lang plays_existing).
  - intros e st. apply plays_existing_quiet.
  - apply lookup_or_translate_plays_existing.
  - apply tts_attempt_plays_existing.
Qed.

Lemma text_to_speech_plays_existing (text : string) (max_retries : Z) :
  effect (text_to_speech env target_lang text max_retries) plays_existing.
Proof.
  apply (text_to_speech_effect env target_lang plays_existing).
  - intros e st. apply plays_existing_quiet.
  - apply tts_attempt_plays_existing.
Qed.

Lemma tts_attempt_files_kept_except (text : string) :
  effect (tts_attempt env target_lang text)
         (files_kept_except (get_audio_filename env target_lang text)).
Proof.
  intros st p Hp.
  unfold tts_attempt, bind, file_exists, gtts_save, playsound, call, print.
  simpl. destruct (bool_decide _); simpl.
  - by destruct (env_play _ _ _).
  - destruct (env_save _ _ _ _ _) as [|e []]; simpl;
      try destruct (env_play _ _ _); simpl;
      by rewrite ?lookup_insert_ne.
Qed.

Lemma text_to_speech_files_kept_except (text : string) (max_retries : Z) :
  effect (text_to_speech env target_lang text max_retries)
         (files_kept_except (get_audio_filename env target_lang text)).
Proof.
  unfold text_to_speech.
  apply (tts_for_effect env target_lang
           (files_kept_except (get_audio_filename env target_lang text)));
    [apply tts_attempt_files_kept_except|..];
    intros; by apply same_files_kept_except.
Qed.

End AudioFiles.

Lemma written_inv_emit (st0 st : State) (e : event) :
  (forall p, is_written_at p e = false) ->
  keeps (written_inv st0) st (emit e st).
Proof.
  intros He (l & Hl & Hinv). exists (l ++ [e]).
  split; [by rewrite log_emit, Hl, <- app_assoc|].
  intros p. rewrite count_events_snoc, He, Nat.add_0_r. apply Hinv.
Qed.

Lemma written_inv_quiet (st0 st : State) (e : event) :
  quiet_event e -> keeps (written_inv st0) st (emit e st).
Proof. intros He. apply written_inv_emit. intros p. by destruct e. Qed.

Lemma written_inv_set_cache (st0 st : State) (c : dict) :
  keeps (written_inv st0) st (set_cache c st).
Proof. intros (l & Hl & Hinv). by exists l. Qed.

Lemma written_inv_write (st0 st : State) (text lang path : string)
    (r : save_result) (t : Z) :
  cache_dir_files st !! path = None ->
  keeps (written_inv st0) st
    (set_files (<[path := t]> (cache_dir_files st))
               (emit (EvSave text lang path r) st)).
Proof.
  intros Habsent (l & Hl & Hinv).
  exists (l ++ [EvSave text lang path r]).
  split; [by simpl; rewrite Hl, <- app_assoc|].
  intros p. rewrite count_events_snoc.
  destruct (Hinv p) as [Hnone Hle].
  destruct (decide (path = p)) as [->|Hne].
  - simpl. rewrite lookup_insert_eq, (Hnone Habsent). split; [done|].
    destruct r as [|e []]; try destruct (bool_decide _); simpl; lia.
  - assert (Hw : is_written_at p (EvSave text lang path r) = false).
    { destruct r as [|e []]; simpl; [| |done];
        by apply bool_decide_eq_false_2. }
    rewrite Hw, Nat.add_0_r. simpl. by rewrite lookup_insert_ne.
Qed.

Lemma count_events_elem (f : event -> bool) (e : event) (l : list event) :
  e ∈ l -> f e = true -> (1 <= count_events f l)%nat.
Proof.
  induction l as [|x r IH]; intros He Hf; [by apply elem_of_nil in He|].
  simpl. apply elem_of_cons in He as [<-|He].
  - rewrite Hf. lia.
  - specialize (IH He Hf). destruct (f x); lia.
Qed.

Lemma count_written_saved (p : string) (l : list event) :
  (count_events (is_saved_at p) l <= count_events (is_written_at p) l)%nat.
Proof.
  induction l as [|e r IH]; simpl; [done|].
  destruct e as [| | | | | | | | | |? ? ? [|? []]| | | | |]; simpl;
    try destruct (bool_decide _); lia.
Qed.

Section Speech.
Variable env : Env.
Variables source_lang target_lang : string.

Lemma tts_attempt_written_inv (st0 : State) (text : string) :
  effect (tts_attempt env target_lang text) (keeps (written_inv st0)).
Proof.
  intros st Hinv.
  set (path := get_audio_filename env target_lang text).
  destruct (cache_dir_files st !! path) as [m|] eqn:Hfile.
  - rewrite tts_attempt_present by (by fold path; rewrite Hfile).
    unfold playsound, call. fold path.
    destruct (env_play _ _ _); simpl;
      by apply written_inv_emit, written_inv_emit.
  - rewrite (tts_attempt_absent _ _ _ _ Hfile). simpl. fold path.
    set (s2 := emit (EvPrint MsgGenerating) (emit (EvExists path false) st)).
    assert (Hinv2 : written_inv st0 s2).
    { by apply written_inv_emit, written_inv_emit. }
    assert (Hfile2 : cache_dir_files s2 !! path = None) by done.
    pose proof (written_inv_write st0 s2 text target_lang path) as Hw.
    destruct (env_save _ _ _ _ _) as [|e []].
    + unfold playsound, call.
      destruct (env_play _ _ _); simpl;
        by apply written_inv_emit, (Hw Saved).
    + by apply (Hw (SaveFailed e true)).
    + by apply written_inv_emit.
Qed.

Lemma loop_written_inv (st0 : State) (fuel : nat) :
  effect (loop env source_lang target_lang fuel) (keeps (written_inv st0)).
Proof.
  apply (loop_effect env source_lang target_lang (keeps (written_inv st0))).
  - intros e st. apply written_inv_quiet.
  - intros text. apply lookup_or_translate_effect; [typeclasses eauto|..];
      intros; try (by apply written_inv_emit); apply written_inv_set_cache.
  - apply tts_attempt_written_inv.
Qed.

Lemma tts_attempt_speech_events (text : string) :
  effect (tts_attempt env target_lang text)
         (emits (speech_event (get_audio_filename env target_lang text))).
Proof.
  unfold tts_attempt.
  eff effect_bind; [|intros present].
  { intros st. by apply emits_emit. }
  eff effect_bind; [|intros _].
  - eff effect_if; [|by eff effect_ret].
    eff effect_bind; [|intros _].
    + eff effect_print. intros st. by apply emits_emit.
    + intros st. unfold gtts_save.
      destruct (env_save _ _ _ _ _) as [|e []]; simpl;
        eexists [_]; (split; [done|by apply Forall_singleton]).
  - eff effect_call. intros o st. by apply emits_emit.
Qed.

Lemma text_to_speech_speech_events (text : string) (max_retries : Z) :
  effect (text_to_speech env target_lang text max_retries)
         (emits (speech_event (get_audio_filename env target_lang text))).
Proof.
  unfold text_to_speech.
  apply (tts_for_effect env target_lang
           (emits (speech_event (get_audio_filename env target_lang text))));
    [apply tts_attempt_speech_events|..]; intros; by apply emits_emit.
Qed.

End Speech.

(** X6.  The loop never deletes an audio file and never writes one again:
    a file that is in the cache directory at some moment is there, with
    the same modification time, at every later moment of the loop,
    whatever is said, translated and spoken meanwhile and whatever
    fails. *)
Theorem loop_keeps_audio_files :
  forall (env : Env) (source_lang target_lang : string) (fuel : nat)
         (st : State) (file : string) (mtime : Z),
    cache_dir_files st !! file = Some mtime ->
    cache_dir_files (loop env source_lang target_lang fuel st).2 !! file
      = Some mtime.
Proof.
  intros env source_lang target_lang fuel st file mtime Hfile.
  destruct (loop_plays_existing env source_lang target_lang fuel st)
    as (l & _ & Hkept & _).
  by apply Hkept.
Qed.

Lemma loop_keeps_audio_files_witness :
  cache_dir_files bonjour_on_disk !! "audio_fr_bonjour.mp3" = Some 12345 /\
  cache_dir_files (loop calm_env "en" "fr" 3 bonjour_on_disk).2
    !! "audio_fr_bonjour.mp3" = Some 12345.
Proof.
  assert (H : cache_dir_files bonjour_on_disk !! "audio_fr_bonjour.mp3"
              = Some 12345) by (vm_compute; reflexivity).
  split; [exact H|].
  exact (loop_keeps_audio_files calm_env "en" "fr" 3 bonjour_on_disk
           "audio_fr_bonjour.mp3" 12345 H).
Defined.

(** X7.  Whatever the loop has handed to the player is a file of the cache
    directory: the player is never started on a path for which neither the
    existence check nor the synthesis has produced a file. *)
Theorem played_files_exist :
  forall (env : Env) (source_lang target_lang : string) (fuel : nat)
         (st : State) (path : string) (o : outcome unit),
    let st' := (loop env source_lang target_lang fuel st).2 in
    EvPlay path o ∈ new_events st st' ->
    is_Some (cache_dir_files st' !! path).
Proof.
  intros env source_lang target_lang fuel st path o. simpl.
  destruct (loop_plays_existing env source_lang target_lang fuel st)
    as (l & Hl & _ & Hplay).
  rewrite (new_events_app _ _ _ Hl). apply Hplay.
Qed.

Lemma played_files_exist_witness :
  EvPlay "audio_fr_bonjour.mp3" (Ok tt)
    ∈ new_events empty_state (loop chatty "en" "fr" 1 empty_state).2 /\
  is_Some (cache_dir_files (loop chatty "en" "fr" 1 empty_state).2
             !! "audio_fr_bonjour.mp3").
Proof.
  assert (H : EvPlay "audio_fr_bonjour.mp3" (Ok tt)
                ∈ new_events empty_state
                    (loop chatty "en" "fr" 1 empty_state).2).
  { set (l := new_events _ _). vm_compute in l. subst l.
    apply list_elem_of_In. simpl. repeat first [left; reflexivity | right]. }
  split; [exact H|].
  exact (played_files_exist chatty "en" "fr" 1 empty_state
           "audio_fr_bonjour.mp3" (Ok tt) H).
Defined.

(** X8.  [text_to_speech] deals with one file only, the one named after
    its text: every existence check, synthesis and playback of the call is
    for that path, every other file of the cache directory is left as it
    is, and if the file of the text exists already it keeps its
    modification time. *)
Theorem text_to_speech_own_file_only :
  forall (env : Env) (target_lang text : string) (max_retries : Z)
         (st : State),
    let path := get_audio_filename env target_lang text in
    let st' := (text_to_speech env target_lang text max_retries st).2 in
    Forall (speech_event path) (new_events st st') /\
    (forall p, p <> path ->
               cache_dir_files st' !! p = cache_dir_files st !! p) /\
    (forall m, cache_dir_files st !! path = Some m ->
               cache_dir_files st' !! path = Some m).
Proof.
  intros env target_lang text max_retries st. simpl. split; [|split].
  - apply emits_new_events, text_to_speech_speech_events.
  - apply text_to_speech_files_kept_except.
  - intros m Hm.
    destruct (text_to_speech_plays_existing env target_lang text
                max_retries st) as (l & _ & Hkept & _).
    by apply Hkept.
Qed.

Lemma text_to_speech_own_file_only_witness :
  let st' := (text_to_speech calm_env "fr" "bonjour" 3 bonjour_on_disk).2 in
  get_audio_filename calm_env "fr" "bonjour" = "audio_fr_bonjour.mp3" /\
  Forall (speech_event "audio_fr_bonjour.mp3")
         (new_events bonjour_on_disk st') /\
  cache_dir_files st' !! "audio_fr_salut.mp3"
    = cache_dir_files bonjour_on_disk !! "audio_fr_salut.mp3" /\
  cache_dir_files st' !! "audio_fr_bonjour.mp3" = Some 12345.
Proof.
  intros st'.
  destruct (text_to_speech_own_file_only calm_env "fr" "bonjour" 3
              bonjour_on_disk) as (Hevents & Hothers & Hown).
  split; [reflexivity|]. split; [exact Hevents|]. split.
  - apply Hothers. discriminate.
  - apply Hown. vm_compute. reflexivity.
Defined.

(** X9.  A synthesis that fails and leaves a file behind is never made
    good: the loop does not synthesize that path again, so no successful
    synthesis of the path happens in the whole loop, the write of the
    failed call is the only one, and the file it left stays in the cache
    directory to be played. *)
Theorem failed_synthesis_never_repaired :
  forall (env : Env) (source_lang target_lang : string) (fuel : nat)
         (st : State) (text lang path : string) (e : exn),
    let st' := (loop env source_lang target_lang fuel st).2 in
    EvSave text lang path (SaveFailed e true) ∈ new_events st st' ->
    count_events (is_saved_at path) (new_events st st') = 0%nat /\
    count_events (is_written_at path) (new_events st st') = 1%nat /\
    is_Some (cache_dir_files st' !! path).
Proof.
  intros env source_lang target_lang fuel st text lang path e. simpl.
  destruct (loop_written_inv env source_lang target_lang st fuel st)
    as (l & Hl & Hinv).
  { exists []. rewrite app_nil_r. split; [done|].
    intros p. simpl. split; [done|lia]. }
  rewrite (new_events_app _ _ _ Hl). intros Hin.
  destruct (Hinv path) as [Hnone Hle].
  assert (Hge : (1 <= count_events (is_written_at path) l)%nat).
  { apply (count_events_elem _ _ _ Hin). simpl.
    by apply bool_decide_eq_true_2. }
  assert (Hone : count_events (is_written_at path) l = 1%nat) by lia.
  split; [|split; [done|]].
  - pose proof (count_written_saved path l) as Hsaved.
    assert (Hsplit : (count_events (is_saved_at path) l
                      + 1 <= count_events (is_written_at path) l)%nat);
      [|lia].
    clear -Hin. induction l as [|x r IH]; [by apply elem_of_nil in Hin|].
    apply elem_of_cons in Hin as [<-|Hin].
    + simpl. rewrite bool_decide_eq_true_2 by done.
      pose proof (count_written_saved path r). lia.
    + specialize (IH Hin). simpl.
      destruct x as [| | | | | | | | | |? ? ? [|? []]| | | | |]; simpl;
        try destruct (bool_decide _); lia.
  - destruct (cache_dir_files _ !! path) eqn:Hf; [done|].
    specialize (Hnone eq_refl). lia.
Qed.

Lemma failed_synthesis_never_repaired_witness :
  let st' := (loop (synthesis_leaves_file_before 11) "en" "fr" 2
                empty_state).2 in
  EvSave "bonjour" "fr" "audio_fr_bonjour.mp3"
         (SaveFailed (OtherException "tts error") true)
    ∈ new_events empty_state st' /\
  count_events (is_saved_at "audio_fr_bonjour.mp3")
               (new_events empty_state st') = 0%nat /\
  count_events (is_written_at "audio_fr_bonjour.mp3")
               (new_events empty_state st') = 1%nat /\
  is_Some (cache_dir_files st' !! "audio_fr_bonjour.mp3").
Proof.
  simpl.
  assert (H : EvSave "bonjour" "fr" "audio_fr_bonjour.mp3"
                     (SaveFailed (OtherException "tts error") true)
                ∈ new_events empty_state
                    (loop (synthesis_leaves_file_before 11) "en" "fr" 2
                       empty_state).2).
  { set (l := new_events _ _). vm_compute in l. subst l.
    apply list_elem_of_In. simpl. repeat first [left; reflexivity | right]. }
  split; [exact H|].
  exact (failed_synthesis_never_repaired (synthesis_leaves_file_before 11)
           "en" "fr" 2 empty_state "bonjour" "fr" "audio_fr_bonjour.mp3"
           (OtherException "tts error") H).
Defined.

(** ** Eviction and lookups *)

Lemma dict_get_app_r (k : string) (d d' : dict) :
  k ∉ d.*1 -> dict_get k (d ++ d') = dict_get k d'.
Proof.
  induction d as [|[k' v'] r IH]; simpl; [done|].
  intros Hk. apply not_elem_of_cons in Hk as [Hne Hr].
  rewrite decide_False by done. auto.
Qed.

Lemma evicted_key_gone (n : nat) (d : dict) (k : string) :
  NoDup d.*1 -> k ∈ (take n d).*1 -> (k ∉ (drop n d).*1).
Proof.
  intros Hnd Hk Hk'.
  rewrite <- (take_drop n d), fmap_app in Hnd.
  apply NoDup_app in Hnd as (_ & Hdisj & _). by apply (Hdisj k).
Qed.

Lemma retained_key_get (n : nat) (d : dict) (k : string) :
  k ∉ (take n d).*1 -> dict_get k (drop n d) = dict_get k d.
Proof.
  intros Hk. rewrite <- (take_drop n d) at 2. by rewrite dict_get_app_r.
Qed.

Lemma manage_cache_evicts (max_cache_size : Z) (st : State) :
  len (translation_cache st) > max_cache_size ->
  translation_cache (manage_cache max_cache_size st).2
    = drop (Z.to_nat (int_mul_0_2 max_cache_size)) (translation_cache st).
Proof.
  intros Hgt. rewrite manage_cache_spec. simpl.
  assert (H : (len (translation_cache st) >? max_cache_size) = true)
    by (apply Z.gtb_lt; lia).
  by rewrite H.
Qed.

(** X10.  What an eviction means for the lookups that follow, in a cache
    with distinct keys that holds more than [max_cache_size] entries: a
    text among the [int(max_cache_size * 0.2)] entries inserted first is
    forgotten, so that the next time it is heard it is a miss and the
    translator is called for it again; every other text is looked up to
    what it was looked up to before. *)
Theorem evicted_texts_are_translated_again :
  forall (env : Env) (max_cache_size : Z) (st : State),
    NoDup (translation_cache st).*1 ->
    len (translation_cache st) > max_cache_size ->
    let st' := (manage_cache max_cache_size st).2 in
    let oldest :=
      take (Z.to_nat (int_mul_0_2 max_cache_size)) (translation_cache st) in
    (forall text,
       text ∈ oldest.*1 ->
       dict_contains text (translation_cache st') = false /\
       EvTranslate text (env_translate env (S (tick st')) text)
         ∈ new_events st' (lookup_or_translate env text st').2) /\
    (forall text,
       text ∉ oldest.*1 ->
       dict_get text (translation_cache st')
         = dict_get text (translation_cache st)).
Proof.
  intros env max_cache_size st Hnd Hgt. simpl.
  rewrite (manage_cache_evicts _ _ Hgt). split.
  - intros text Hold.
    pose proof (evicted_key_gone _ _ _ Hnd Hold) as Hgone.
    split; [by apply dict_contains_false|].
    rewrite <- (manage_cache_evicts _ _ Hgt) in Hgone.
    set (st' := (manage_cache max_cache_size st).2) in *.
    rewrite (lookup_miss env text st' Hgone). simpl.
    rewrite tick_emit.
    destruct (env_translate env (S (tick st')) text) as [r|e]; simpl;
      unfold new_events; simpl; rewrite <- ?app_assoc, drop_app_length;
      apply list_elem_of_In; simpl; auto.
  - intros text Hnew. by apply retained_key_get.
Qed.

Lemma evicted_texts_are_translated_again_witness :
  let st := state_of_cache (letter_entries 11) in
  let st' := (manage_cache 10 st).2 in
  NoDup (translation_cache st).*1 /\
  len (translation_cache st) > 10 /\
  dict_contains "B" (translation_cache st') = false /\
  EvTranslate "B" (Ok "bonjour")
    ∈ new_events st' (lookup_or_translate calm_env "B" st').2 /\
  dict_get "C" (translation_cache st') = Some "x".
Proof.
  simpl.
  assert (Hnd : NoDup (translation_cache
                         (state_of_cache (letter_entries 11))).*1)
    by (apply (bool_decide_unpack _); vm_compute; exact I).
  assert (Hgt : len (translation_cache (state_of_cache (letter_entries 11)))
                > 10) by (vm_compute; reflexivity).
  destruct (evicted_texts_are_translated_again calm_env 10
              (state_of_cache (letter_entries 11)) Hnd Hgt) as [Hold Hnew].
  assert (HB : "B" ∈ (take (Z.to_nat (int_mul_0_2 10))
                        (translation_cache
                           (state_of_cache (letter_entries 11)))).*1).
  { apply list_elem_of_In. vm_compute. auto. }
  assert (HC : "C" ∉ (take (Z.to_nat (int_mul_0_2 10))
                        (translation_cache
                           (state_of_cache (letter_entries 11)))).*1).
  { intros H. apply list_elem_of_In in H. vm_compute in H.
    destruct H as [H|[H|[]]]; discriminate H. }
  destruct (Hold "B" HB) as [Hmiss Hcall].
  split; [exact Hnd|]. split; [exact Hgt|]. split; [exact Hmiss|].
  split; [exact Hcall|]. exact (eq_trans (Hnew "C" HC) eq_refl).
Defined.

(** X11.  A cache that is managed after every lookup stays within its
    bound: when [max_cache_size] is at least 5 and the cache holds at most
    [max_cache_size] entries, it still does after a lookup (which may add
    an entry) followed by [manage_cache], whatever the translator
    answers. *)
Theorem managed_cache_stays_bounded :
  forall (env : Env) (max_cache_size : Z) (text : string) (st : State),
    5 <= max_cache_size ->
    len (translation_cache st) <= max_cache_size ->
    len (translation_cache
           ((lookup_or_translate env text ;; manage_cache max_cache_size)
              st).2)
      <= max_cache_size.
Proof.
  intros env max_cache_size text st Hmax Hlen.
  assert (Hmanage : forall s : State,
            len (translation_cache s) <= max_cache_size + 1 ->
            len (translation_cache (manage_cache max_cache_size s).2)
              <= max_cache_size).
  { intros s Hs. rewrite manage_cache_spec. simpl.
    destruct (Z.gtb_spec (len (translation_cache s)) max_cache_size);
      [|lia].
    unfold len in *. rewrite length_drop.
    assert (1 <= int_mul_0_2 max_cache_size).
    { unfold int_mul_0_2. apply Z.quot_le_lower_bound; lia. }
    lia. }
  destruct (decide (text ∈ (translation_cache st).*1)) as [Hin|Hnin].
  - destruct (dict_get_is_Some _ _ Hin) as [v Hv].
    rewrite (bind_val _ _ _ _ _ (lookup_hit env _ _ _ Hv Hin)).
    apply Hmanage. simpl. lia.
  - pose proof (lookup_miss env _ _ Hnin) as Hmiss. simpl in Hmiss.
    destruct (env_translate env _ text) as [r|e].
    + rewrite (bind_val _ _ _ _ _ Hmiss). apply Hmanage. simpl.
      rewrite (dict_set_fresh _ _ _ Hnin). unfold len in *.
      rewrite length_app. simpl. lia.
    + rewrite (bind_exn _ _ _ _ _ Hmiss). simpl. lia.
Qed.

Lemma managed_cache_stays_bounded_witness :
  5 <= 10 /\
  len (translation_cache (state_of_cache (letter_entries 10))) <= 10 /\
  len (translation_cache
         ((lookup_or_translate calm_env "hello" ;; manage_cache 10)
            (state_of_cache (letter_entries 10))).2) <= 10.
Proof.
  assert (H5 : 5 <= 10) by lia.
  assert (Hlen : len (translation_cache (state_of_cache (letter_entries 10)))
                 <= 10) by (vm_compute; discriminate).
  split; [exact H5|]. split; [exact Hlen|].
  exact (managed_cache_stays_bounded calm_env 10 "hello"
           (state_of_cache (letter_entries 10)) H5 Hlen).
Defined.

(** X12.  Eviction goes by insertion, not by use: a text whose translation
    has just been served from the cache is evicted by the next
    [manage_cache] all the same when its entry is the oldest one. *)
Theorem eviction_ignores_recent_use :
  forall (env : Env) (max_cache_size : Z) (st : State)
         (text translation : string) (rest : dict),
    translation_cache st = (text, translation) :: rest ->
    text ∉ rest.*1 ->
    5 <= max_cache_size ->
    len (translation_cache st) > max_cache_size ->
    let s1 := (lookup_or_translate env text st).2 in
    (lookup_or_translate env text st).1 = Val translation /\
    count_events (is_translate_of text) (new_events st s1) = 0%nat /\
    text ∉ (translation_cache (manage_cache max_cache_size s1).2).*1.
Proof.
  intros env max_cache_size st text translation rest Hc Hfresh Hmax Hgt.
  simpl.
  assert (Hget : dict_get text (translation_cache st) = Some translation).
  { rewrite Hc. simpl. by rewrite decide_True. }
  assert (Hin : text ∈ (translation_cache st).*1).
  { rewrite Hc. simpl. left. }
  rewrite (lookup_hit _ _ _ _ Hget Hin). simpl.
  split; [done|]. split.
  { unfold new_events. simpl. by rewrite drop_app_length. }
  rewrite manage_cache_spec. simpl.
  assert (H : (len (translation_cache st) >? max_cache_size) = true)
    by (apply Z.gtb_lt; lia).
  rewrite H, Hc.
  assert (Hn : exists n, Z.to_nat (int_mul_0_2 max_cache_size) = S n).
  { assert (1 <= int_mul_0_2 max_cache_size).
    { unfold int_mul_0_2. apply Z.quot_le_lower_bound; lia. }
    exists (Z.to_nat (int_mul_0_2 max_cache_size - 1)). lia. }
  destruct Hn as [n ->]. simpl.
  intros Hk. apply Hfresh.
  rewrite <- (take_drop n rest), fmap_app. apply elem_of_app. by right.
Qed.

Lemma eviction_ignores_recent_use_witness :
  let st := state_of_cache (letter_entries 11) in
  let s1 := (lookup_or_translate calm_env "A" st).2 in
  translation_cache st = ("A", "x") :: drop 1 (letter_entries 11) /\
  ("A" ∉ (drop 1 (letter_entries 11)).*1) /\
  5 <= 10 /\
  len (translation_cache st) > 10 /\
  (lookup_or_translate calm_env "A" st).1 = Val "x" /\
  count_events (is_translate_of "A") (new_events st s1) = 0%nat /\
  "A" ∉ (translation_cache (manage_cache 10 s1).2).*1.
Proof.
  simpl.
  assert (Hc : translation_cache (state_of_cache (letter_entries 11))
               = ("A", "x") :: drop 1 (letter_entries 11)) by reflexivity.
  assert (Hfresh : "A" ∉ (drop 1 (letter_entries 11)).*1).
  { apply (bool_decide_unpack _). vm_compute. exact I. }
  assert (H5 : 5 <= 10) by lia.
  assert (Hgt : len (translation_cache (state_of_cache (letter_entries 11)))
                > 10) by (vm_compute; reflexivity).
  split; [exact Hc|]. split; [exact Hfresh|]. split; [exact H5|].
  split; [exact Hgt|].
  exact (eviction_ignores_recent_use calm_env 10
           (state_of_cache (letter_entries 11)) "A" "x"
           (drop 1 (letter_entries 11)) Hc Hfresh H5 Hgt).
Defined.

(** ** The session from the microphone to the sweep, and [main] *)


Section SessionTrace.
Variable env : Env.
Variables source_lang target_lang : string.

Lemma session_body_emits (fuel : nat) :
  effect (adjust_for_ambient_noise env ;;
          print (MsgListening source_lang) ;;
          print MsgPressCtrlC ;;
          loop env source_lang target_lang fuel)
         (emits body_event).
Proof.
  eff effect_bind; [|intros _].
  { intros s. eapply emits_weaken; [|apply adjust_emits]. by left. }
  eff effect_bind; [|intros _].
  { eff effect_print. intros s. apply emits_emit. by left. }
  eff effect_bind; [|intros _].
  { eff effect_print. intros s. apply emits_emit. by left. }
  intros s. eapply emits_weaken; [|apply loop_emits]. by right.
Qed.

Lemma session_trace (fuel : nat) (st : State) :
  env_mic_open env (tick st) = Ok tt ->
  let res := listen_and_translate env source_lang target_lang fuel st in
  (res.1 = Running ->
   exists lb,
     new_events st res.2 = EvMicOpen (Ok tt) :: lb /\
     Forall body_event lb) /\
  (res.1 <> Running ->
   exists lb lc,
     new_events st res.2
       = EvMicOpen (Ok tt) :: lb ++ [EvMicClose; EvPrint MsgStopped] ++ lc /\
     Forall body_event lb /\ Forall sweep_event lc).
Proof.
  intros Hmic. unfold listen_and_translate.
  set (body := adjust_for_ambient_noise env ;;
               print (MsgListening source_lang) ;;
               print MsgPressCtrlC ;;
               loop env source_lang target_lang fuel).
  set (s0 := emit (EvMicOpen (Ok tt)) st).
  destruct (session_body_outcome env source_lang target_lang fuel s0)
    as (lb' & _ & _ & Hrb).
  destruct (session_body_emits fuel s0) as (lb & Hlb & HPb).
  fold body in Hlb, Hrb.
  destruct (body s0) as [rb sb] eqn:Hbody. simpl in Hlb, Hrb.
  rewrite <- app_assoc in Hlb. simpl in Hlb.
  destruct Hrb as [-> | ->].
  - rewrite (finally_running _ _ _ sb).
    2: { apply try_except_running.
         rewrite (with_microphone_opened _ _ _ Hmic).
         by apply finally_running. }
    simpl. split; [|done]. intros _. exists lb.
    by rewrite (new_events_app _ _ _ Hlb).
  - assert (Hw : with_microphone env body st
                 = (Exn KeyboardInterrupt, emit EvMicClose sb)).
    { rewrite (with_microphone_opened _ _ _ Hmic).
      by rewrite (finally_done _ _ _ _ _ Hbody). }
    set (sc := emit (EvPrint MsgStopped) (emit EvMicClose sb)).
    assert (Ht : try_except (with_microphone env body)
                   (fun e => if is_KeyboardInterrupt e
                             then Some (print MsgStopped) else None) st
                 = (Val tt, sc)).
    { by rewrite (try_except_caught _ _ _ _ _ (print MsgStopped) Hw). }
    rewrite (finally_done _ _ _ _ _ Ht) by done.
    destruct (cleanup_emits env sc) as (lc & Hlc & HPc).
    destruct (cleanup_one_glob env sc) as (_ & _ & _ & Hrc).
    assert (Hlog : log (cleanup env sc).2
                   = log st ++ EvMicOpen (Ok tt)
                       :: lb ++ [EvMicClose; EvPrint MsgStopped] ++ lc).
    { rewrite Hlc. unfold sc. rewrite !log_emit, Hlb, <- !app_assoc. done. }
    assert (Hshape : exists lb0 lc0,
              new_events st (cleanup env sc).2
                = EvMicOpen (Ok tt)
                    :: lb0 ++ [EvMicClose; EvPrint MsgStopped] ++ lc0 /\
              Forall body_event lb0 /\ Forall sweep_event lc0).
    { exists lb, lc. by rewrite (new_events_app _ _ _ Hlog). }
    destruct (cleanup env sc) as [[[]|e|] s2]; simpl in *.
    + split; [done|]. by intros _.
    + split; [done|]. by intros _.
    + by destruct Hrc.
Qed.

Lemma session_without_microphone (fuel : nat) (st : State) (e : exn) :
  env_mic_open env (tick st) = Raise e ->
  is_Exception e = true ->
  let res := listen_and_translate env source_lang target_lang fuel st in
  (res.1 = Exn e \/ res.1 = Exn KeyboardInterrupt) /\
  exists lc,
    new_events st res.2 = EvMicOpen (Raise e) :: lc /\
    Forall sweep_event lc.
Proof.
  intros Hmic He. unfold listen_and_translate.
  set (body := adjust_for_ambient_noise env ;;
               print (MsgListening source_lang) ;;
               print MsgPressCtrlC ;;
               loop env source_lang target_lang fuel).
  set (s0 := emit (EvMicOpen (Raise e)) st).
  assert (Ht : try_except (with_microphone env body)
                 (fun e => if is_KeyboardInterrupt e
                           then Some (print MsgStopped) else None) st
               = (Exn e, s0)).
  { apply try_except_uncaught.
    - by apply with_microphone_failed.
    - by destruct e. }
  rewrite (finally_done _ _ _ _ _ Ht) by done.
  destruct (cleanup_emits env s0) as (lc & Hlc & HPc).
  destruct (cleanup_one_glob env s0) as (_ & _ & _ & Hrc).
  assert (Hlog : log (cleanup env s0).2
                 = log st ++ EvMicOpen (Raise e) :: lc).
  { rewrite Hlc. unfold s0. by rewrite log_emit, <- app_assoc. }
  assert (Hshape : exists lc0,
            new_events st (cleanup env s0).2 = EvMicOpen (Raise e) :: lc0 /\
            Forall sweep_event lc0).
  { exists lc. by rewrite (new_events_app _ _ _ Hlog). }
  destruct (cleanup env s0) as [[[]|e'|] s2]; simpl in *.
  - split; [by left|done].
  - split; [|done]. right. destruct Hrc as [Hrc|Hrc]; [done|].
    by injection Hrc as ->.
  - by destruct Hrc.
Qed.

Lemma main_report (fuel : nat) (st s1 : State) (e : exn) :
  (init env source_lang target_lang ;;
   listen_and_translate env source_lang target_lang fuel) st = (Exn e, s1) ->
  is_Exception e = true ->
  main env source_lang target_lang fuel st
    = (Val tt,
       emit (EvPrint MsgCheckLanguages) (emit (EvPrint (MsgMainError e)) s1)).
Proof.
  intros Hrun He. unfold main.
  rewrite (try_except_caught _ _ _ _ _
             (print (MsgMainError e) ;; print MsgCheckLanguages) Hrun);
    [done|].
  unfold on_Exception. by rewrite He.
Qed.


End SessionTrace.

(** X13.  The order of a session whose microphone opens: the microphone
    is opened first; then come the calibration and the passes of the
    loop; when the session is stopped the microphone is closed, once,
    then the stop is announced, and the sweep of the cache directory comes
    last.  While the loop runs the microphone has not been closed and
    nothing has been swept. *)
Theorem session_trace_shape :
  forall (env : Env) (source_lang target_lang : string) (fuel : nat)
         (st : State),
    env_mic_open env (tick st) = Ok tt ->
    let res := listen_and_translate env source_lang target_lang fuel st in
    (res.1 = Running ->
     exists lb,
       new_events st res.2 = EvMicOpen (Ok tt) :: lb /\
       Forall body_event lb) /\
    (res.1 <> Running ->
     exists lb lc,
       new_events st res.2
         = EvMicOpen (Ok tt)
             :: lb ++ [EvMicClose; EvPrint MsgStopped] ++ lc /\
       Forall body_event lb /\ Forall sweep_event lc).
Proof.
  intros env source_lang target_lang fuel st Hmic.
  by apply session_trace.
Qed.

Lemma session_trace_shape_witness :
  let env := interrupted_after 20 calm_env in
  let res := listen_and_translate env "en" "fr" 5 empty_state in
  env_mic_open env (tick empty_state) = Ok tt /\
  res.1 <> Running /\
  exists lb lc,
    new_events empty_state res.2
      = EvMicOpen (Ok tt) :: lb ++ [EvMicClose; EvPrint MsgStopped] ++ lc /\
    Forall body_event lb /\ Forall sweep_event lc.
Proof.
  intros env res.
  assert (Hmic : env_mic_open env (tick empty_state) = Ok tt)
    by reflexivity.
  assert (Hres : res.1 <> Running) by (vm_compute; discriminate).
  split; [exact Hmic|]. split; [exact Hres|].
  exact (proj2 (session_trace_shape env "en" "fr" 5 empty_state Hmic) Hres).
Defined.

(** X14.  When the microphone cannot be opened, nothing is calibrated and
    nothing is listened to, the microphone is not closed and no stop is
    announced: the failed opening is followed by the sweep of the cache
    directory only, and the error of the microphone leaves
    [listen_and_translate] (unless Ctrl-C interrupts the sweep).  [main]
    then reports that error, followed by the advice to check the language
    codes, and ends normally. *)
Theorem microphone_unavailable :
  forall (env : Env) (source_lang target_lang : string) (fuel : nat)
         (st : State) (e : exn),
    env_mic_open env (tick st) = Raise e ->
    is_Exception e = true ->
    let res := listen_and_translate env source_lang target_lang fuel st in
    (res.1 = Exn e \/ res.1 = Exn KeyboardInterrupt) /\
    (exists lc,
       new_events st res.2 = EvMicOpen (Raise e) :: lc /\
       Forall sweep_event lc) /\
    (forall st0 : State,
       init env source_lang target_lang st0 = (Val tt, st) ->
       res.1 = Exn e ->
       main env source_lang target_lang fuel st0
         = (Val tt,
            emit (EvPrint MsgCheckLanguages)
                 (emit (EvPrint (MsgMainError e)) res.2))).
Proof.
  intros env source_lang target_lang fuel st e Hmic He res.
  destruct (session_without_microphone env source_lang target_lang fuel st e
              Hmic He) as [Hres Hshape].
  split; [exact Hres|]. split; [exact Hshape|].
  intros st0 Hinit Hexn. apply main_report; [|done].
  rewrite (bind_val _ _ _ _ _ Hinit). fold res.
  destruct res as [r s]. simpl in Hexn. by subst r.
Qed.

Lemma microphone_unavailable_witness :
  let e := OtherException "No Default Input Device" in
  let st := (init no_microphone "en" "fr" empty_state).2 in
  let res := listen_and_translate no_microphone "en" "fr" 5 st in
  env_mic_open no_microphone (tick st) = Raise e /\
  is_Exception e = true /\
  init no_microphone "en" "fr" empty_state = (Val tt, st) /\
  res.1 = Exn e /\
  (exists lc,
     new_events st res.2 = EvMicOpen (Raise e) :: lc /\
     Forall sweep_event lc) /\
  main no_microphone "en" "fr" 5 empty_state
    = (Val tt,
       emit (EvPrint MsgCheckLanguages)
            (emit (EvPrint (MsgMainError e)) res.2)).
Proof.
  intros e st res.
  assert (Hmic : env_mic_open no_microphone (tick st) = Raise e)
    by reflexivity.
  assert (He : is_Exception e = true) by reflexivity.
  assert (Hinit : init no_microphone "en" "fr" empty_state = (Val tt, st))
    by (vm_compute; reflexivity).
  assert (Hres : res.1 = Exn e) by (vm_compute; reflexivity).
  destruct (microphone_unavailable no_microphone "en" "fr" 5 st e Hmic He)
    as (_ & Hshape & Hmain).
  split; [exact Hmic|]. split; [exact He|]. split; [exact Hinit|].
  split; [exact Hres|]. split; [exact Hshape|].
  exact (Hmain empty_state Hinit Hres).
Defined.



(** X16.  The construction touches no file of the cache directory.  When
    it succeeds it leaves an empty translation cache, whatever the cache
    held: the probe translation is not kept, and any text, the probe
    string included, is a miss the first time it is heard, for which the
    translator is called.  When it fails the translation cache is as it
    was. *)
Theorem init_starts_with_empty_cache :
  forall (env : Env) (source_lang target_lang : string) (st : State),
    let res := init env source_lang target_lang st in
    cache_dir_files res.2 = cache_dir_files st /\
    (res.1 = Val tt ->
     translation_cache res.2 = [] /\
     forall (env' : Env) (text : string),
       EvTranslate text (env_translate env' (S (tick res.2)) text)
         ∈ new_events res.2 (lookup_or_translate env' text res.2).2) /\
    (res.1 <> Val tt -> translation_cache res.2 = translation_cache st).
Proof.
  intros env source_lang target_lang st. simpl.
  assert (Hcases :
    cache_dir_files (init env source_lang target_lang st).2
      = cache_dir_files st /\
    ((init env source_lang target_lang st).1 = Val tt ->
     translation_cache (init env source_lang target_lang st).2 = []) /\
    ((init env source_lang target_lang st).1 <> Val tt ->
     translation_cache (init env source_lang target_lang st).2
       = translation_cache st)).
  { rewrite init_run. simpl.
    destruct (env_translator_new _ _ _ _) as [[]|e1]; [|done].
    destruct (env_translate _ _ _) as [r|e2]; [|done].
    by destruct (env_mkdir _ _) as [[]|e3]. }
  destruct Hcases as (Hfiles & Hok & Hfail).
  split; [exact Hfiles|]. split; [|exact Hfail].
  intros Hval. specialize (Hok Hval). split; [exact Hok|].
  intros env' text.
  set (s1 := (init env source_lang target_lang st).2) in *.
  assert (Hmiss : text ∉ (translation_cache s1).*1).
  { rewrite Hok. apply not_elem_of_nil. }
  rewrite (lookup_miss env' text s1 Hmiss). simpl. rewrite tick_emit.
  destruct (env_translate env' (S (tick s1)) text) as [r|e]; simpl;
    unfold new_events; simpl; rewrite <- ?app_assoc, drop_app_length;
    apply list_elem_of_In; simpl; auto.
Qed.

Lemma init_starts_with_empty_cache_witness :
  let res := init calm_env "en" "fr" hello_cached in
  res.1 = Val tt /\
  translation_cache res.2 = [] /\
  EvTranslate "test" (Ok "bonjour")
    ∈ new_events res.2 (lookup_or_translate calm_env "test" res.2).2.
Proof.
  intros res.
  assert (H : res.1 = Val tt) by (vm_compute; reflexivity).
  destruct (init_starts_with_empty_cache calm_env "en" "fr" hello_cached)
    as (_ & Hok & _).
  destruct (Hok H) as [Hempty Hcall].
  split; [exact H|]. split; [exact Hempty|].
  exact (Hcall calm_env "test").
Defined.

(** ** The audio of a session and the final sweep *)

Lemma cleanup_keeps (env : Env) (st : State) (p : string) (m : Z) :
  cache_dir_files st !! p = Some m ->
  env_time env (tick st) - m <= 86400 ->
  cache_dir_files (cleanup env st).2 !! p = Some m.
Proof.
  intros Hm Hage.
  set (now := env_time env (tick st)) in *.
  set (names := filter (fun name => ends_with ".mp3" name = true)
                       (map_to_list (cache_dir_files st)).*1).
  set (s2 := emit (EvGlob names) (emit (EvTime now) st)).
  assert (Hrun : cleanup env st = for_each names (cleanup_file env now) s2).
  { unfold cleanup.
    rewrite (bind_val _ _ st (emit (EvTime now) st) now) by done.
    by rewrite (bind_val _ _ _ s2 names). }
  destruct (cleanup_loop_spec env now names s2 (glob_listing_NoDup _))
    as (l & _ & Hev & Hfiles & _).
  { intros f Hf. by apply glob_listing in Hf as [_ Hf]. }
  rewrite <- Hrun in Hfiles. destruct (Hfiles p) as [_ Hkeep].
  rewrite Hkeep; [done|]. intros Hin.
  destruct (Hev p _ Hin) as (_ & (m' & Hm' & Hold) & _).
  change (cache_dir_files s2) with (cache_dir_files st) in Hm'.
  rewrite Hm in Hm'. injection Hm' as <-. lia.
Qed.

#[local] Instance audio_kept_preorder (env : Env) : PreOrder (audio_kept env).
Proof.
  split.
  - intros st. exists []. rewrite app_nil_r. split; [done|].
    split; [done|]. intros text lang p Hp. by apply elem_of_nil in Hp.
  - intros s1 s2 s3 (l1 & Hl1 & Hk1 & Hs1) (l2 & Hl2 & Hk2 & Hs2).
    exists (l1 ++ l2). rewrite Hl2, Hl1, <- app_assoc. split; [done|].
    split; [by auto|].
    intros text lang p Hp. apply elem_of_app in Hp as [Hp|Hp];
      [|by eapply Hs2].
    destruct (Hs1 text lang p Hp) as (m & Hm & Hy). exists m. auto.
Qed.

Lemma audio_kept_emit (env : Env) (e : event) (st : State) :
  (forall text lang p, e <> EvSave text lang p Saved) ->
  audio_kept env st (emit e st).
Proof.
  intros He. exists [e]. split; [done|]. split; [done|].
  intros text lang p Hp. apply list_elem_of_singleton in Hp.
  by destruct (He text lang p).
Qed.

Lemma audio_kept_quiet (env : Env) (e : event) (st : State) :
  quiet_event e -> audio_kept env st (emit e st).
Proof. intros He. apply audio_kept_emit. intros text lang p ->. done. Qed.

Lemma audio_kept_set_cache (env : Env) (c : dict) (st : State) :
  audio_kept env st (set_cache c st).
Proof.
  exists []. simpl. rewrite app_nil_r. split; [done|]. split; [done|].
  intros text lang p Hp. by apply elem_of_nil in Hp.
Qed.

Section ShortSession.
Variable env : Env.
Variables source_lang target_lang : string.
Hypothesis clock : forall i j, env_time env j - env_time env i <= 86400.

Lemma tts_attempt_audio_kept (text : string) :
  effect (tts_attempt env target_lang text) (audio_kept env).
Proof.
  intros st.
  set (path := get_audio_filename env target_lang text).
  destruct (cache_dir_files st !! path) as [m|] eqn:Hfile.
  - rewrite tts_attempt_present by (by fold path; rewrite Hfile).
    fold path. unfold playsound, call.
    destruct (env_play _ _ _); simpl;
      (etrans; [|by apply audio_kept_emit]); by apply audio_kept_emit.
  - rewrite (tts_attempt_absent _ _ _ _ Hfile). simpl. fold path.
    set (s2 := emit (EvPrint MsgGenerating) (emit (EvExists path false) st)).
    assert (Hs2 : audio_kept env st s2).
    { etrans; [|by apply audio_kept_emit]. by apply audio_kept_emit. }
    assert (Hwrite : forall r,
              audio_kept env s2
                (set_files (<[path := env_time env (tick s2)]>
                              (cache_dir_files st))
                           (emit (EvSave text target_lang path r) s2))).
    { intros r. exists [EvSave text target_lang path r].
      split; [done|]. split.
      - intros p m Hp _. simpl. rewrite lookup_insert_ne; [done|].
        intros <-. change (cache_dir_files s2) with (cache_dir_files st) in Hp.
        congruence.
      - intros text' lang p Hp. apply list_elem_of_singleton in Hp.
        injection Hp as _ _ -> _. exists (env_time env (tick s2)).
        simpl. rewrite lookup_insert_eq. split; [done|].
        intros j. apply clock. }
    destruct (env_save _ _ _ _ _) as [|e []].
    + unfold playsound, call.
      destruct (env_play _ _ _); simpl;
        (etrans; [exact Hs2|]); (etrans; [apply (Hwrite Saved)|]);
        by apply audio_kept_emit.
    + etrans; [exact Hs2|]. apply Hwrite.
    + etrans; [exact Hs2|]. by apply audio_kept_emit.
Qed.

Lemma cleanup_audio_kept : effect (cleanup env) (audio_kept env).
Proof.
  intros st. destruct (cleanup_emits env st) as (l & Hl & HP).
  exists l. split; [done|]. split.
  - intros p m Hp Hy. apply cleanup_keeps; [done|]. apply Hy.
  - intros text lang p Hp. rewrite Forall_forall in HP.
    by destruct (HP _ Hp).
Qed.

Lemma listen_and_translate_audio_kept (fuel : nat) :
  effect (listen_and_translate env source_lang target_lang fuel)
         (audio_kept env).
Proof.
  apply (listen_and_translate_effect env source_lang target_lang
           (audio_kept env)).
  - intros e st. apply audio_kept_quiet.
  - intros text. apply lookup_or_translate_effect; [typeclasses eauto|..];
      intros; try (by apply audio_kept_emit); apply audio_kept_set_cache.
  - apply tts_attempt_audio_kept.
  - apply cleanup_audio_kept.
Qed.

End ShortSession.

(** X17.  The sweep at the end of a session spares the audio of the
    session: when the clock advances by no more than 24 hours while the
    program runs, every file that was synthesized during the session is
    still in the cache directory when [listen_and_translate] is left,
    after the sweep, and so is every file that was there at the start and
    was young then. *)
Theorem short_session_keeps_its_audio :
  forall (env : Env) (source_lang target_lang : string) (fuel : nat)
         (st : State),
    (forall i j, env_time env j - env_time env i <= 86400) ->
    let st' := (listen_and_translate env source_lang target_lang fuel st).2 in
    (forall text lang path,
       EvSave text lang path Saved ∈ new_events st st' ->
       is_Some (cache_dir_files st' !! path)) /\
    (forall path mtime,
       cache_dir_files st !! path = Some mtime ->
       (forall j, env_time env j - mtime <= 86400) ->
       cache_dir_files st' !! path = Some mtime).
Proof.
  intros env source_lang target_lang fuel st Hclock. simpl.
  destruct (listen_and_translate_audio_kept env source_lang target_lang
              Hclock fuel st) as (l & Hl & Hkept & Hsaved).
  rewrite (new_events_app _ _ _ Hl). split; [|exact Hkept].
  intros text lang path Hin.
  destruct (Hsaved text lang path Hin) as (m & Hm & _). by exists m.
Qed.

Lemma short_session_keeps_its_audio_witness :
  let env := short_session 20 in
  let st' := (listen_and_translate env "en" "fr" 5 empty_state).2 in
  (forall i j, env_time env j - env_time env i <= 86400) /\
  (listen_and_translate env "en" "fr" 5 empty_state).1 = Val tt /\
  EvSave "bonjour" "fr" "audio_fr_bonjour.mp3" Saved
    ∈ new_events empty_state st' /\
  is_Some (cache_dir_files st' !! "audio_fr_bonjour.mp3").
Proof.
  intros env st'.
  assert (Hclock : forall i j, env_time env j - env_time env i <= 86400).
  { intros i j. simpl. lia. }
  assert (Hres : (listen_and_translate env "en" "fr" 5 empty_state).1
                 = Val tt) by (vm_compute; reflexivity).
  assert (Hin : EvSave "bonjour" "fr" "audio_fr_bonjour.mp3" Saved
                  ∈ new_events empty_state st').
  { set (l := new_events _ _). vm_compute in l. subst l.
    apply list_elem_of_In. simpl. repeat first [left; reflexivity | right]. }
  split; [exact Hclock|]. split; [exact Hres|]. split; [exact Hin|].
  exact (proj1 (short_session_keeps_its_audio env "en" "fr" 5 empty_state
                  Hclock) "bonjour" "fr" "audio_fr_bonjour.mp3" Hin).
Defined.

(** ** The pace of the translator calls *)

#[local] Instance throttled_preorder : PreOrder throttled.
Proof.
  split.
  - intros st. exists []. rewrite app_nil_r. split; [done|]. simpl. lia.
  - intros s1 s2 s3 (l1 & Hl1 & Hc1) (l2 & Hl2 & Hc2).
    exists (l1 ++ l2). rewrite Hl2, Hl1, <- app_assoc. split; [done|].
    rewrite !count_events_app. lia.
Qed.

Lemma throttled_of_emits (P : event -> Prop) (st st' : State) :
  (forall e, P e -> is_translate e = false) ->
  emits P st st' -> throttled st st'.
Proof.
  intros HP (l & Hl & HPl). exists l. split; [done|].
  rewrite (count_events_none is_translate); [lia|].
  eapply Forall_impl; [exact HPl|done].
Qed.

Lemma throttled_emit (e : event) (st : State) :
  is_translate e = false -> throttled st (emit e st).
Proof.
  intros He. apply (throttled_of_emits (fun x => x = e)).
  - by intros x ->.
  - by apply emits_emit.
Qed.

Section Pace.
Variable env : Env.
Variables source_lang target_lang : string.

Lemma lookup_translates_once (text : string) (st : State) :
  exists l,
    log (lookup_or_translate env text st).2 = log st ++ l /\
    (count_events is_translate l <= 1)%nat /\
    count_events is_half_second_sleep l = 0%nat.
Proof.
  destruct (decide (text ∈ (translation_cache st).*1)) as [Hin|Hnin].
  - destruct (dict_get_is_Some _ _ Hin) as [v Hv].
    rewrite (lookup_hit _ _ _ _ Hv Hin). simpl.
    exists [EvPrint (MsgCached v)]. split; [done|]. simpl. lia.
  - rewrite (lookup_miss _ _ _ Hnin). simpl.
    destruct (env_translate _ _ _) as [r|e]; simpl.
    + exists [EvPrint MsgTranslating; EvTranslate text (Ok r);
              EvPrint (MsgTranslation r)].
      rewrite <- !app_assoc. split; [done|]. simpl. lia.
    + exists [EvPrint MsgTranslating; EvTranslate text (Raise e)].
      rewrite <- !app_assoc. split; [done|]. simpl. lia.
Qed.

(** Lines 61-73: the pause, the translation and the speech. *)
Lemma paced_translation (text : string) :
  effect (sleep env 500 ;;
          translation <- lookup_or_translate env text ;;
          text_to_speech env target_lang translation 3)
         throttled.
Proof.
  intros st. unfold bind at 1. rewrite sleep_run.
  set (s1 := emit (EvSleep 500 _) st).
  destruct (env_sleep_interrupted env (tick st)).
  - simpl. exists [EvSleep 500 (Raise KeyboardInterrupt)].
    split; [done|]. simpl. lia.
  - destruct (lookup_translates_once text s1) as (l1 & Hl1 & Hc1 & Hh1).
    assert (Htail : exists l2,
              log ((translation <- lookup_or_translate env text ;;
                    text_to_speech env target_lang translation 3) s1).2
                = log (lookup_or_translate env text s1).2 ++ l2 /\
              count_events is_translate l2 = 0%nat).
    { unfold bind.
      destruct (lookup_or_translate env text s1) as [[v|e|] s2]; simpl;
        [|exists []; by rewrite app_nil_r..].
      destruct (text_to_speech_emits env target_lang v 3 s2)
        as (l2 & Hl2 & HP2).
      exists l2. split; [done|]. apply count_events_none.
      eapply Forall_impl; [exact HP2|]. intros e He. by destruct e. }
    destruct Htail as (l2 & Hl2 & Hc2).
    exists (EvSleep 500 (Ok tt) :: l1 ++ l2). split.
    + cbn [snd]. rewrite Hl2, Hl1. unfold s1. rewrite log_emit.
      by rewrite <- !app_assoc.
    + simpl. rewrite !count_events_app, Hc2. lia.
Qed.

Lemma iteration_throttled :
  effect (iteration env source_lang target_lang) throttled.
Proof.
  unfold iteration. apply (effect_try_except throttled).
  - unfold iteration_body.
    apply (effect_bind throttled); [|intros a].
    { apply (effect_call throttled). intros o s. by apply throttled_emit. }
    apply (effect_bind throttled); [|intros _].
    { apply (effect_print throttled). intros s. by apply throttled_emit. }
    apply (effect_bind throttled); [|intros text].
    { apply (effect_call throttled). intros o s. by apply throttled_emit. }
    apply (effect_bind throttled); [|intros _].
    { apply (effect_print throttled). intros s. by apply throttled_emit. }
    apply paced_translation.
  - intros e k Hk.
    destruct e; simpl in Hk; try discriminate Hk; injection Hk as <-;
      try (apply (effect_print throttled); intros s; by apply throttled_emit);
      (apply (effect_bind throttled); [|intros _];
       [apply (effect_print throttled); intros s; by apply throttled_emit
       |apply (effect_call throttled); intros o s; by apply throttled_emit]).
Qed.

Lemma loop_throttled (fuel : nat) :
  effect (loop env source_lang target_lang fuel) throttled.
Proof.
  induction fuel as [|n IH]; simpl.
  - apply (effect_running throttled).
  - apply (effect_bind throttled); [apply iteration_throttled|done].
Qed.

Lemma listen_and_translate_throttled (fuel : nat) :
  effect (listen_and_translate env source_lang target_lang fuel) throttled.
Proof.
  unfold listen_and_translate.
  apply (effect_finally throttled).
  2: { intros s. apply (throttled_of_emits sweep_event);
         [|apply cleanup_emits]. intros e He. by destruct e. }
  apply (effect_try_except throttled).
  - unfold with_microphone. apply (effect_bind throttled); [|intros _].
    { apply (effect_call throttled). intros o s. by apply throttled_emit. }
    apply (effect_finally throttled); [|intros s; by apply throttled_emit].
    apply (effect_bind throttled); [|intros _].
    { intros s. apply (throttled_of_emits calibration_event);
        [|apply adjust_emits]. intros e He. by destruct e. }
    apply (effect_bind throttled); [|intros _].
    { apply (effect_print throttled). intros s. by apply throttled_emit. }
    apply (effect_bind throttled); [|intros _; apply loop_throttled].
    apply (effect_print throttled). intros s. by apply throttled_emit.
  - intros e k. destruct (is_KeyboardInterrupt e); [|done].
    intros [= <-]. apply (effect_print throttled). intros s.
    by apply throttled_emit.
Qed.

End Pace.

(** X18.  The translator is never called without a pause before it: in
    every run of the session there are at most as many calls of the
    translator as there are pauses of half a second, whatever is
    recognised, cached or failing; the only call without a pause is the
    probe of the construction, so [main] makes at most one call more than
    it pauses. *)
Theorem translator_calls_are_paced :
  forall (env : Env) (source_lang target_lang : string) (fuel : nat)
         (st : State),
    let session :=
      new_events st
        (listen_and_translate env source_lang target_lang fuel st).2 in
    let whole :=
      new_events st (main env source_lang target_lang fuel st).2 in
    (count_events is_translate session
     <= count_events is_half_second_sleep session)%nat /\
    (count_events is_translate whole
     <= S (count_events is_half_second_sleep whole))%nat.
Proof.
  intros env source_lang target_lang fuel st. simpl. split.
  - destruct (listen_and_translate_throttled env source_lang target_lang
                fuel st) as (l & Hl & Hc).
    by rewrite (new_events_app _ _ _ Hl).
  - assert (Hinit : exists l0,
              log (init env source_lang target_lang st).2 = log st ++ l0 /\
              (count_events is_translate l0 <= 1)%nat).
    { rewrite init_run. simpl.
      destruct (env_translator_new _ _ _ _) as [[]|e1]; simpl.
      - destruct (env_translate _ _ _) as [r|e2]; simpl.
        + destruct (env_mkdir _ _) as [[]|e3]; simpl;
            rewrite <- !app_assoc; eexists; (split; [reflexivity|]);
            simpl; lia.
        + rewrite <- !app_assoc. eexists. split; [reflexivity|].
          simpl. lia.
      - rewrite <- !app_assoc. eexists. split; [reflexivity|]. simpl. lia. }
    destruct Hinit as (l0 & Hl0 & Hc0).
    assert (Hrun : exists l1,
              log ((init env source_lang target_lang ;;
                    listen_and_translate env source_lang target_lang fuel)
                     st).2
                = log (init env source_lang target_lang st).2 ++ l1 /\
              (count_events is_translate l1
               <= count_events is_half_second_sleep l1)%nat).
    { unfold bind.
      destruct (init env source_lang target_lang st) as [[[]|e|] s1]; simpl;
        [|exists []; rewrite app_nil_r; split; [done|simpl; lia]..].
      apply listen_and_translate_throttled. }
    destruct Hrun as (l1 & Hl1 & Hc1).
    assert (Hreport : exists l2,
              log (main env source_lang target_lang fuel st).2
                = log ((init env source_lang target_lang ;;
                        listen_and_translate env source_lang target_lang
                          fuel) st).2 ++ l2 /\
              count_events is_translate l2 = 0%nat).
    { unfold main, try_except.
      destruct ((init env source_lang target_lang ;;
                 listen_and_translate env source_lang target_lang fuel) st)
        as [[[]|e|] s2]; simpl;
        [exists []; by rewrite app_nil_r| |exists []; by rewrite app_nil_r].
      unfold on_Exception. destruct (is_Exception e); simpl.
      - exists [EvPrint (MsgMainError e); EvPrint MsgCheckLanguages].
        by rewrite <- app_assoc.
      - exists []. by rewrite app_nil_r. }
    destruct Hreport as (l2 & Hl2 & Hc2).
    assert (Hlog : log (main env source_lang target_lang fuel st).2
                   = log st ++ (l0 ++ l1 ++ l2)).
    { rewrite Hl2, Hl1, Hl0, <- !app_assoc. done. }
    rewrite (new_events_app _ _ _ Hlog), !count_events_app. lia.
Qed.

Lemma translator_calls_are_paced_witness :
  let session :=
    new_events empty_state
      (listen_and_translate chatty "en" "fr" 3 empty_state).2 in
  let whole :=
    new_events empty_state (main chatty "en" "fr" 3 empty_state).2 in
  (count_events is_translate session
   <= count_events is_half_second_sleep session)%nat /\
  (count_events is_translate whole
   <= S (count_events is_half_second_sleep whole))%nat /\
  count_events is_translate whole = 4%nat /\
  count_events is_half_second_sleep whole = 3%nat.
Proof.
  intros session whole.
  destruct (translator_calls_are_paced chatty "en" "fr" 3 empty_state)
    as [Hsession Hwhole].
  split; [exact Hsession|]. split; [exact Hwhole|].
  split; vm_compute; reflexivity.
Defined.

(** ** The names of the audio files *)

Lemma string_app_inj_l (a s t : string) : a +:+ s = a +:+ t -> s = t.
Proof.
  induction a as [|x a IH]; [done|].
  rewrite !string_app_cons. intros [= H]. auto.
Qed.

Lemma string_app_inj_r (s : string) :
  forall a b : string, a +:+ s = b +:+ s -> a = b.
Proof.
  induction a as [|x a IH]; intros [|y b] H.
  - done.
  - apply (f_equal String.length) in H.
    rewrite !length_string_app in H. simpl in H. lia.
  - apply (f_equal String.length) in H.
    rewrite !length_string_app in H. simpl in H. lia.
  - rewrite !string_app_cons in H. injection H as -> H.
    by rewrite (IH b H).
Qed.

(** X19.  Two texts are spoken from the same audio file exactly when they
    have the same digest: the name of the file determines the digest of
    its text, for every target language.  The name is the digest between
    the prefix of the language and the extension [.mp3]. *)
Theorem audio_file_per_digest :
  forall (env : Env) (target_lang text1 text2 : string),
    get_audio_filename env target_lang text1
      = get_audio_filename env target_lang text2
    <-> env_md5 env text1 = env_md5 env text2.
Proof.
  intros env target_lang text1 text2. unfold get_audio_filename. split.
  - intros H.
    apply string_app_inj_l, string_app_inj_l, string_app_inj_l in H.
    by apply string_app_inj_r in H.
  - by intros ->.
Qed.

Lemma audio_file_per_digest_witness :
  get_audio_filename calm_env "fr" "bonjour" = "audio_fr_bonjour.mp3" /\
  (get_audio_filename calm_env "fr" "bonjour"
     = get_audio_filename calm_env "fr" "salut" ->
   env_md5 calm_env "bonjour" = env_md5 calm_env "salut") /\
  get_audio_filename calm_env "fr" "bonjour"
    <> get_audio_filename calm_env "fr" "salut".
Proof.
  split; [reflexivity|].
  pose proof (proj1 (audio_file_per_digest calm_env "fr" "bonjour" "salut"))
    as Hdigest.
  split; [exact Hdigest|].
  intros Hsame. specialize (Hdigest Hsame). discriminate Hdigest.
Defined.
